(** * DTD Hydrogen storefront: the real-time 3D rendering core

    A shallow embedding of the parts of the rendering core that carry the
    specification's testable properties:

    - [IceTrail]       effects/IceTrailEffect.ts (ring buffer, decay, shader loop)
    - [IceTrailRuns]   concrete runs of the ice trail
    - [TextureLoaders] utils/TextureLoaders.ts (shared ice bundle, model cache)
    - [Scene]          SharedThreeScene.tsx + utils/Performance.ts (pause logic,
                       device-class check)
    - [IceButton]      ui/IceButtonManager.ts (hover progress state machine)
    - [IceTrailLog]    the insertions of a run of the ice trail
    - [GLSL], [IceShader]  the fragment shader that [injectIceShader] adds
    - [LoaderCaches]   utils/TextureLoaders.ts (texture cache, cache clearing,
                       the TextureCache class)
    - [SceneRuns]      frames of the scene, utils/AnimationLoop.ts
    - [Performance]    utils/Performance.ts (throttle, resize handler)
    - [Lenis]          hooks/useLenis.ts (the frame scheduler)
    - [Pointer]        handleMouseMove and hooks/ModelInteraction.ts
    - [IceButtonLoop]  ui/IceButtonManager.ts (loop, textures), ui/IceButton.tsx

    JavaScript numbers that take part in transcendental arithmetic
    ([Math.pow], [Math.sin]) are modelled as real numbers; rounding to
    binary32/binary64 is not modelled.  Numbers that only take part in
    additions, multiplications by constants and comparisons (the button
    progress) are modelled as rationals, so that they stay executable. *)

From Stdlib Require Import Reals Machin Lra Lia ZArith QArith Qminmax Qabs.
From Stdlib Require Lqa.
From stdpp Require Import base list gmap strings.

#[local] Set Warnings "-register-all".

(** ** Ice trail effect (effects/IceTrailEffect.ts) *)

Module IceTrail.

Local Open Scope R_scope.

(** ICE_CONFIG (constants.ts). *)
Definition maxTrailPoints : nat := 64.
Definition trailInterval : R := 0.025.

(** Typed-array read.  Indices used by the effect are always in range; a
    read out of range yields [undefined], which every comparison of the
    source treats like a dead value, here 0. *)
Definition get (a : list R) (i : nat) : R := default 0 (a !! i).

(** [Math.pow base e] on the domain the effect uses it: a base that is
    non-negative and an exponent that is positive.  [Rpower x y] is
    [exp (y * ln x)], which is the power function for [x > 0]; the base 0
    is given the value JavaScript gives it. *)
Definition Math_pow (base e : R) : R :=
  if Req_dec_T base 0 then 0 else Rpower base e.

(** An entry of [raycaster.intersectObject]: only the optional surface UV
    is read by the effect. *)
Record Intersection := { uv : option (R * R) }.

(** The results of the [Math.random()] calls made by one [update]: one
    draw per slot for the melt test, two for a new point. *)
Record Draws := {
  meltDraw : nat -> R;
  fadeDraw : R;
  ageDraw : R }.

Record state := {
  trailData : list R;       (* Float32Array(64 * 4): x, y, age, intensity *)
  trailMeta : list R;       (* Float32Array(64 * 2): fadeSpeed, maxAge *)
  trailIndex : nat;
  trailCount : nat;
  lastTrailTime : R;
  needsUpdate : bool;       (* trailTexture.needsUpdate *)
  uTrailCount : nat;        (* iceUniforms.uTrailCount.value *)
  uTime : R }.

(** The constructor: zero-filled typed arrays, texture flagged for upload. *)
Definition init : state :=
  {| trailData := replicate (maxTrailPoints * 4) 0;
     trailMeta := replicate (maxTrailPoints * 2) 0;
     trailIndex := 0;
     trailCount := 0;
     lastTrailTime := 0;
     needsUpdate := true;
     uTrailCount := 0;
     uTime := 0 |}.

(** Body of the ageing loop of [update] for slot [i]. *)
Definition age_point (deltaTime : R) (rnd : Draws) (meta : list R)
    (d : list R) (i : nat) : list R :=
  let idx := (i * 4)%nat in
  let metaIdx := (i * 2)%nat in
  if Rlt_dec 0 (get d (idx + 3)) then
    let d1 := <[(idx + 2)%nat := get d (idx + 2) + deltaTime]> d in
    let maxAge := get meta (metaIdx + 1) in
    let age := get d1 (idx + 2) in
    let normalizedAge := age / maxAge in
    let fadeCurve := Math_pow normalizedAge (1.5 + sin (age * 3.0) * 0.3) in
    let d2 := <[(idx + 3)%nat := Rmax 0 (1.0 - fadeCurve)]> d1 in
    if Rlt_dec (meltDraw rnd i) 0.002
    then <[(idx + 3)%nat := get d2 (idx + 3) * 0.7]> d2
    else d2
  else d.

(** [for (let i = 0; i < ICE_CONFIG.maxTrailPoints; i++)]. *)
Definition age_loop (deltaTime : R) (rnd : Draws) (meta d : list R) : list R :=
  fold_left (age_point deltaTime rnd meta) (seq 0 maxTrailPoints) d.

(** The guard of the insertion:
    [!isScrolling && intersects.length > 0 && intersects[0].uv &&
     elapsedTime - this.lastTrailTime > ICE_CONFIG.trailInterval].
    Returns the UV that is about to be written, if any. *)
Definition new_point (elapsedTime : R) (intersects : list Intersection)
    (isScrolling : bool) (st : state) : option (R * R) :=
  if isScrolling then None else
  match intersects with
  | [] => None
  | hit :: _ =>
      match uv hit with
      | None => None
      | Some hitUv =>
          if Rlt_dec trailInterval (elapsedTime - lastTrailTime st)
          then Some hitUv else None
      end
  end.

(** The insertion block: write at the cursor, advance it modulo the
    capacity, raise the count up to the capacity. *)
Definition insert_point (elapsedTime : R) (hitUv : R * R) (rnd : Draws)
    (st : state) : state :=
  let idx := (trailIndex st * 4)%nat in
  let metaIdx := (trailIndex st * 2)%nat in
  let d := <[(idx + 3)%nat := 1.0]>
           (<[(idx + 2)%nat := 0]>
           (<[(idx + 1)%nat := snd hitUv]>
           (<[idx := fst hitUv]> (trailData st)))) in
  let m := <[(metaIdx + 1)%nat := 2.0 + ageDraw rnd * 3.0]>
           (<[metaIdx := 0.1 + fadeDraw rnd * 0.2]> (trailMeta st)) in
  {| trailData := d;
     trailMeta := m;
     trailIndex := (trailIndex st + 1) mod maxTrailPoints;
     trailCount := Nat.min (trailCount st + 1) maxTrailPoints;
     lastTrailTime := elapsedTime;
     needsUpdate := needsUpdate st;
     uTrailCount := uTrailCount st;
     uTime := uTime st |}.

(** [!isScrolling || (Math.floor(elapsedTime * 60) % 2 === 0)]. *)
Definition shouldUpdateTexture (elapsedTime : R) (isScrolling : bool) : bool :=
  negb isScrolling || Z.even (Int_part (elapsedTime * 60)).

(** One call of [update]. *)
Record Frame := {
  deltaTime : R;
  elapsedTime : R;
  intersects : list Intersection;
  isScrolling : bool;
  draws : Draws }.

Definition update (f : Frame) (st : state) : state :=
  let aged :=
    {| trailData := age_loop (deltaTime f) (draws f) (trailMeta st) (trailData st);
       trailMeta := trailMeta st;
       trailIndex := trailIndex st;
       trailCount := trailCount st;
       lastTrailTime := lastTrailTime st;
       needsUpdate := needsUpdate st;
       uTrailCount := uTrailCount st;
       uTime := uTime st |} in
  let st1 :=
    match new_point (elapsedTime f) (intersects f) (isScrolling f) aged with
    | Some hitUv => insert_point (elapsedTime f) hitUv (draws f) aged
    | None => aged
    end in
  {| trailData := trailData st1;
     trailMeta := trailMeta st1;
     trailIndex := trailIndex st1;
     trailCount := trailCount st1;
     lastTrailTime := lastTrailTime st1;
     needsUpdate :=
       if shouldUpdateTexture (elapsedTime f) (isScrolling f)
       then true else needsUpdate st1;
     uTrailCount := trailCount st1;
     uTime := elapsedTime f |}.

(** A sequence of [update] calls, oldest first. *)
Definition run (fs : list Frame) (st : state) : state :=
  fold_left (fun s f => update f s) fs st.

(** Field accessors of slot [i]. *)
Definition slot_u (st : state) (i : nat) : R := get (trailData st) (i * 4).
Definition slot_v (st : state) (i : nat) : R := get (trailData st) (i * 4 + 1).
Definition slot_age (st : state) (i : nat) : R := get (trailData st) (i * 4 + 2).
Definition slot_intensity (st : state) (i : nat) : R := get (trailData st) (i * 4 + 3).
Definition slot_maxAge (st : state) (i : nat) : R := get (trailMeta st) (i * 2 + 1).


(** What the loop body does to the age and intensity of one point, as a
    function of the point alone (see [age_loop_slot]). *)
Definition decay (dt melt maxAge age w : R) : R * R :=
  if Rlt_dec 0 w then
    let age' := age + dt in
    let fadeCurve := Math_pow (age' / maxAge) (1.5 + sin (age' * 3.0) * 0.3) in
    let w' := Rmax 0 (1.0 - fadeCurve) in
    (age', if Rlt_dec melt 0.002 then w' * 0.7 else w')
  else (age, w).

(** A point is live while its stored intensity is positive
    ([this.trailData[idx + 3] > 0]). *)
Definition is_live (st : state) (i : nat) : bool :=
  if Rlt_dec 0 (slot_intensity st i) then true else false.

Definition live_points (st : state) : nat :=
  length (List.filter (is_live st) (seq 0 maxTrailPoints)).

(** The UVs written by a sequence of [update] calls, in insertion order. *)
Fixpoint inserted (fs : list Frame) (st : state) : list (R * R) :=
  match fs with
  | [] => []
  | f :: fs' =>
      match new_point (elapsedTime f) (intersects f) (isScrolling f) st with
      | Some hitUv => hitUv :: inserted fs' (update f st)
      | None => inserted fs' (update f st)
      end
  end.

(** *** The trail loop of the injected fragment shader

    [#define MAX_TRAIL_POINTS 64]; the data texture is 64 x 1, RGBA float,
    with the default nearest filter, so [texture2D] at the centre of
    column [i] returns texel [i], which is the four floats of slot [i]. *)
Definition MAX_TRAIL_POINTS : nat := 64.

Definition texel : Type := R * R * R * R.

Definition texture2D (tex : list R) (s : R) : texel :=
  let c := Z.to_nat (Int_part (s * INR MAX_TRAIL_POINTS)) in
  (get tex (c * 4), get tex (c * 4 + 1), get tex (c * 4 + 2), get tex (c * 4 + 3)).

Definition texCoord (i : nat) : R := (INR i + 0.5) / INR MAX_TRAIL_POINTS.

(** [for (int i = 0; i < MAX_TRAIL_POINTS; i++) { if (i >= uTrailCount) break; ... }]
    started at [i] with [n] iterations left; the result lists the trail
    points sampled, in the order the loop samples them. *)
Fixpoint trail_loop (tex : list R) (uCount : nat) (i n : nat) : list texel :=
  match n with
  | O => []
  | S n' =>
      if (uCount <=? i)%nat then []
      else texture2D tex (texCoord i) :: trail_loop tex uCount (S i) n'
  end.



(** *** Vocabulary of the properties *)

(** The shape every reachable state has. *)
Definition shape (st : state) : Prop :=
  length (trailData st) = (maxTrailPoints * 4)%nat /\
  length (trailMeta st) = (maxTrailPoints * 2)%nat /\
  (trailIndex st < maxTrailPoints)%nat /\
  (trailCount st <= maxTrailPoints)%nat.

(** Inputs an [update] call can receive: time does not run backwards and
    [Math.random()] returns a number in [0, 1). *)
Definition valid_frame (f : Frame) : Prop :=
  0 <= deltaTime f /\
  0 <= fadeDraw (draws f) < 1 /\
  0 <= ageDraw (draws f) < 1.

(** What holds of every slot of a state reached through valid frames. *)
Definition points_ok (st : state) : Prop :=
  forall i, (i < maxTrailPoints)%nat ->
    0 <= slot_age st i /\
    0 <= slot_intensity st i <= 1 /\
    (0 < slot_intensity st i -> 2 <= slot_maxAge st i < 5).

(** The slot the call [update f] writes a new point to, if it writes one. *)
Definition overwrites (f : Frame) (st : state) (i : nat) : Prop :=
  new_point (elapsedTime f) (intersects f) (isScrolling f) st <> None /\
  trailIndex st = i.

(** The texel of slot [i]. *)
Definition slot_texel (tex : list R) (i : nat) : texel :=
  (get tex (i * 4), get tex (i * 4 + 1), get tex (i * 4 + 2), get tex (i * 4 + 3)).

(** The ring-buffer invariant: the cursor and the count follow the number
    of points inserted so far, and each of the last 64 inserted points sits
    in the slot given by its insertion rank modulo 64. *)
Definition ring_inv (st : state) (ps : list (R * R)) : Prop :=
  shape st /\
  trailIndex st = (length ps mod maxTrailPoints)%nat /\
  trailCount st = Nat.min (length ps) maxTrailPoints /\
  uTrailCount st = trailCount st /\
  forall m, (m < length ps)%nat -> (length ps <= m + maxTrailPoints)%nat ->
    ps !! m = Some (slot_u st (m mod maxTrailPoints),
                    slot_v st (m mod maxTrailPoints)).

(** The statement that insertion always evicts a point of maximal stored
    age; the code does not satisfy it. *)
Definition overwrites_oldest_by_age : Prop :=
  forall (fs : list Frame) (f : Frame) (i j : nat),
    Forall valid_frame fs -> valid_frame f ->
    overwrites f (run fs init) i ->
    (j < maxTrailPoints)%nat -> 0 < slot_intensity (run fs init) j ->
    slot_age (run fs init) j <= slot_age (run fs init) i.

End IceTrail.

(** ** Concrete runs of the ice trail, used as witnesses and counterexamples *)

Module IceTrailRuns.
Import IceTrail.
Local Open Scope R_scope.

Definition noMelt : nat -> R := fun _ => 1 / 2.

Definition quietDraws (r : R) : Draws :=
  {| meltDraw := noMelt; fadeDraw := 0; ageDraw := r |}.

(** A frame in which the pointer touches the model at UV [(u, v)]. *)
Definition touch (dt e u v r : R) : Frame :=
  {| deltaTime := dt; elapsedTime := e;
     intersects := [{| uv := Some (u, v) |}];
     isScrolling := false; draws := quietDraws r |}.

(** A frame in which the pointer is off the model. *)
Definition idle (dt e : R) : Frame :=
  {| deltaTime := dt; elapsedTime := e; intersects := [];
     isScrolling := false; draws := quietDraws 0 |}.

(** The scenario: a point is created with maximal age 3 pi / 2 (about 4.71 s),
    then aged to 11 pi / 18 (about 1.92 s), then by pi / 18 more (about 0.17 s). *)
Definition riseA : Frame := touch 1 1 (1 / 2) (1 / 2) (PI / 2 - 2 / 3).
Definition riseB : Frame := idle (11 * PI / 18) (1 + 11 * PI / 18).
Definition riseC : Frame := idle (PI / 18) (1 + 2 * PI / 3).

(** A point created with the shortest maximal age, 2 s. *)
Definition freshPoint : Frame := touch 1 1 (1 / 2) (1 / 2) 0.

(** *** A run that wraps the ring buffer

    Sixty-five consecutive frames, each of which inserts a point.  Point 0
    lives 2 s, the others 4.97 s; frame 2 is a long one (2.5 s), all others
    take 30 ms.  The elapsed time is the sum of the time steps. *)
Definition lapDt (k : nat) : R := if (k =? 2)%nat then 2.5 else 0.03.
Definition lapTime (k : nat) : R :=
  INR (S k) * 0.03 + (if (2 <=? k)%nat then 2.47 else 0).
Definition lapDraw (k : nat) : R := if (k =? 0)%nat then 0 else 0.99.
Definition lapUv (k : nat) : R * R := (INR k / 100, 0).
Definition lapFrame (k : nat) : Frame :=
  touch (lapDt k) (lapTime k) (INR k / 100) 0 (lapDraw k).
Definition laps (n : nat) : list Frame := map lapFrame (seq 0 n).

End IceTrailRuns.

(** ** Texture and model loaders (utils/TextureLoaders.ts) *)

Module TextureLoaders.

(** *** The shared ice texture bundle *)

(** A [THREE.Texture], as far as the loader touches it.  [texId] is the
    identity of the JavaScript object. *)
Inductive Wrapping := ClampToEdgeWrapping | RepeatWrapping.
Inductive ColorSpace := NoColorSpace | SRGBColorSpace | LinearSRGBColorSpace.

Record Texture := {
  texId : nat;
  url : string;
  flipY : bool;
  wrapS : Wrapping;
  wrapT : Wrapping;
  colorSpace : ColorSpace }.

(** [interface IceTextures]; [bundleId] is the identity of the object
    literal, so that two bundles are the same object exactly when they are
    equal. *)
Record IceTextures := {
  bundleId : nat;
  color : Texture;
  normal : Texture;
  density : Texture;
  noise : Texture;
  radial : Texture }.

(** A completion callback is an opaque closure, known by its identity. *)
Definition Callback : Type := nat.

(** The module-level variables, with two observation logs: the URLs passed
    to [THREE.TextureLoader.load] and the callback invocations, both in
    the order in which they happen. *)
Record IceState := {
  sharedIceTextures : option IceTextures;
  sharedIceTexturesLoading : bool;
  iceTexturesCallbacks : list Callback;
  nextObject : nat;
  loadCalls : list string;
  invoked : list (Callback * IceTextures) }.

Definition iceInit : IceState :=
  {| sharedIceTextures := None;
     sharedIceTexturesLoading := false;
     iceTexturesCallbacks := [];
     nextObject := 0;
     loadCalls := [];
     invoked := [] |}.

Definition getSharedIceTextures (s : IceState) : option IceTextures :=
  sharedIceTextures s.

(** [cb(textures)]. *)
Definition call (cb : Callback) (t : IceTextures) (s : IceState) : IceState :=
  {| sharedIceTextures := sharedIceTextures s;
     sharedIceTexturesLoading := sharedIceTexturesLoading s;
     iceTexturesCallbacks := iceTexturesCallbacks s;
     nextObject := nextObject s;
     loadCalls := loadCalls s;
     invoked := invoked s ++ [(cb, t)] |}.

(** [if (onLoaded) iceTexturesCallbacks.push(onLoaded)]. *)
Definition push (onLoaded : option Callback) (s : IceState) : IceState :=
  match onLoaded with
  | None => s
  | Some cb =>
      {| sharedIceTextures := sharedIceTextures s;
         sharedIceTexturesLoading := sharedIceTexturesLoading s;
         iceTexturesCallbacks := iceTexturesCallbacks s ++ [cb];
         nextObject := nextObject s;
         loadCalls := loadCalls s;
         invoked := invoked s |}
  end.

(** [loader.load(url)]: returns at once a new texture object with the
    three.js defaults; its image arrives later. *)
Definition load (u : string) (s : IceState) : Texture * IceState :=
  ({| texId := nextObject s; url := u; flipY := true;
      wrapS := ClampToEdgeWrapping; wrapT := ClampToEdgeWrapping;
      colorSpace := NoColorSpace |},
   {| sharedIceTextures := sharedIceTextures s;
      sharedIceTexturesLoading := sharedIceTexturesLoading s;
      iceTexturesCallbacks := iceTexturesCallbacks s;
      nextObject := S (nextObject s);
      loadCalls := loadCalls s ++ [u];
      invoked := invoked s |}).

(** The body of the [forEach] over the five textures. *)
Definition configure (tex : Texture) : Texture :=
  {| texId := texId tex; url := url tex; flipY := false;
     wrapS := RepeatWrapping; wrapT := RepeatWrapping;
     colorSpace := colorSpace tex |}.

Definition withColorSpace (c : ColorSpace) (tex : Texture) : Texture :=
  {| texId := texId tex; url := url tex; flipY := flipY tex;
     wrapS := wrapS tex; wrapT := wrapT tex; colorSpace := c |}.

Definition iceTexturePath : string := "/assets/textures_dracarys/".

(** [loadSharedIceTextures(onLoaded?)]: the new state and the value
    returned. *)
Definition loadSharedIceTextures (onLoaded : option Callback) (s : IceState)
    : IceState * option IceTextures :=
  match sharedIceTextures s with
  | Some t =>
      (* Already loaded - return immediately *)
      (match onLoaded with Some cb => call cb t s | None => s end, Some t)
  | None =>
      if sharedIceTexturesLoading s then
        (* Loading in progress - queue callback *)
        (push onLoaded s, None)
      else
        (* Start loading *)
        let s :=
          {| sharedIceTextures := sharedIceTextures s;
             sharedIceTexturesLoading := true;
             iceTexturesCallbacks := iceTexturesCallbacks s;
             nextObject := nextObject s;
             loadCalls := loadCalls s;
             invoked := invoked s |} in
        let s := push onLoaded s in
        let '(iceColorMap, s) := load (iceTexturePath +:+ "ice-diffuse-3.jpg") s in
        let '(iceNormalMap, s) := load (iceTexturePath +:+ "ice-normal-4.png") s in
        let '(iceDensityMap, s) := load (iceTexturePath +:+ "ice-density-4.jpg") s in
        let '(noiseTexture, s) := load (iceTexturePath +:+ "noise-fbm.png") s in
        let '(radialTexture, s) := load (iceTexturePath +:+ "radial.jpg") s in
        let t :=
          {| bundleId := nextObject s;
             color := withColorSpace SRGBColorSpace (configure iceColorMap);
             normal := configure iceNormalMap;
             density := configure iceDensityMap;
             noise := configure noiseTexture;
             radial := configure radialTexture |} in
        let s :=
          {| sharedIceTextures := Some t;
             sharedIceTexturesLoading := sharedIceTexturesLoading s;
             iceTexturesCallbacks := iceTexturesCallbacks s;
             nextObject := S (nextObject s);
             loadCalls := loadCalls s;
             invoked := invoked s |} in
        (* Notify all waiting callbacks *)
        let s := fold_left (fun s cb => call cb t s) (iceTexturesCallbacks s) s in
        ({| sharedIceTextures := sharedIceTextures s;
            sharedIceTexturesLoading := sharedIceTexturesLoading s;
            iceTexturesCallbacks := [];
            nextObject := nextObject s;
            loadCalls := loadCalls s;
            invoked := invoked s |}, Some t)
  end.

(** Successive calls, each with a callback; the values returned are
    collected in call order. *)
Fixpoint loadAll (cbs : list Callback) (s : IceState)
    : IceState * list (option IceTextures) :=
  match cbs with
  | [] => (s, [])
  | cb :: cbs' =>
      let '(s1, r) := loadSharedIceTextures (Some cb) s in
      let '(s2, rs) := loadAll cbs' s1 in
      (s2, r :: rs)
  end.

(** The five URLs, in the order in which the loader requests them. *)
Definition iceUrls : list string :=
  [ "/assets/textures_dracarys/ice-diffuse-3.jpg";
    "/assets/textures_dracarys/ice-normal-4.png";
    "/assets/textures_dracarys/ice-density-4.jpg";
    "/assets/textures_dracarys/noise-fbm.png";
    "/assets/textures_dracarys/radial.jpg" ].

(** The state of a module whose bundle [t] is loaded and which has made
    the callback invocations [log]. *)
Definition loadedWith (t : IceTextures) (log : list (Callback * IceTextures))
    (s : IceState) : Prop :=
  sharedIceTextures s = Some t /\
  sharedIceTexturesLoading s = true /\
  iceTexturesCallbacks s = [] /\
  loadCalls s = iceUrls /\
  invoked s = log.

(** *** The model cache *)

Record Vec3 := { vx : Q; vy : Q; vz : Q }.
Record Transform := { position : Vec3; rotation : Vec3; scale : Vec3 }.

Definition identity : Transform :=
  {| position := {| vx := 0; vy := 0; vz := 0 |};
     rotation := {| vx := 0; vy := 0; vz := 0 |};
     scale := {| vx := 1; vy := 1; vz := 1 |} |}.

(** A [THREE.Object3D] subtree.  A node is known by the identity of its
    JavaScript object; its transform is mutable and lives in the heap
    under that identity; geometry and material are references to shared
    GPU resources. *)
Inductive Object3D :=
  Obj (objId : nat) (geometry material : option nat) (children : list Object3D).

Record Heap := { nextId : nat; transforms : gmap nat Transform }.

Definition emptyHeap : Heap := {| nextId := 0; transforms := ∅ |}.

Definition transformOf (h : Heap) (i : nat) : Transform :=
  default identity (transforms h !! i).

(** What a parsed glTF file describes: a tree of nodes with their initial
    transforms and their geometry and material. *)
Inductive Blueprint :=
  Bp (t : Transform) (geometry material : option nat) (children : list Blueprint).

(** [new Object3D()] with transform [t]. *)
Definition alloc (t : Transform) (h : Heap) : nat * Heap :=
  (nextId h,
   {| nextId := S (nextId h); transforms := <[nextId h := t]> (transforms h) |}).

(** The loader builds [gltf.scene] out of new objects. *)
Fixpoint instantiate (b : Blueprint) (h : Heap) : Object3D * Heap :=
  match b with
  | Bp t g m cs =>
      let '(i, h1) := alloc t h in
      let '(cs', h2) :=
        (fix all (cs : list Blueprint) (h : Heap) : list Object3D * Heap :=
           match cs with
           | [] => ([], h)
           | c :: cs' =>
               let '(o, h') := instantiate c h in
               let '(os, h'') := all cs' h' in
               (o :: os, h'')
           end) cs h1 in
      (Obj i g m cs', h2)
  end.

(** [Object3D.clone()] of three.js (recursive by default): every node of
    the subtree is copied into a new object, the transform is copied by
    value, geometry and material are shared by reference. *)
Fixpoint clone (o : Object3D) (h : Heap) : Object3D * Heap :=
  match o with
  | Obj i g m cs =>
      let '(j, h1) := alloc (transformOf h i) h in
      let '(cs', h2) :=
        (fix all (cs : list Object3D) (h : Heap) : list Object3D * Heap :=
           match cs with
           | [] => ([], h)
           | c :: cs' =>
               let '(o, h') := clone c h in
               let '(os, h'') := all cs' h' in
               (o :: os, h'')
           end) cs h1 in
      (Obj j g m cs', h2)
  end.

(** The identities of the objects of a subtree. *)
Fixpoint ids (o : Object3D) : list nat :=
  match o with
  | Obj i _ _ cs => i :: flat_map ids cs
  end.

(** The structure of a subtree as it is now: transforms, geometry and
    material of every node.  Two subtrees are structurally equal when
    their snapshots are equal. *)
Fixpoint snapshot (h : Heap) (o : Object3D) : Blueprint :=
  match o with
  | Obj i g m cs => Bp (transformOf h i) g m (map (snapshot h) cs)
  end.

(** A consumer mutates the transform of one object
    ([model.position.set(...)] and the like). *)
Definition setTransform (i : nat) (t : Transform) (h : Heap) : Heap :=
  {| nextId := nextId h; transforms := <[i := t]> (transforms h) |}.

(** [const modelCache = new Map<string, THREE.Group>()], the heap, and an
    observation log: the objects handed to consumers so far, oldest first. *)
Record ModelState := {
  modelCache : gmap string Object3D;
  heap : Heap;
  handed : list Object3D }.

Definition modelInit : ModelState :=
  {| modelCache := ∅; heap := emptyHeap; handed := [] |}.

(** [loadModel(path)] up to the point where it returns its promise: on a
    cache hit the promise is resolved with a clone; otherwise a load is
    started and the promise stays pending until [onLoad]. *)
Definition loadModel (path : string) (s : ModelState)
    : ModelState * option Object3D :=
  match modelCache s !! path with
  | Some model =>
      let '(c, h) := clone model (heap s) in
      ({| modelCache := modelCache s; heap := h; handed := handed s ++ [c] |},
       Some c)
  | None => (s, None)
  end.

(** The success callback of [loader.load]: cache the original, resolve
    the promise with a clone. *)
Definition onLoad (path : string) (gltf : Blueprint) (s : ModelState)
    : ModelState * Object3D :=
  let '(model, h) := instantiate gltf (heap s) in
  let '(c, h') := clone model h in
  ({| modelCache := <[path := model]> (modelCache s);
      heap := h';
      handed := handed s ++ [c] |}, c).

(** [await loadModel(path)]: the call together with the completion of
    the load it may have started; [gltf] is what the file at [path]
    describes. *)
Definition awaitModel (path : string) (gltf : Blueprint) (s : ModelState)
    : ModelState * Object3D :=
  match loadModel path s with
  | (s', Some c) => (s', c)
  | (s', None) => onLoad path gltf s'
  end.

(** What can happen to the cache: a call, the completion of a load, and a
    consumer setting the transform of an object.  A consumer reaches only
    the objects it was handed (and their descendants). *)
Inductive Event :=
  | Call (path : string)
  | Loaded (path : string) (gltf : Blueprint)
  | Mutate (i : nat) (t : Transform).

Definition step (s : ModelState) (e : Event) : ModelState :=
  match e with
  | Call path => fst (loadModel path s)
  | Loaded path gltf => fst (onLoad path gltf s)
  | Mutate i t =>
      if bool_decide (i ∈ flat_map ids (handed s))
      then {| modelCache := modelCache s;
              heap := setTransform i t (heap s);
              handed := handed s |}
      else s
  end.

Definition steps (es : list Event) (s : ModelState) : ModelState :=
  fold_left step es s.

(** The glTF description most recently loaded for [path]. *)
Definition lastLoaded (path : string) (es : list Event) : option Blueprint :=
  fold_left
    (fun acc e =>
       match e with
       | Loaded p b => if bool_decide (p = path) then Some b else acc
       | _ => acc
       end) es None.

(** Two subtrees share no object. *)
Definition apart (o1 o2 : Object3D) : Prop :=
  forall x, x ∈ ids o1 -> x ∈ ids o2 -> False.

(** *** Vocabulary of the properties of the model cache *)

(** The loops over the children, by name. *)
Definition cloneAll : list Object3D -> Heap -> list Object3D * Heap :=
  fix all (cs : list Object3D) (h : Heap) : list Object3D * Heap :=
    match cs with
    | [] => ([], h)
    | c :: cs' =>
        let '(o, h') := clone c h in
        let '(os, h'') := all cs' h' in
        (o :: os, h'')
    end.

Definition instantiateAll : list Blueprint -> Heap -> list Object3D * Heap :=
  fix all (cs : list Blueprint) (h : Heap) : list Object3D * Heap :=
    match cs with
    | [] => ([], h)
    | c :: cs' =>
        let '(o, h') := instantiate c h in
        let '(os, h'') := all cs' h' in
        (o :: os, h'')
    end.

(** [h'] extends [h]: it has allocated more objects and has left the
    transforms of the objects of [h] alone. *)
Definition extends (h h' : Heap) : Prop :=
  nextId h <= nextId h' /\
  forall k, k < nextId h -> transforms h' !! k = transforms h !! k.

(** All objects of a subtree have been allocated in [h]. *)
Definition allocated (h : Heap) (o : Object3D) : Prop :=
  Forall (fun x => x < nextId h) (ids o).

(** All objects of a subtree have been allocated between [h] and [h']. *)
Definition fresh (h h' : Heap) (o : Object3D) : Prop :=
  Forall (fun x => nextId h <= x < nextId h') (ids o).

(** What [clone] guarantees. *)
Definition clone_ok (o : Object3D) : Prop :=
  forall h, allocated h o ->
    extends h (snd (clone o h)) /\
    fresh h (snd (clone o h)) (fst (clone o h)) /\
    snapshot (snd (clone o h)) (fst (clone o h)) = snapshot h o.

Definition instantiate_ok (b : Blueprint) : Prop :=
  forall h,
    extends h (snd (instantiate b h)) /\
    fresh h (snd (instantiate b h)) (fst (instantiate b h)) /\
    snapshot (snd (instantiate b h)) (fst (instantiate b h)) = b.

(** The invariant of the cache: every cached original and every object
    handed out is allocated, and no object handed out shares a node with a
    cached original. *)
Definition cache_ok (s : ModelState) : Prop :=
  (forall p c, modelCache s !! p = Some c -> allocated (heap s) c) /\
  Forall (allocated (heap s)) (handed s) /\
  (forall p c, modelCache s !! p = Some c -> Forall (apart c) (handed s)).

(** Every cached original still has the structure it was loaded with. *)
Definition originals_intact (es : list Event) (s : ModelState) : Prop :=
  forall p c, modelCache s !! p = Some c ->
    lastLoaded p es = Some (snapshot (heap s) c).

End TextureLoaders.

(** ** Scene orchestrator (SharedThreeScene.tsx, utils/Performance.ts,
       utils/AnimationLoop.ts)

    The source file holds two revisions of the component.  The later one
    (from line 296 on) is the one the specification describes: it checks
    the viewport on every frame and knows the device class.  It is the one
    modelled here.  The earlier revision has the same pause logic but no
    device class: it constructs the ice trail and the post-processing
    pipeline unconditionally. *)

Module Scene.

Local Open Scope R_scope.

Inductive SceneType := hero | footer.

(** The objects the effect constructs while it initialises, in order. *)
Inductive Alloc :=
  | NewTextureCache
  | NewSmokeEffect (mobileCount : bool)
  | NewIceTrailEffect
  | NewSceneLighting (type : SceneType)
  | NewGodrayPostProcessing
  | NewModelInteraction
  | NewAnimationLoop.

(** What a frame or a load callback does to its collaborators, in order. *)
Inductive Action :=
  | ApplyMetalTextures
  | InjectIceShader
  | CalculateBoundingSphere
  | MixerUpdate
  | UpdateModelInteraction
  | PerformRaycasting
  | IceTrailUpdate
  | SmokeUpdate
  | GodrayRender          (* godrayPostProcessing.render(renderer, scene, camera, t) *)
  | RendererRender.       (* renderer.render(scene, camera) *)

(** utils/AnimationLoop.ts *)
Record AnimationLoop := {
  frameCount : nat;
  loopElapsedTime : R;
  enableFrameSkipping : bool;
  frameSkipInterval : nat }.

Definition newAnimationLoop : AnimationLoop :=
  {| frameCount := 0; loopElapsedTime := 0;
     enableFrameSkipping := false; frameSkipInterval := 2 |}.

Record Timing := {
  timingDelta : R;
  timingElapsed : R;
  shouldSkipFrame : bool }.

(** [animationLoop.update()]; [delta] is what [clock.getDelta()] returns. *)
Definition loopUpdate (delta : R) (l : AnimationLoop) : AnimationLoop * Timing :=
  let elapsed := loopElapsedTime l + delta in
  let count := S (frameCount l) in
  ({| frameCount := count; loopElapsedTime := elapsed;
      enableFrameSkipping := enableFrameSkipping l;
      frameSkipInterval := frameSkipInterval l |},
   {| timingDelta := delta; timingElapsed := elapsed;
      shouldSkipFrame :=
        enableFrameSkipping l && (count mod frameSkipInterval l =? 0)%nat |}).

(** The variables the closures of the effect share. *)
Record state := {
  isMobile : bool;
  contextLost : bool;
  isPageVisible : bool;
  modelLoaded : bool;                         (* model !== null *)
  mixer : bool;                               (* mixer !== null *)
  iceTrailEffect : option IceTrail.state;     (* null on mobile *)
  godrayPostProcessing : bool;                (* false when null *)
  animationLoop : AnimationLoop }.

(** The initialisation block of the effect for a device class and a scene
    type: the state and the objects constructed. *)
Definition construct (mobile : bool) (type : SceneType) : state * list Alloc :=
  ({| isMobile := mobile;
      contextLost := false;
      isPageVisible := true;
      modelLoaded := false;
      mixer := false;
      iceTrailEffect := if negb mobile then Some IceTrail.init else None;
      godrayPostProcessing := negb mobile;
      animationLoop := newAnimationLoop |},
   [NewTextureCache; NewSmokeEffect mobile]
   ++ (if negb mobile then [NewIceTrailEffect] else [])
   ++ [NewSceneLighting type]
   ++ (if negb mobile then [NewGodrayPostProcessing] else [])
   ++ [NewModelInteraction; NewAnimationLoop]).

(** The same block in the earlier revision of the file (lines 110-121),
    which has no device class. *)
Definition construct_earlier (type : SceneType) : list Alloc :=
  [NewTextureCache; NewSmokeEffect false; NewIceTrailEffect;
   NewSceneLighting type; NewGodrayPostProcessing;
   NewModelInteraction; NewAnimationLoop].

(** What a frame reads from outside the effect. *)
Record Env := {
  inViewport : bool;                          (* checkViewport() *)
  clockDelta : R;                             (* clock.getDelta() *)
  scrolling : bool;                           (* getScrollState().isScrolling *)
  hits : list IceTrail.Intersection;          (* what a raycast would return *)
  random : IceTrail.Draws }.

Definition withLoop (l : AnimationLoop) (s : state) : state :=
  {| isMobile := isMobile s; contextLost := contextLost s;
     isPageVisible := isPageVisible s; modelLoaded := modelLoaded s;
     mixer := mixer s; iceTrailEffect := iceTrailEffect s;
     godrayPostProcessing := godrayPostProcessing s; animationLoop := l |}.

Definition withIce (ice : option IceTrail.state) (s : state) : state :=
  {| isMobile := isMobile s; contextLost := contextLost s;
     isPageVisible := isPageVisible s; modelLoaded := modelLoaded s;
     mixer := mixer s; iceTrailEffect := ice;
     godrayPostProcessing := godrayPostProcessing s;
     animationLoop := animationLoop s |}.

Definition withFlags (lost visible : bool) (s : state) : state :=
  {| isMobile := isMobile s; contextLost := lost;
     isPageVisible := visible; modelLoaded := modelLoaded s;
     mixer := mixer s; iceTrailEffect := iceTrailEffect s;
     godrayPostProcessing := godrayPostProcessing s;
     animationLoop := animationLoop s |}.

(** The per-frame callback [animate]. *)
Definition animate (env : Env) (s : state) : state * list Action :=
  if contextLost s || negb (isPageVisible s) then (s, []) else
  if negb (inViewport env) then (s, []) else
  let '(l, t) := loopUpdate (clockDelta env) (animationLoop s) in
  let s := withLoop l s in
  if shouldSkipFrame t then (s, []) else
  let a1 := if mixer s then [MixerUpdate] else [] in
  let isScrolling := scrolling env in
  let '(s, a2) :=
    if modelLoaded s && negb (isMobile s) then
      let a := if negb isScrolling then [UpdateModelInteraction] else [] in
      match iceTrailEffect s with
      | Some ice =>
          let '(intersects, r) :=
            if negb isScrolling then (hits env, [PerformRaycasting])
            else ([], []) in
          let f :=
            {| IceTrail.deltaTime := timingDelta t;
               IceTrail.elapsedTime := timingElapsed t;
               IceTrail.intersects := intersects;
               IceTrail.isScrolling := isScrolling;
               IceTrail.draws := random env |} in
          (withIce (Some (IceTrail.update f ice)) s, a ++ r ++ [IceTrailUpdate])
      | None => (s, a)
      end
    else (s, []) in
  let a3 := [SmokeUpdate] in
  let a4 := if godrayPostProcessing s then [GodrayRender] else [RendererRender] in
  (s, a1 ++ a2 ++ a3 ++ a4).

(** The success callback of [gltfLoader.load] for a model with [meshes]
    meshes. *)
Definition onModelLoaded (meshes : nat) (hasAnimations : bool) (s : state)
    : state * list Action :=
  let ice := negb (isMobile s) && bool_decide (is_Some (iceTrailEffect s)) in
  let perMesh := [ApplyMetalTextures] ++ (if ice then [InjectIceShader] else []) in
  ({| isMobile := isMobile s; contextLost := contextLost s;
      isPageVisible := isPageVisible s; modelLoaded := true;
      mixer := hasAnimations; iceTrailEffect := iceTrailEffect s;
      godrayPostProcessing := godrayPostProcessing s;
      animationLoop := animationLoop s |},
   concat (replicate meshes perMesh)
   ++ (if ice then [CalculateBoundingSphere] else [])).

(** What can happen to a scene once it is constructed. *)
Inductive Event :=
  | Tick (env : Env)                  (* the scheduler calls [animate] *)
  | ContextLost                       (* webglcontextlost *)
  | ContextRestored (env : Env)       (* webglcontextrestored *)
  | TabHidden                         (* visibilitychange, document.hidden *)
  | TabShown (env : Env)              (* visibilitychange, not hidden *)
  | ModelLoaded (meshes : nat) (hasAnimations : bool).

(** The handlers registered through [setupContextLossHandling] and
    [setupVisibilityHandling].  [animationFrameId] is never assigned, so
    the [cancelAnimationFrame] calls of the source do nothing. *)
Definition step (s : state) (e : Event) : state * list Action :=
  match e with
  | Tick env => animate env s
  | ContextLost => (withFlags true (isPageVisible s) s, [])
  | ContextRestored env =>
      let s := withFlags false (isPageVisible s) s in
      if isPageVisible s then animate env s else (s, [])
  | TabHidden => (withFlags (contextLost s) false s, [])
  | TabShown env =>
      let s := withFlags (contextLost s) true s in
      if negb (contextLost s) then animate env s else (s, [])
  | ModelLoaded meshes hasAnimations => onModelLoaded meshes hasAnimations s
  end.

(** A sequence of events: the final state and everything that was done. *)
Fixpoint run (es : list Event) (s : state) : state * list Action :=
  match es with
  | [] => (s, [])
  | e :: es' =>
      let '(s1, a) := step s e in
      let '(s2, b) := run es' s1 in
      (s2, a ++ b)
  end.

Definition is_render (a : Action) : bool :=
  match a with
  | GodrayRender | RendererRender => true
  | _ => false
  end.

(** Does a frame reach a render call? *)
Definition renders (acts : list Action) : bool := existsb is_render acts.

(** The scene is paused: a pause cause holds. *)
Definition paused (s : state) : bool := contextLost s || negb (isPageVisible s).

Definition is_ice_or_godray (a : Action) : bool :=
  match a with
  | InjectIceShader | CalculateBoundingSphere | IceTrailUpdate | GodrayRender => true
  | _ => false
  end.

Definition is_effect_alloc (a : Alloc) : bool :=
  match a with
  | NewIceTrailEffect | NewGodrayPostProcessing => true
  | _ => false
  end.

(** The state of a mobile scene: no ice trail and no post-processing. *)
Definition mobile_state (s : state) : Prop :=
  isMobile s = true /\ iceTrailEffect s = None /\ godrayPostProcessing s = false.

Definition single_pass (acts : list Action) : Prop :=
  existsb is_ice_or_godray acts = false.

End Scene.

(** ** Micro-effect multiplexer (ui/IceButtonManager.ts) *)

Module IceButton.

Local Open Scope Q_scope.

(** [interface IceButtonInstance], without the DOM and GPU handles
    ([canvas], [container], [material]), which the progress never reads. *)
Record IceButtonInstance := {
  targetProgress : Q;
  currentProgress : Q;
  isActive : bool }.

(** What a frame does to the 2D canvas of an instance. *)
Inductive Draw :=
  | Blit (uProgress : Q)      (* render with this progress and copy the pixels *)
  | ClearCanvas.

Record Manager := {
  renderer : bool;            (* renderer, scene, camera, geometry and clock
                                 are created together by [initialize] *)
  textures : bool;
  instances : gmap string IceButtonInstance;
  pendingRegistrations : list string;
  animationId : bool;         (* a frame is requested *)
  isAnimating : bool }.

Definition newManager : Manager :=
  {| renderer := false; textures := false; instances := ∅;
     pendingRegistrations := []; animationId := false; isAnimating := false |}.

Definition withInstances (insts : gmap string IceButtonInstance) (m : Manager)
    : Manager :=
  {| renderer := renderer m; textures := textures m; instances := insts;
     pendingRegistrations := pendingRegistrations m;
     animationId := animationId m; isAnimating := isAnimating m |}.

(** [completeRegistration]: a new instance starts at rest. *)
Definition newInstance : IceButtonInstance :=
  {| targetProgress := 0; currentProgress := 0; isActive := false |}.

Definition completeRegistration (id : string) (m : Manager) : Manager :=
  withInstances (<[id := newInstance]> (instances m)) m.

(** [initialize] and [loadTextures]: the shared bundle is available when
    [loadSharedIceTextures] returns (it calls its callback before it
    returns), so the pending registrations are completed at once. *)
Definition initialize (m : Manager) : Manager :=
  if renderer m then m else
  let m1 :=
    {| renderer := true; textures := true; instances := instances m;
       pendingRegistrations := pendingRegistrations m;
       animationId := animationId m; isAnimating := isAnimating m |} in
  let m2 := fold_left (fun m id => completeRegistration id m)
              (pendingRegistrations m1) m1 in
  {| renderer := renderer m2; textures := textures m2; instances := instances m2;
     pendingRegistrations := [];
     animationId := animationId m2; isAnimating := isAnimating m2 |}.

Definition register (id : string) (m : Manager) : Manager :=
  let m := initialize m in
  if textures m then completeRegistration id m
  else
    {| renderer := renderer m; textures := textures m; instances := instances m;
       pendingRegistrations := pendingRegistrations m ++ [id];
       animationId := animationId m; isAnimating := isAnimating m |}.

Definition stopAnimation (m : Manager) : Manager :=
  {| renderer := renderer m; textures := textures m; instances := instances m;
     pendingRegistrations := pendingRegistrations m;
     animationId := false; isAnimating := false |}.

Definition unregister (id : string) (m : Manager) : Manager :=
  let m := withInstances (delete id (instances m)) m in
  if bool_decide (instances m = ∅) then stopAnimation m else m.

(** The clamp of the frame time:
    [rawDelta = clock.getDelta() || 0.016; deltaTime = Math.min(rawDelta, 0.1)]. *)
Definition frameDelta (clockDelta : Q) : Q :=
  let rawDelta := if Qeq_bool clockDelta 0 then 0.016 else clockDelta in
  Qmin rawDelta 0.1.

Definition linearSpeed : Q := 0.12.

(** The body of [this.instances.forEach] in [animate]: the updated
    instance, its contribution to [hasActiveAnimations], and what happens
    to its canvas. *)
Definition advance (deltaTime : Q) (i : IceButtonInstance)
    : IceButtonInstance * bool * Draw :=
  let diff := targetProgress i - currentProgress i in
  let '(progress, active) :=
    if Qlt_le_dec 0.001 (Qabs diff) then
      if Qlt_le_dec 0 diff then
        let p := currentProgress i + deltaTime * linearSpeed in
        (if Qlt_le_dec 1.0 p then 1.0 else p, true)
      else
        let p := currentProgress i - deltaTime * linearSpeed in
        (if Qlt_le_dec p 0.0 then 0.0 else p, true)
    else if Qlt_le_dec 0.001 (currentProgress i) then (currentProgress i, true)
    else (currentProgress i, false) in
  if Qlt_le_dec 0.001 progress then
    ({| targetProgress := targetProgress i; currentProgress := progress;
        isActive := isActive i |}, active, Blit progress)
  else
    ({| targetProgress := targetProgress i; currentProgress := progress;
        isActive := false |}, active, ClearCanvas).

(** [animate], called with the reading of the clock: the new state and
    what happens to each canvas. *)
Definition animate (clockDelta : Q) (m : Manager)
    : Manager * gmap string Draw :=
  if negb (isAnimating m) || negb (renderer m) then (m, ∅) else
  let deltaTime := frameDelta clockDelta in
  let stepped := advance deltaTime <$> instances m in
  let hasActiveAnimations :=
    bool_decide (map_Exists (fun _ r => snd (fst r) = true) stepped) in
  ({| renderer := renderer m; textures := textures m;
      instances := (fun r => fst (fst r)) <$> stepped;
      pendingRegistrations := pendingRegistrations m;
      animationId := if hasActiveAnimations then true else animationId m;
      isAnimating := hasActiveAnimations |},
   snd <$> stepped).

(** [startAnimation]: starts the clock and runs a first frame at once;
    [clockDelta] is what the clock reads in that frame. *)
Definition startAnimation (clockDelta : Q) (m : Manager) : Manager :=
  if isAnimating m then m else
  fst (animate clockDelta
         {| renderer := renderer m; textures := textures m;
            instances := instances m;
            pendingRegistrations := pendingRegistrations m;
            animationId := animationId m; isAnimating := true |}).

(** Pointer enter. *)
Definition activate (id : string) (clockDelta : Q) (m : Manager) : Manager :=
  match instances m !! id with
  | Some i =>
      startAnimation clockDelta
        (withInstances
           (<[id := {| targetProgress := 1.0;
                       currentProgress := currentProgress i;
                       isActive := true |}]> (instances m)) m)
  | None => m
  end.

(** Pointer leave. *)
Definition deactivate (id : string) (m : Manager) : Manager :=
  match instances m !! id with
  | Some i =>
      withInstances
        (<[id := {| targetProgress := 0.0;
                    currentProgress := currentProgress i;
                    isActive := isActive i |}]> (instances m)) m
  | None => m
  end.

(** What can happen to the manager. *)
Inductive Event :=
  | Register (id : string)
  | Unregister (id : string)
  | Activate (id : string) (clockDelta : Q)
  | Deactivate (id : string)
  | Frame (clockDelta : Q).       (* the requested animation frame fires *)

Definition step (m : Manager) (e : Event) : Manager :=
  match e with
  | Register id => register id m
  | Unregister id => unregister id m
  | Activate id d => activate id d m
  | Deactivate id => deactivate id m
  | Frame d => fst (animate d m)
  end.

Definition run (es : list Event) (m : Manager) : Manager := fold_left step es m.

(** [THREE.Clock.getDelta] never returns a negative number. *)
Definition clock_ok (e : Event) : Prop :=
  match e with
  | Activate _ d | Frame d => 0 <= d
  | _ => True
  end.

(** The invariant of an instance. *)
Definition instance_ok (i : IceButtonInstance) : Prop :=
  (targetProgress i == 0 \/ targetProgress i == 1) /\
  0 <= currentProgress i <= 1.

(** Every registered instance satisfies the invariant. *)
Definition all_ok (m : Manager) : Prop :=
  forall id i, instances m !! id = Some i -> instance_ok i.

(** A hover that is interrupted: register, pointer enter, a frame after a
    long pause (5 s on the clock), a normal frame. *)
Definition hover : list Event :=
  [Register "cta"; Activate "cta" 0; Frame 5; Frame 0.016].

End IceButton.

(** ** Ice trail: the log of a run *)

Module IceTrailLog.
Import IceTrail.
Local Open Scope R_scope.

(** The values of [elapsedTime] of the calls of a run that write a new
    point, oldest first. *)
Fixpoint insertion_times (fs : list Frame) (st : state) : list R :=
  match fs with
  | [] => []
  | f :: fs' =>
      match new_point (elapsedTime f) (intersects f) (isScrolling f) st with
      | Some _ => elapsedTime f :: insertion_times fs' (update f st)
      | None => insertion_times fs' (update f st)
      end
  end.

(** A frame during a scroll in which a raycast result is passed all the
    same. *)
Definition scrollTouch (dt e u v : R) : Frame :=
  {| deltaTime := dt; elapsedTime := e;
     intersects := [{| uv := Some (u, v) |}];
     isScrolling := true; draws := IceTrailRuns.quietDraws 0 |}.

End IceTrailLog.

(** ** The GLSL built-ins the shaders use, on real numbers *)

Module GLSL.

Local Open Scope R_scope.

Definition vec2 : Type := R * R.
Definition vec3 : Type := R * R * R.
Definition vec4 : Type := R * R * R * R.

(** A bound texture: [texture2D(sampler, uv)]. *)
Definition sampler2D : Type := vec2 -> vec4.

(** Swizzles. *)
Definition r (c : vec4) : R := let '(x, _, _, _) := c in x.
Definition rgb (c : vec4) : vec3 := let '(x, y, z, _) := c in (x, y, z).

(** Componentwise arithmetic; [adds2 a k] is [a + k] for a scalar [k]. *)
Definition add2 (a b : vec2) : vec2 := (fst a + fst b, snd a + snd b).
Definition sub2 (a b : vec2) : vec2 := (fst a - fst b, snd a - snd b).
Definition scale2 (a : vec2) (k : R) : vec2 := (fst a * k, snd a * k).
Definition adds2 (a : vec2) (k : R) : vec2 := (fst a + k, snd a + k).
Definition div2 (a : vec2) (k : R) : vec2 := (fst a / k, snd a / k).
Definition dot2 (a b : vec2) : R := fst a * fst b + snd a * snd b.
Definition length2 (a : vec2) : R := sqrt (dot2 a a).

Definition add3 (a b : vec3) : vec3 :=
  let '(a1, a2, a3) := a in let '(b1, b2, b3) := b in (a1 + b1, a2 + b2, a3 + b3).
Definition sub3 (a b : vec3) : vec3 :=
  let '(a1, a2, a3) := a in let '(b1, b2, b3) := b in (a1 - b1, a2 - b2, a3 - b3).
Definition mul3 (a b : vec3) : vec3 :=
  let '(a1, a2, a3) := a in let '(b1, b2, b3) := b in (a1 * b1, a2 * b2, a3 * b3).
Definition scale3 (a : vec3) (k : R) : vec3 :=
  let '(a1, a2, a3) := a in (a1 * k, a2 * k, a3 * k).
Definition adds3 (a : vec3) (k : R) : vec3 :=
  let '(a1, a2, a3) := a in (a1 + k, a2 + k, a3 + k).
Definition dot3 (a b : vec3) : R :=
  let '(a1, a2, a3) := a in let '(b1, b2, b3) := b in a1 * b1 + a2 * b2 + a3 * b3.
Definition normalize3 (a : vec3) : vec3 := scale3 a (/ sqrt (dot3 a a)).

(** [fract(x) = x - floor(x)]. *)
Definition fract (x : R) : R := x - IZR (Int_part x).

Definition clamp (x lo hi : R) : R := Rmin (Rmax x lo) hi.

(** [smoothstep(edge0, edge1, x)], by the formula of the specification of
    the language, which the shaders also rely on with [edge0 > edge1]. *)
Definition smoothstep (edge0 edge1 x : R) : R :=
  let t := clamp ((x - edge0) / (edge1 - edge0)) 0 1 in
  t * t * (3 - 2 * t).

(** [step(edge, x)]. *)
Definition step (edge x : R) : R := if Rlt_dec x edge then 0 else 1.

(** [mix(x, y, a)]. *)
Definition mix (x y a : R) : R := x * (1 - a) + y * a.
Definition mix3 (x y : vec3) (a : R) : vec3 :=
  let '(x1, x2, x3) := x in let '(y1, y2, y3) := y in
  (mix x1 y1 a, mix x2 y2 a, mix x3 y3 a).

(** [pow(x, y)], on the domain on which the language defines it. *)
Definition pow (x y : R) : R := IceTrail.Math_pow x y.

(** [atan(y, x)], the angle of the point [(x, y)]; the language leaves the
    value at the origin undefined, here 0. *)
Definition atan (y x : R) : R :=
  if Rlt_dec 0 x then Ratan.atan (y / x)
  else if Rlt_dec x 0 then
    (if Rle_dec 0 y then Ratan.atan (y / x) + PI else Ratan.atan (y / x) - PI)
  else if Rlt_dec 0 y then PI / 2
  else if Rlt_dec y 0 then - (PI / 2)
  else 0.

End GLSL.

(** ** The fragment shader injected by [injectIceShader]
       (effects/IceTrailEffect.ts) *)

Module IceShader.

Local Open Scope R_scope.

(** The uniforms added to a material ([iceUniforms]); the data texture is
    given by the typed array behind it. *)
Record Uniforms := {
  uIceColor : GLSL.sampler2D;
  uIceNormal : GLSL.sampler2D;
  uIceDensity : GLSL.sampler2D;
  uNoiseTexture : GLSL.sampler2D;
  uRadialTexture : GLSL.sampler2D;
  uTrailTexture : list R;
  uTrailCount : nat;
  uTime : R;
  uMaxRadius : R }.

(** What the injected chunk reads of the fragment: the varyings, the
    camera position, the shaded normal and the colour computed so far
    ([gl_FragColor.rgb] after [<dithering_fragment>]). *)
Record Fragment := {
  vIceUv : GLSL.vec2;
  vWorldPos : GLSL.vec3;
  cameraPosition : GLSL.vec3;
  normal : GLSL.vec3;
  gl_FragColor : GLSL.vec3 }.

(** The five shared textures, as bound samplers. *)
Record IceSamplers := {
  color : GLSL.sampler2D;
  normalMap : GLSL.sampler2D;
  density : GLSL.sampler2D;
  noise : GLSL.sampler2D;
  radial : GLSL.sampler2D }.

(** ICE_CONFIG.maxRadius (constants.ts). *)
Definition maxRadius : R := 0.04.

(** The values of [iceUniforms] after the constructor and the [update]
    calls that led to [st]. *)
Definition iceUniforms (tx : IceSamplers) (st : IceTrail.state) : Uniforms :=
  {| uIceColor := color tx;
     uIceNormal := normalMap tx;
     uIceDensity := density tx;
     uNoiseTexture := noise tx;
     uRadialTexture := radial tx;
     uTrailTexture := IceTrail.trailData st;
     uTrailCount := IceTrail.uTrailCount st;
     uTime := IceTrail.uTime st;
     uMaxRadius := maxRadius |}.

(** The body of [if (intensity > 0.01) { ... }] up to the value that is
    combined into [iceCoverage]. *)
Definition finalContribution (u : Uniforms) (vIceUv : GLSL.vec2)
    (iceDensitySample : R) (trailPoint : GLSL.vec4) : R :=
  let '(px, py, age, intensity) := trailPoint in
  let pointUv : GLSL.vec2 := (px, py) in
  (* Unique random seed for this point *)
  let pointSeed := GLSL.fract (sin (GLSL.dot2 pointUv (12.9898, 78.233)) * 43758.5453) in
  let pointSeed2 := GLSL.fract (sin (GLSL.dot2 pointUv (93.989, 67.345)) * 24634.6345) in
  let pointSeed3 := GLSL.fract (sin (GLSL.dot2 pointUv (45.234, 89.123)) * 65432.1234) in
  (* Direction from point to current fragment *)
  let dir := GLSL.sub2 vIceUv pointUv in
  let dist := GLSL.length2 dir in
  let normDir : GLSL.vec2 := if Rlt_dec 0.001 dist then GLSL.div2 dir dist else (0.0, 0.0) in
  (* Organic spread *)
  let growthSpeed := 1.5 + pointSeed * 2.0 in
  let spreadProgress := 1.0 - exp (- age * growthSpeed) in
  let baseRadius := uMaxRadius u * spreadProgress * (0.7 + pointSeed2 * 0.6) in
  (* Randomized tendrils *)
  let angle := GLSL.atan (snd normDir) (fst normDir) in
  let angleOffset := pointSeed * 6.28318 in
  let adjustedAngle := angle + angleOffset in
  let tendrilCount := 3.0 + pointSeed2 * 4.0 in
  let tendrilAngle := adjustedAngle * tendrilCount in
  let noiseSeed := GLSL.scale2 pointUv 50.0 in
  let tendrilNoise1 :=
    GLSL.r (uNoiseTexture u
              (GLSL.adds2 (tendrilAngle * 0.3, fst noiseSeed) (age * 0.05))) in
  let tendrilNoise2 :=
    GLSL.r (uNoiseTexture u
              (GLSL.adds2 (tendrilAngle * 0.5 + 0.5, snd noiseSeed) (- (age * 0.03)))) in
  let tendrilNoise3 :=
    GLSL.r (uNoiseTexture u
              (GLSL.add2 (GLSL.scale2 noiseSeed 0.3) (angle * 0.2, age * 0.04))) in
  let tendrilBase := GLSL.pow tendrilNoise1 (0.5 + pointSeed * 0.5) in
  let tendrilDetail := tendrilNoise2 * tendrilNoise3 in
  let maxTendrilLength := 1.5 + pointSeed3 * 2.5 in
  let tendrilStrength := tendrilBase * 0.6 + tendrilDetail * 0.4 in
  let tendrilExtension := tendrilStrength * maxTendrilLength * spreadProgress in
  (* Random "burst" tendrils *)
  let burstAngle := pointSeed * 6.28318 in
  let burstMatch :=
    1.0 - GLSL.smoothstep 0.0 (0.5 + pointSeed2 * 0.5) (Rabs (sin (angle - burstAngle))) in
  let burstTendril := burstMatch * pointSeed3 * 2.0 * spreadProgress in
  let tendrilExtension := tendrilExtension + burstTendril in
  (* Random holes/gaps in the spread *)
  let gapNoise :=
    GLSL.r (uNoiseTexture u (angle * 2.0 + pointSeed * 10.0, pointSeed2 * 5.0)) in
  let hasGap := GLSL.step 0.85 gapNoise * (1.0 - pointSeed * 0.5) in
  let tendrilExtension := tendrilExtension * (1.0 - hasGap * 0.7) in
  (* Final radius with tendrils *)
  let radius := baseRadius * (1.0 + tendrilExtension) in
  (* Irregular pulsing *)
  let pulseSpeed := 2.0 + pointSeed * 3.0 in
  let radius :=
    radius * (1.0 + sin (age * pulseSpeed + angle * (1.0 + pointSeed2 * 2.0)) * 0.08) in
  let normalizedDist := dist / (radius + 0.001) in
  (* Organic edge *)
  let noiseUv :=
    GLSL.add2 (GLSL.scale2 vIceUv (4.0 + pointSeed * 3.0)) (GLSL.scale2 pointUv 5.0) in
  let crawlSpeed := 0.08 + pointSeed2 * 0.08 in
  let crawlNoise1 := GLSL.r (uNoiseTexture u (GLSL.adds2 noiseUv (age * crawlSpeed))) in
  let crawlNoise2 :=
    GLSL.r (uNoiseTexture u
              (GLSL.adds2 (GLSL.scale2 noiseUv 1.7) (- (age * crawlSpeed * 0.7)))) in
  let edgeNoise := (crawlNoise1 + crawlNoise2 - 1.0) * (0.5 + pointSeed3 * 0.4) in
  (* Organic spread shape *)
  let radialUv : GLSL.vec2 := (normalizedDist * 0.35, 0.5 + edgeNoise * 0.5) in
  let radialValue := GLSL.r (uRadialTexture u radialUv) in
  let spreadEdge := radialValue * (1.0 - normalizedDist * 0.4 + edgeNoise * 0.5) in
  (* Organic cutoff *)
  let cutoffBase := 0.9 + tendrilExtension * 0.25 + pointSeed * 0.2 in
  let organicCutoff :=
    GLSL.smoothstep (cutoffBase + edgeNoise * 0.5) (cutoffBase - 0.35) normalizedDist in
  let contribution := spreadEdge * organicCutoff in
  (* Crystalline variation *)
  let contribution := contribution * (0.5 + iceDensitySample * 0.7) in
  (* Intensity fades *)
  let finalContribution := contribution * intensity in
  (* Point-unique opacity variation *)
  finalContribution * (0.8 + pointSeed2 * 0.4).

(** One iteration of the trail loop on the sampled [trailPoint]. *)
Definition accumulate (u : Uniforms) (vIceUv : GLSL.vec2) (iceDensitySample : R)
    (iceCoverage : R) (trailPoint : GLSL.vec4) : R :=
  let '(_, _, _, intensity) := trailPoint in
  if Rlt_dec 0.01 intensity
  then Rmax iceCoverage (finalContribution u vIceUv iceDensitySample trailPoint)
  else iceCoverage.

(** [iceCoverage] after the loop over the trail points [points], sampled
    in that order. *)
Definition coverage (u : Uniforms) (vIceUv : GLSL.vec2) (iceDensitySample : R)
    (points : list GLSL.vec4) : R :=
  fold_left (accumulate u vIceUv iceDensitySample) points 0.0.

(** The injected chunk: the new value of [gl_FragColor.rgb]. *)
Definition main (u : Uniforms) (f : Fragment) : GLSL.vec3 :=
  (* Sample ice textures using UV for consistent mapping *)
  let iceTexUv := GLSL.scale2 (vIceUv f) 2.0 in
  let iceColorSample := uIceColor u iceTexUv in
  let iceNormalSample :=
    GLSL.adds3 (GLSL.scale3 (GLSL.rgb (uIceNormal u iceTexUv)) 2.0) (- 1.0) in
  let iceDensitySample := GLSL.r (uIceDensity u (GLSL.scale2 iceTexUv 0.5)) in
  (* Ice color with blue-white tint *)
  let iceTint : GLSL.vec3 := (0.7, 0.85, 1.0) in
  let iceBaseColor := GLSL.mul3 (GLSL.rgb iceColorSample) iceTint in
  (* Simple lighting for ice *)
  let lightDir := GLSL.normalize3 (1.0, 0.5, 0.3) in
  let iceDiff := Rmax (GLSL.dot3 iceNormalSample lightDir) 0.0 * 0.5 + 0.5 in
  (* Fresnel for icy shine *)
  let viewDir := GLSL.normalize3 (GLSL.sub3 (cameraPosition f) (vWorldPos f)) in
  let fresnel := GLSL.pow (1.0 - Rmax (GLSL.dot3 viewDir (normal f)) 0.0) 3.0 in
  let finalIce := GLSL.scale3 (GLSL.scale3 iceBaseColor iceDiff) 1.2 in
  let finalIce :=
    GLSL.add3 finalIce (GLSL.scale3 (GLSL.scale3 (0.5, 0.7, 1.0) fresnel) 0.5) in
  (* Calculate accumulated ice coverage from trail points *)
  let iceCoverage :=
    coverage u (vIceUv f) iceDensitySample
      (IceTrail.trail_loop (uTrailTexture u) (uTrailCount u) 0 IceTrail.MAX_TRAIL_POINTS) in
  (* Organic threshold with noise variation *)
  let thresholdNoiseUv := GLSL.scale2 (vIceUv f) 6.0 in
  let thresholdNoise :=
    GLSL.r (uNoiseTexture u (GLSL.adds2 thresholdNoiseUv (uTime u * 0.01))) in
  let dynamicThreshold := 0.15 + thresholdNoise * 0.1 in
  let iceCoverage := GLSL.smoothstep dynamicThreshold (dynamicThreshold + 0.3) iceCoverage in
  (* Edge glow effect *)
  let edgeGlow :=
    GLSL.smoothstep 0.15 0.35 iceCoverage * GLSL.smoothstep 0.65 0.45 iceCoverage in
  (* Animated edge crawl effect *)
  let crawlUv := GLSL.scale2 (vIceUv f) 12.0 in
  let crawlNoise := GLSL.r (uNoiseTexture u (GLSL.adds2 crawlUv (uTime u * 0.03))) in
  let crawlNoise2 :=
    GLSL.r (uNoiseTexture u (GLSL.adds2 (GLSL.scale2 crawlUv 0.7) (- (uTime u * 0.02)))) in
  let edgeGlow := edgeGlow * (0.5 + crawlNoise * 0.3 + crawlNoise2 * 0.3) in
  let finalIce :=
    GLSL.add3 finalIce (GLSL.scale3 (GLSL.scale3 (0.4, 0.65, 1.0) edgeGlow) 0.7) in
  (* Crystalline frost sparkle *)
  let sparkleUv := GLSL.adds2 (GLSL.scale2 (vIceUv f) 20.0) (uTime u * 0.1) in
  let sparkleNoise := GLSL.r (uNoiseTexture u sparkleUv) in
  let sparkleNoise2 :=
    GLSL.r (uNoiseTexture u (GLSL.adds2 (GLSL.scale2 sparkleUv 1.3) 0.5)) in
  let sparkle := GLSL.pow (sparkleNoise * sparkleNoise2) 5.0 * edgeGlow * 4.0 in
  (* Random flicker *)
  let flicker :=
    GLSL.step 0.97
      (GLSL.fract (sin (GLSL.dot2 (vIceUv f) (12.9898, 78.233) + uTime u * 10.0)
                   * 43758.5453)) in
  let sparkle := sparkle + flicker * edgeGlow * 0.5 in
  let finalIce := GLSL.add3 finalIce (GLSL.scale3 (0.95, 0.98, 1.0) sparkle) in
  (* Blend: iceCoverage=1 means full ice, iceCoverage=0 means full metal *)
  GLSL.mix3 (gl_FragColor f) finalIce (iceCoverage * 0.95).

(** A texture whose red channel, like that of every 8-bit texture, is
    never negative. *)
Definition red_nonneg (s : GLSL.sampler2D) : Prop :=
  forall uv, 0 <= GLSL.r (s uv).

(** The fourth float of a trail point. *)
Definition intensity (p : GLSL.vec4) : R := let '(_, _, _, w) := p in w.

(** A constant texture, for the examples. *)
Definition flat (c : R) : GLSL.sampler2D := fun _ => (c, c, c, 1).

Definition greySamplers : IceSamplers :=
  {| color := flat (1 / 2); normalMap := flat (1 / 2); density := flat (1 / 2);
     noise := flat (1 / 2); radial := flat (1 / 2) |}.

Definition someFragment : Fragment :=
  {| vIceUv := (1 / 2, 1 / 2);
     vWorldPos := (0, 0, 0);
     cameraPosition := (18, 0, 0);
     normal := (1, 0, 0);
     gl_FragColor := (1 / 4, 1 / 4, 1 / 4) |}.

End IceShader.

(** ** Texture loaders: the texture cache, clearing the caches, and the
       [TextureCache] class (utils/TextureLoaders.ts) *)

Module LoaderCaches.
Import TextureLoaders.

(** *** [loadTexture] *)

(** What the network does with a request. *)
Inductive Outcome := Delivered | Failed.

(** [const textureCache = new Map<string, THREE.Texture>()], a texture
    being known by the identity of its object, and an observation log: the
    paths passed to [loader.load], in order. *)
Record TextureState := {
  textureCache : gmap string nat;
  nextTexture : nat;
  requested : list string }.

Definition textureInit : TextureState :=
  {| textureCache := ∅; nextTexture := 0; requested := [] |}.

(** [await loadTexture(path)]: the call together with the settlement of
    the load it may have started.  [None] is a rejected promise.  On a cache
    hit no loader is created and [o] is not consulted. *)
Definition awaitTexture (path : string) (o : Outcome) (s : TextureState)
    : TextureState * option nat :=
  match textureCache s !! path with
  | Some texture => (s, Some texture)
  | None =>
      match o with
      | Delivered =>
          ({| textureCache := <[path := nextTexture s]> (textureCache s);
              nextTexture := S (nextTexture s);
              requested := requested s ++ [path] |},
           Some (nextTexture s))
      | Failed =>
          ({| textureCache := textureCache s;
              nextTexture := nextTexture s;
              requested := requested s ++ [path] |},
           None)
      end
  end.

(** Successive awaited calls: the final state and, per call, the value the
    promise settled with. *)
Fixpoint awaitTextures (calls : list (string * Outcome)) (s : TextureState)
    : TextureState * list (option nat) :=
  match calls with
  | [] => (s, [])
  | (path, o) :: calls' =>
      let '(s1, r) := awaitTexture path o s in
      let '(s2, rs) := awaitTextures calls' s1 in
      (s2, r :: rs)
  end.

(** *** [clearTextureCache] *)

(** The geometries and the materials of the meshes of a subtree, a mesh
    being a node that has a geometry. *)
Fixpoint geometriesOf (o : Object3D) : list nat :=
  match o with
  | Obj _ g _ cs =>
      match g with Some x => [x] | None => [] end ++ flat_map geometriesOf cs
  end.

Fixpoint materialsOf (o : Object3D) : list nat :=
  match o with
  | Obj _ g m cs =>
      match g, m with Some _, Some y => [y] | _, _ => [] end
      ++ flat_map materialsOf cs
  end.

(** The GPU resources on which [dispose()] has been called. *)
Record Disposed := {
  disposedTextures : gset nat;
  disposedGeometries : gset nat;
  disposedMaterials : gset nat }.

Definition nothingDisposed : Disposed :=
  {| disposedTextures := ∅; disposedGeometries := ∅; disposedMaterials := ∅ |}.

Definition clearTextureCache (ts : TextureState) (ms : ModelState) (d : Disposed)
    : TextureState * ModelState * Disposed :=
  let models := snd <$> map_to_list (modelCache ms) in
  ({| textureCache := ∅;
      nextTexture := nextTexture ts;
      requested := requested ts |},
   {| modelCache := ∅; heap := heap ms; handed := handed ms |},
   {| disposedTextures :=
        disposedTextures d ∪ list_to_set (snd <$> map_to_list (textureCache ts));
      disposedGeometries :=
        disposedGeometries d ∪ list_to_set (flat_map geometriesOf models);
      disposedMaterials :=
        disposedMaterials d ∪ list_to_set (flat_map materialsOf models) |}).

(** The same resources, read off the structure of a subtree. *)
Fixpoint bpGeometries (b : Blueprint) : list nat :=
  match b with
  | Bp _ g _ cs =>
      match g with Some x => [x] | None => [] end ++ flat_map bpGeometries cs
  end.

Fixpoint bpMaterials (b : Blueprint) : list nat :=
  match b with
  | Bp _ g m cs =>
      match g, m with Some _, Some y => [y] | _, _ => [] end
      ++ flat_map bpMaterials cs
  end.

(** A glTF file with one mesh (geometry 7, material 9) under its root. *)
Definition oneMesh : Blueprint :=
  Bp identity None None [Bp identity (Some 7%nat) (Some 9%nat) []].

(** *** The [TextureCache] class *)

(** A texture and its [repeat] vector. *)
Record Tiled := { texture : Texture; repeat : nat * nat }.

Record MetalTextures := {
  metalColor : Tiled;
  metalNormal : Tiled;
  metalness : Tiled;
  roughness : Tiled }.

(** [private loadedTextures = new Map<string, THREE.Texture>()]; the
    loader of the instance allocates from the same store of objects as
    every other loader. *)
Record TextureCache := { loadedTextures : gmap string Texture }.

Definition newTextureCache : TextureCache := {| loadedTextures := ∅ |}.

(** The store of objects and of module-level variables, with the
    [dispose()] calls made on textures, in order. *)
Record World := {
  globals : IceState;
  textureDisposals : list nat }.

Definition withGlobals (g : IceState) (w : World) : World :=
  {| globals := g; textureDisposals := textureDisposals w |}.

Definition metalTexturePath : string := "/assets/TEXTREUS_DTD/metal2/Metal055A_1K-JPG_".

(** The body of the [forEach] of [loadMetalTextures]. *)
Definition tile (tiling : nat) (tex : Texture) : Tiled :=
  {| texture := configure tex; repeat := (tiling, tiling) |}.

Definition loadMetalTextures (this : TextureCache) (w : World)
    : TextureCache * World * MetalTextures :=
  let s := globals w in
  let '(colorMap, s) := load (metalTexturePath +:+ "Color.jpg") s in
  let '(normalMap, s) := load (metalTexturePath +:+ "NormalDX.jpg") s in
  let '(metalnessMap, s) := load (metalTexturePath +:+ "Metalness.jpg") s in
  let '(roughnessMap, s) := load (metalTexturePath +:+ "Roughness.jpg") s in
  let colorMap := withColorSpace SRGBColorSpace colorMap in
  let normalMap := withColorSpace LinearSRGBColorSpace normalMap in
  let metalnessMap := withColorSpace LinearSRGBColorSpace metalnessMap in
  let roughnessMap := withColorSpace LinearSRGBColorSpace roughnessMap in
  let tiling := 5%nat in
  (this, withGlobals s w,
   {| metalColor := tile tiling colorMap;
      metalNormal := tile tiling normalMap;
      metalness := tile tiling metalnessMap;
      roughness := tile tiling roughnessMap |}).

(** [loadIceTextures(): IceTextures], whose body ends in
    [return loadSharedIceTextures()!]; the option is what that call
    returns. *)
Definition loadIceTextures (this : TextureCache) (w : World)
    : TextureCache * World * option IceTextures :=
  match getSharedIceTextures (globals w) with
  | Some existing => (this, w, Some existing)
  | None =>
      let '(s, r) := loadSharedIceTextures None (globals w) in
      (this, withGlobals s w, r)
  end.

Definition loadSmokeTexture (this : TextureCache) (w : World)
    : TextureCache * World * Texture :=
  let '(smokeTexture, s) := load "/assets/textures_dracarys/smoke.png" (globals w) in
  (this, withGlobals s w,
   {| texId := texId smokeTexture; url := url smokeTexture; flipY := flipY smokeTexture;
      wrapS := RepeatWrapping; wrapT := RepeatWrapping;
      colorSpace := colorSpace smokeTexture |}).

Definition dispose (this : TextureCache) (w : World) : TextureCache * World :=
  ({| loadedTextures := ∅ |},
   {| globals := globals w;
      textureDisposals :=
        textureDisposals w ++ (texId ∘ snd <$> map_to_list (loadedTextures this)) |}).

(** The methods a holder of the cache can call, and anybody's calls of
    [loadSharedIceTextures] in between. *)
Inductive Call :=
  | LoadMetalTextures
  | LoadIceTextures
  | LoadSmokeTexture
  | Dispose
  | LoadShared (onLoaded : option Callback).

(** What a call returns: the textures it hands out. *)
Inductive Returned :=
  | Metal (t : MetalTextures)
  | Ice (t : option IceTextures)
  | Smoke (t : Texture)
  | Nothing.

Definition call (c : Call) (this : TextureCache) (w : World)
    : TextureCache * World * Returned :=
  match c with
  | LoadMetalTextures =>
      let '(this, w, t) := loadMetalTextures this w in (this, w, Metal t)
  | LoadIceTextures =>
      let '(this, w, t) := loadIceTextures this w in (this, w, Ice t)
  | LoadSmokeTexture =>
      let '(this, w, t) := loadSmokeTexture this w in (this, w, Smoke t)
  | Dispose =>
      let '(this, w) := dispose this w in (this, w, Nothing)
  | LoadShared onLoaded =>
      let '(s, t) := loadSharedIceTextures onLoaded (globals w) in
      (this, withGlobals s w, Ice t)
  end.

Fixpoint calls (cs : list Call) (this : TextureCache) (w : World)
    : TextureCache * World * list Returned :=
  match cs with
  | [] => (this, w, [])
  | c :: cs' =>
      let '(this1, w1, r) := call c this w in
      let '(this2, w2, rs) := calls cs' this1 w1 in
      (this2, w2, r :: rs)
  end.

Definition newWorld : World := {| globals := iceInit; textureDisposals := [] |}.

(** The identities of the textures a call hands out, the shared ice
    bundle apart. *)
Definition ownTextures (r : Returned) : list nat :=
  match r with
  | Metal t =>
      [texId (texture (metalColor t)); texId (texture (metalNormal t));
       texId (texture (metalness t)); texId (texture (roughness t))]
  | Smoke t => [texId t]
  | Ice _ | Nothing => []
  end.

(** The part of the request log that concerns the shared ice textures. *)
Definition iceRequests (s : IceState) : list string :=
  filter (fun u => u ∈ iceUrls) (loadCalls s).

(** The two kinds of state the module-level variables can be in between
    calls. *)
Definition unloaded (s : IceState) : Prop :=
  sharedIceTextures s = None /\ sharedIceTexturesLoading s = false /\
  iceRequests s = [].

Definition loaded (t : IceTextures) (s : IceState) : Prop :=
  sharedIceTextures s = Some t /\ iceRequests s = iceUrls.

End LoaderCaches.

(** ** Scene orchestrator: what a frame receives *)

Module SceneRuns.
Import Scene.
Local Open Scope R_scope.

(** What the environment of a frame can be: the clock does not run
    backwards and [Math.random()] returns a number in [0, 1). *)
Definition env_ok (env : Env) : Prop :=
  0 <= clockDelta env /\
  0 <= IceTrail.fadeDraw (random env) < 1 /\
  0 <= IceTrail.ageDraw (random env) < 1.

Definition event_ok (e : Event) : Prop :=
  match e with
  | Tick env | ContextRestored env | TabShown env => env_ok env
  | _ => True
  end.

(** The number of render calls among the actions of a frame. *)
Definition render_count (acts : list Action) : nat :=
  length (List.filter is_render acts).

Definition is_pointer_work (a : Action) : bool :=
  match a with
  | UpdateModelInteraction | PerformRaycasting => true
  | _ => false
  end.

(** A frame on screen, 16 ms after the one before, the pointer on the
    model at UV (1/2, 1/2). *)
Definition pointerFrame : Env :=
  {| inViewport := true;
     clockDelta := 0.016;
     scrolling := false;
     hits := [{| IceTrail.uv := Some (1 / 2, 1 / 2) |}];
     random := IceTrailRuns.quietDraws 0 |}.

(** The same frame during a scroll. *)
Definition scrollFrame : Env :=
  {| inViewport := true;
     clockDelta := 0.016;
     scrolling := true;
     hits := [{| IceTrail.uv := Some (1 / 2, 1 / 2) |}];
     random := IceTrailRuns.quietDraws 0 |}.

(** *** utils/AnimationLoop.ts *)

(** Successive calls of [update()], the clock returning the deltas [ds]:
    the loop afterwards and what each call returned. *)
Fixpoint loopUpdates (ds : list R) (l : AnimationLoop) : AnimationLoop * list Timing :=
  match ds with
  | [] => (l, [])
  | d :: ds' =>
      let '(l1, t) := loopUpdate d l in
      let '(l2, ts) := loopUpdates ds' l1 in
      (l2, t :: ts)
  end.

Fixpoint sum (ds : list R) : R :=
  match ds with
  | [] => 0
  | d :: ds' => d + sum ds'
  end.

(** What holds of every state a constructed scene can reach. *)
Definition scene_inv (mobile : bool) (s : state) : Prop :=
  isMobile s = mobile /\
  godrayPostProcessing s = negb mobile /\
  enableFrameSkipping (animationLoop s) = false /\
  (mobile = false -> is_Some (iceTrailEffect s)).

(** The ice trail of the scene is the trail after at most [n] valid
    [update] calls on a new effect. *)
Definition trail_inv (n : nat) (s : state) : Prop :=
  exists fs, Forall IceTrail.valid_frame fs /\
             iceTrailEffect s = Some (IceTrail.run fs IceTrail.init) /\
             (length fs <= n)%nat.

End SceneRuns.

(** ** Performance utilities (utils/Performance.ts) *)

Module Performance.

Local Open Scope Q_scope.

(** *** [throttle] *)

(** One call of the function returned by [throttle(fn, delay)], the
    closure variable [lastCall] being threaded: the new [lastCall] and
    whether [fn] is called.  [now] is [Date.now()]. *)
Definition throttled (delay lastCall now : Q) : Q * bool :=
  if Qle_bool delay (now - lastCall) then (now, true) else (lastCall, false).

(** A sequence of calls, each with its time and its arguments: the calls
    that are passed on to [fn], in order. *)
Fixpoint throttle_from {A : Type} (delay lastCall : Q) (calls : list (Q * A))
    : list (Q * A) :=
  match calls with
  | [] => []
  | (now, args) :: calls' =>
      let '(lastCall', forwarded) := throttled delay lastCall now in
      if forwarded then (now, args) :: throttle_from delay lastCall' calls'
      else throttle_from delay lastCall' calls'
  end.

(** [let lastCall = 0]. *)
Definition throttle {A : Type} (delay : Q) (calls : list (Q * A)) : list (Q * A) :=
  throttle_from delay 0 calls.

(** *** [setupResizeHandler] *)

(** [setTimeout] and [clearTimeout] by their contract: an armed timer has
    a deadline and runs its callback once, when the event loop runs the
    timers at a time that is not before the deadline; a cleared timer never
    runs. *)
Record ResizeHandler := {
  resizeTimeout : option Q;     (* the deadline of the armed timer *)
  listening : bool }.           (* the resize listener is installed *)

Definition installed : ResizeHandler :=
  {| resizeTimeout := None; listening := true |}.

Inductive ResizeEvent :=
  | Resize (now : Q)            (* the window fires [resize] *)
  | Timers (now : Q)            (* the event loop runs the due timers *)
  | Cleanup.                    (* the function returned by the setup *)

(** The new state and the times at which [callback] ran. *)
Definition resizeStep (delay : Q) (h : ResizeHandler) (e : ResizeEvent)
    : ResizeHandler * list Q :=
  match e with
  | Resize now =>
      if listening h
      then ({| resizeTimeout := Some (now + delay); listening := true |}, [])
      else (h, [])
  | Timers now =>
      match resizeTimeout h with
      | Some deadline =>
          if Qle_bool deadline now
          then ({| resizeTimeout := None; listening := listening h |}, [now])
          else (h, [])
      | None => (h, [])
      end
  | Cleanup => ({| resizeTimeout := None; listening := false |}, [])
  end.

Fixpoint resizeRun (delay : Q) (es : list ResizeEvent) (h : ResizeHandler)
    : ResizeHandler * list Q :=
  match es with
  | [] => (h, [])
  | e :: es' =>
      let '(h1, a) := resizeStep delay h e in
      let '(h2, b) := resizeRun delay es' h1 in
      (h2, a ++ b)
  end.

Definition is_resize (e : ResizeEvent) : bool :=
  match e with Resize _ => true | _ => false end.

(** The time of the last [resize] event of a history, if any. *)
Definition lastResize (es : list ResizeEvent) : option Q :=
  fold_left (fun acc e => match e with Resize now => Some now | _ => acc end) es None.

End Performance.

(** ** The frame scheduler (hooks/useLenis.ts) *)

Module Lenis.

Local Open Scope Q_scope.

(** The module-level variables and the closure variable of the effect.  A
    callback is known by the identity of its closure. *)
Record state := {
  threeJsCallbacks : list nat;
  isScrolling : bool;
  scrollTimeout : option Q;       (* the deadline of the armed timer *)
  lastThreeJsFrame : Q }.

Definition init : state :=
  {| threeJsCallbacks := []; isScrolling := false;
     scrollTimeout := None; lastThreeJsFrame := 0 |}.

Definition addThreeJsCallback (callback : nat) (s : state) : state :=
  {| threeJsCallbacks := threeJsCallbacks s ++ [callback];
     isScrolling := isScrolling s;
     scrollTimeout := scrollTimeout s;
     lastThreeJsFrame := lastThreeJsFrame s |}.

Definition removeThreeJsCallback (callback : nat) (s : state) : state :=
  {| threeJsCallbacks := filter (fun cb => cb <> callback) (threeJsCallbacks s);
     isScrolling := isScrolling s;
     scrollTimeout := scrollTimeout s;
     lastThreeJsFrame := lastThreeJsFrame s |}.

Definition getScrollState (s : state) : bool := isScrolling s.

(** The body of [threeJsRaf(time)] before it reschedules itself: the new
    state and, if the callbacks are dispatched, the callbacks invoked, in
    order. *)
Definition threeJsRaf (time : Q) (s : state) : state * option (list nat) :=
  let targetInterval := if isScrolling s then 33.33 else 16.67 in
  if Qle_bool targetInterval (time - lastThreeJsFrame s)
  then ({| threeJsCallbacks := threeJsCallbacks s;
           isScrolling := isScrolling s;
           scrollTimeout := scrollTimeout s;
           lastThreeJsFrame := time |},
        Some (threeJsCallbacks s))
  else (s, None).

(** The handler of the [scroll] event of the Lenis instance. *)
Definition onScroll (now : Q) (s : state) : state :=
  {| threeJsCallbacks := threeJsCallbacks s;
     isScrolling := true;
     scrollTimeout := Some (now + 150);
     lastThreeJsFrame := lastThreeJsFrame s |}.

(** The event loop runs the due timers. *)
Definition runTimers (now : Q) (s : state) : state :=
  match scrollTimeout s with
  | Some deadline =>
      if Qle_bool deadline now
      then {| threeJsCallbacks := threeJsCallbacks s;
              isScrolling := false;
              scrollTimeout := None;
              lastThreeJsFrame := lastThreeJsFrame s |}
      else s
  | None => s
  end.

Inductive Event :=
  | Add (callback : nat)
  | Remove (callback : nat)
  | Scroll (now : Q)
  | Timers (now : Q)
  | Raf (time : Q).

(** A dispatch: its time, the scroll state at that time and the callbacks
    invoked. *)
Definition Dispatch : Type := Q * bool * list nat.

Definition step (s : state) (e : Event) : state * list Dispatch :=
  match e with
  | Add cb => (addThreeJsCallback cb s, [])
  | Remove cb => (removeThreeJsCallback cb s, [])
  | Scroll now => (onScroll now s, [])
  | Timers now => (runTimers now s, [])
  | Raf time =>
      let '(s', dispatched) := threeJsRaf time s in
      (s', match dispatched with
           | Some cbs => [(time, isScrolling s, cbs)]
           | None => []
           end)
  end.

Fixpoint run (es : list Event) (s : state) : state * list Dispatch :=
  match es with
  | [] => (s, [])
  | e :: es' =>
      let '(s1, a) := step s e in
      let '(s2, b) := run es' s1 in
      (s2, a ++ b)
  end.

Definition adds (callback : nat) (e : Event) : bool :=
  match e with Add cb => bool_decide (cb = callback) | _ => false end.

End Lenis.

(** ** The pointer and the model (SharedThreeScene.tsx, [handleMouseMove];
       utils/ModelInteraction.ts) *)

Module Pointer.

Local Open Scope R_scope.

(** [container.getBoundingClientRect()]. *)
Record DOMRect := { left : R; top : R; width : R; height : R }.

Definition right (rect : DOMRect) : R := left rect + width rect.
Definition bottom (rect : DOMRect) : R := top rect + height rect.

(** [const mouse = {x: 0, y: 0}; let isMouseInContainer = false]. *)
Record Mouse := { x : R; y : R; isMouseInContainer : bool }.

Definition mouse0 : Mouse := {| x := 0; y := 0; isMouseInContainer := false |}.

(** The function wrapped by [throttle] in [handleMouseMove]; [rect] is
    what the container measures when the event arrives. *)
Definition handleMouseMove (rect : DOMRect) (clientX clientY : R) (mouse : Mouse)
    : Mouse :=
  if Rle_dec (left rect) clientX then
    if Rle_dec clientX (right rect) then
      if Rle_dec (top rect) clientY then
        if Rle_dec clientY (bottom rect) then
          {| x := ((clientX - left rect) / width rect) * 2 - 1;
             y := - ((clientY - top rect) / height rect) * 2 + 1;
             isMouseInContainer := true |}
        else {| x := x mouse * 0.95; y := y mouse * 0.95; isMouseInContainer := false |}
      else {| x := x mouse * 0.95; y := y mouse * 0.95; isMouseInContainer := false |}
    else {| x := x mouse * 0.95; y := y mouse * 0.95; isMouseInContainer := false |}
  else {| x := x mouse * 0.95; y := y mouse * 0.95; isMouseInContainer := false |}.

(** ANIMATION_CONFIG (constants.ts), the defaults of [ModelInteraction]. *)
Record Options := {
  floatSpeed : R;
  floatAmplitude : R;
  mouseFollowSpeed : R;
  mouseFollowRange : R;
  mouseRotationScaleX : R;
  mouseRotationScaleZ : R }.

Definition ANIMATION_CONFIG : Options :=
  {| floatSpeed := 0.3;
     floatAmplitude := 0.05;
     mouseFollowSpeed := 0.015;
     mouseFollowRange := 0.4;
     mouseRotationScaleX := - 0.03;
     mouseRotationScaleZ := 0.02 |}.

(** The transform of the model: position, rotation (Euler angles) and
    scale. *)
Record Vector3 := { vx : R; vy : R; vz : R }.
Record Model := { position : Vector3; rotation : Vector3; scale : Vector3 }.

(** [updateModelInteraction(model, mouse, elapsedTime, deltaTime)]. *)
Definition updateModelInteraction (options : Options) (model : Model) (mouse : Mouse)
    (elapsedTime deltaTime : R) : Model :=
  (* Floating animation *)
  let floatY := sin (elapsedTime * floatSpeed options) * floatAmplitude options in
  (* Magnet-like position follow *)
  let targetPosY := y mouse * mouseFollowRange options in
  let targetPosZ := x mouse * mouseFollowRange options in
  let posY := vy (position model)
              + (targetPosY + floatY - vy (position model)) * mouseFollowSpeed options in
  let posZ := vz (position model)
              + (targetPosZ - vz (position model)) * mouseFollowSpeed options in
  (* Subtle tilt *)
  let targetRotationX := - y mouse * mouseRotationScaleX options in
  let targetRotationZ := x mouse * mouseRotationScaleZ options in
  let rotX := vx (rotation model)
              + (targetRotationX - vx (rotation model)) * mouseFollowSpeed options in
  let rotZ := vz (rotation model)
              + (targetRotationZ - vz (rotation model)) * mouseFollowSpeed options in
  {| position := {| vx := vx (position model); vy := posY; vz := posZ |};
     rotation := {| vx := rotX; vy := vy (rotation model); vz := rotZ |};
     scale := scale model |}.

(** What happens to the pointer and the model of a desktop scene: a mouse
    event that passes the throttle, and a frame in which the model follows
    the pointer. *)
Inductive Event :=
  | MouseMove (rect : DOMRect) (clientX clientY : R)
  | Frame (elapsedTime deltaTime : R).

Definition step (s : Mouse * Model) (e : Event) : Mouse * Model :=
  match e with
  | MouseMove rect clientX clientY => (handleMouseMove rect clientX clientY (fst s), snd s)
  | Frame elapsedTime deltaTime =>
      (fst s, updateModelInteraction ANIMATION_CONFIG (snd s) (fst s) elapsedTime deltaTime)
  end.

Definition run (es : list Event) (s : Mouse * Model) : Mouse * Model :=
  fold_left step es s.

(** The container has an area whenever it is measured. *)
Definition event_ok (e : Event) : Prop :=
  match e with
  | MouseMove rect _ _ => 0 < width rect /\ 0 < height rect
  | Frame _ _ => True
  end.

(** The model as the loader callback places it: [position.set],
    [rotation.set], [scale.set] with the values of MODEL_CONFIG, for which
    the position is on the x axis and the rotation about the y axis. *)
Definition placed (px ry s : R) : Model :=
  {| position := {| vx := px; vy := 0; vz := 0 |};
     rotation := {| vx := 0; vy := ry; vz := 0 |};
     scale := {| vx := s; vy := s; vz := s |} |}.

(** The pointer stays in the normalised square. *)
Definition mouse_ok (m : Mouse) : Prop :=
  -1 <= x m <= 1 /\ -1 <= y m <= 1.

(** The model stays near its rest pose. *)
Definition near_rest (px ry s : R) (model : Model) : Prop :=
  vx (position model) = px /\
  Rabs (vy (position model)) <= 0.45 /\
  Rabs (vz (position model)) <= 0.4 /\
  Rabs (vx (rotation model)) <= 0.03 /\
  vy (rotation model) = ry /\
  Rabs (vz (rotation model)) <= 0.02 /\
  scale model = {| vx := s; vy := s; vz := s |}.

(** The same frame repeated, for a pointer that rests. *)
Definition frames (n : nat) (elapsedTime deltaTime : nat -> R) : list Event :=
  List.map (fun k => Frame (elapsedTime k) (deltaTime k)) (seq 0 n).

(** A 200 x 100 container at the origin of the page. *)
Definition box : DOMRect := {| left := 0; top := 0; width := 200; height := 100 |}.

End Pointer.

(** ** Micro-effect multiplexer: the loop, the textures and the button
       component (ui/IceButtonManager.ts, ui/IceButton.tsx) *)

Module IceButtonLoop.
Import IceButton.

Local Open Scope Q_scope.

(** The events that can run a frame: [Frame], and [Activate], which runs
    one when it starts the loop. *)
Definition runsFrame (e : Event) : bool :=
  match e with
  | Frame _ | Activate _ _ => true
  | _ => false
  end.

(** The clamped frame time an event can spend. *)
Definition tick (e : Event) : Q :=
  match e with
  | Frame d | Activate _ d => frameDelta d
  | _ => 0
  end.

Fixpoint clampedTime (es : list Event) : Q :=
  match es with
  | [] => 0
  | e :: es' => tick e + clampedTime es'
  end.

Definition frameCount (es : list Event) : nat := length (filter (fun e => runsFrame e = true) es).

(** Nothing of the instance shows and nothing is asked of it. *)
Definition at_rest (i : IceButtonInstance) : Prop :=
  targetProgress i == 0 /\ currentProgress i <= 0.001.

(** What holds of the manager between events. *)
Definition loop_ok (m : Manager) : Prop :=
  renderer m = textures m /\
  pendingRegistrations m = [] /\
  (forall id i, instances m !! id = Some i -> renderer m = true) /\
  (isAnimating m = true -> animationId m = true /\ renderer m = true) /\
  (forall id i, instances m !! id = Some i ->
     targetProgress i == 1 \/ 0.001 < currentProgress i ->
     isAnimating m = true).

(** *** [loadTextures]

    The closure that [loadTextures] passes to [loadSharedIceTextures] sets
    [this.textures]; [onLoaded] is its identity.  The result is the new
    state of the shared module and the value of [this.textures] when
    [loadTextures] returns, [None] for [null]. *)
Definition loadTextures (onLoaded : TextureLoaders.Callback)
    (g : TextureLoaders.IceState)
    : TextureLoaders.IceState * option TextureLoaders.IceTextures :=
  match TextureLoaders.getSharedIceTextures g with
  | Some existing => (g, Some existing)
  | None =>
      let g' := fst (TextureLoaders.loadSharedIceTextures (Some onLoaded) g) in
      let during := drop (length (TextureLoaders.invoked g)) (TextureLoaders.invoked g') in
      (g', snd <$> last (filter (fun p => fst p = onLoaded) during))
  end.

(** *** The button component (ui/IceButton.tsx) *)

(** [useId()] and [isRegistered.current]. *)
Record Button := { id : string; isRegistered : bool }.

Definition mounted (id : string) : Button := {| id := id; isRegistered := false |}.

(** [handleMouseEnter]; the refs of a mounted button are set.
    [clockDelta] is what the clock of the manager reads if this call starts
    the loop. *)
Definition handleMouseEnter (clockDelta : Q) (b : Button) (m : Manager)
    : Button * Manager :=
  let '(b, m) :=
    if negb (isRegistered b)
    then ({| id := id b; isRegistered := true |}, register (id b) m)
    else (b, m) in
  (b, activate (id b) clockDelta m).

Definition handleMouseLeave (b : Button) (m : Manager) : Button * Manager :=
  (b, deactivate (id b) m).

(** The cleanup of the first effect. *)
Definition unmount (b : Button) (m : Manager) : Button * Manager :=
  if isRegistered b
  then ({| id := id b; isRegistered := false |}, unregister (id b) m)
  else (b, m).

(** What happens to a button: pointer events, its unmounting (after which
    React mounts it afresh if it shows again), and the frames of the
    manager. *)
Inductive ButtonEvent :=
  | MouseEnter (clockDelta : Q)
  | MouseLeave
  | Unmount
  | Elsewhere (e : Event).     (* a frame of the manager, or a call of
                                  another button *)

Definition buttonStep (s : Button * Manager) (e : ButtonEvent) : Button * Manager :=
  match e with
  | MouseEnter d => handleMouseEnter d (fst s) (snd s)
  | MouseLeave => handleMouseLeave (fst s) (snd s)
  | Unmount => unmount (fst s) (snd s)
  | Elsewhere e => (fst s, step (snd s) e)
  end.

Definition buttonRun (es : list ButtonEvent) (s : Button * Manager) : Button * Manager :=
  fold_left buttonStep es s.

(** The clock is not negative, and the other buttons have other ids
    ([useId] gives every component its own). *)
Definition button_event_ok (id : string) (e : ButtonEvent) : Prop :=
  match e with
  | MouseEnter d => 0 <= d
  | Elsewhere e =>
      clock_ok e /\
      match e with
      | Register i | Unregister i | Activate i _ | Deactivate i => i <> id
      | Frame _ => True
      end
  | _ => True
  end.

(** The progress of the instance of a button, 0 while it has none. *)
Definition progressOf (s : Button * Manager) : Q :=
  match instances (snd s) !! id (fst s) with
  | Some i => currentProgress i
  | None => 0
  end.

End IceButtonLoop.
(** * Verification *)

(** ** Ice trail: the ageing loop, slot by slot *)

Section IceTrailSlots.
Import IceTrail.
Local Open Scope R_scope.

Lemma get_insert_eq (a : list R) (i : nat) (x : R) :
  (i < length a)%nat -> get (<[i := x]> a) i = x.
Proof. intros H. unfold get. by rewrite list_lookup_insert_eq. Qed.

Lemma get_insert_ne (a : list R) (i j : nat) (x : R) :
  i <> j -> get (<[i := x]> a) j = get a j.
Proof. intros H. unfold get. by rewrite list_lookup_insert_ne. Qed.

Lemma age_point_length dt rnd meta d i :
  length (age_point dt rnd meta d i) = length d.
Proof.
  unfold age_point.
  repeat (destruct (Rlt_dec _ _)); rewrite ?length_insert; reflexivity.
Qed.

Lemma age_point_other dt rnd meta d i j :
  j <> (i * 4 + 2)%nat -> j <> (i * 4 + 3)%nat ->
  get (age_point dt rnd meta d i) j = get d j.
Proof.
  intros H2 H3. unfold age_point.
  repeat (destruct (Rlt_dec _ _)); rewrite ?get_insert_ne by lia; reflexivity.
Qed.

Lemma age_point_age dt rnd meta d i :
  (i * 4 + 3 < length d)%nat ->
  get (age_point dt rnd meta d i) (i * 4 + 2) =
  fst (decay dt (meltDraw rnd i) (get meta (i * 2 + 1))
         (get d (i * 4 + 2)) (get d (i * 4 + 3))).
Proof.
  intros Hlen. unfold age_point, decay.
  destruct (Rlt_dec 0 (get d (i * 4 + 3))) as [Hlive|Hdead]; [|reflexivity].
  destruct (Rlt_dec (meltDraw rnd i) 0.002); cbn [fst];
    rewrite ?get_insert_ne by lia;
    rewrite get_insert_eq by lia; reflexivity.
Qed.

Lemma age_point_intensity dt rnd meta d i :
  (i * 4 + 3 < length d)%nat ->
  get (age_point dt rnd meta d i) (i * 4 + 3) =
  snd (decay dt (meltDraw rnd i) (get meta (i * 2 + 1))
         (get d (i * 4 + 2)) (get d (i * 4 + 3))).
Proof.
  intros Hlen. unfold age_point, decay.
  destruct (Rlt_dec 0 (get d (i * 4 + 3))) as [Hlive|Hdead]; [|reflexivity].
  destruct (Rlt_dec (meltDraw rnd i) 0.002); cbn [snd];
    repeat (rewrite get_insert_eq by (rewrite ?length_insert; lia));
    rewrite ?get_insert_ne by lia;
    rewrite ?get_insert_eq by lia; reflexivity.
Qed.

Lemma age_fold_length dt rnd meta l d :
  length (fold_left (age_point dt rnd meta) l d) = length d.
Proof.
  revert d. induction l as [|a l IH]; intros d; cbn [fold_left]; [reflexivity|].
  rewrite IH. apply age_point_length.
Qed.

(** Slots outside the list of visited slots are left alone; a visited slot
    holds the decayed point. *)
Lemma age_fold_untouched dt rnd meta (l : list nat) d j :
  (forall i, i ∈ l -> j <> (i * 4 + 2)%nat /\ j <> (i * 4 + 3)%nat) ->
  get (fold_left (age_point dt rnd meta) l d) j = get d j.
Proof.
  revert d. induction l as [|a l IH]; intros d Hj; cbn [fold_left]; [reflexivity|].
  rewrite IH by (intros i Hi; apply Hj; right; exact Hi).
  destruct (Hj a) as [H2 H3]; [left|]. by apply age_point_other.
Qed.

Lemma age_fold_visited dt rnd meta (l : list nat) d i :
  NoDup l -> i ∈ l -> (i * 4 + 3 < length d)%nat ->
  get (fold_left (age_point dt rnd meta) l d) (i * 4 + 2) =
    fst (decay dt (meltDraw rnd i) (get meta (i * 2 + 1))
           (get d (i * 4 + 2)) (get d (i * 4 + 3))) /\
  get (fold_left (age_point dt rnd meta) l d) (i * 4 + 3) =
    snd (decay dt (meltDraw rnd i) (get meta (i * 2 + 1))
           (get d (i * 4 + 2)) (get d (i * 4 + 3))).
Proof.
  revert d. induction l as [|a l IH]; intros d Hnd Hin Hlen.
  { by apply elem_of_nil in Hin. }
  cbn [fold_left]. apply NoDup_cons in Hnd as [Hnotin Hnd'].
  destruct (Nat.eq_dec a i) as [->|Hne].
  - rewrite !age_fold_untouched.
    + split; [by apply age_point_age | by apply age_point_intensity].
    + intros k Hk. assert (k <> i) by (intros ->; contradiction). lia.
    + intros k Hk. assert (k <> i) by (intros ->; contradiction). lia.
  - apply elem_of_cons in Hin as [Heq|Hin]; [congruence|].
    destruct (IH (age_point dt rnd meta d a) Hnd' Hin) as [Ha Hw].
    { rewrite age_point_length. exact Hlen. }
    rewrite Ha, Hw.
    rewrite !(age_point_other dt rnd meta d a) by lia. split; reflexivity.
Qed.

Lemma age_loop_length dt rnd meta d :
  length (age_loop dt rnd meta d) = length d.
Proof. apply age_fold_length. Qed.

Lemma age_loop_slot dt rnd meta d i :
  (i < maxTrailPoints)%nat -> length d = (maxTrailPoints * 4)%nat ->
  get (age_loop dt rnd meta d) (i * 4 + 2) =
    fst (decay dt (meltDraw rnd i) (get meta (i * 2 + 1))
           (get d (i * 4 + 2)) (get d (i * 4 + 3))) /\
  get (age_loop dt rnd meta d) (i * 4 + 3) =
    snd (decay dt (meltDraw rnd i) (get meta (i * 2 + 1))
           (get d (i * 4 + 2)) (get d (i * 4 + 3))).
Proof.
  intros Hi Hlen. apply age_fold_visited.
  - apply NoDup_seq.
  - apply elem_of_seq. lia.
  - rewrite Hlen. unfold maxTrailPoints in *. lia.
Qed.

(** The loop never writes the UV of a point. *)
Lemma age_loop_uv dt rnd meta d i :
  get (age_loop dt rnd meta d) (i * 4) = get d (i * 4) /\
  get (age_loop dt rnd meta d) (i * 4 + 1) = get d (i * 4 + 1).
Proof.
  split; apply age_fold_untouched; intros k _; lia.
Qed.

End IceTrailSlots.

(** ** Ice trail: one [update] call, slot by slot *)

Section IceTrailUpdate.
Import IceTrail.
Local Open Scope R_scope.

Lemma update_None f st :
  new_point (elapsedTime f) (intersects f) (isScrolling f) st = None ->
  update f st =
  {| trailData := age_loop (deltaTime f) (draws f) (trailMeta st) (trailData st);
     trailMeta := trailMeta st;
     trailIndex := trailIndex st;
     trailCount := trailCount st;
     lastTrailTime := lastTrailTime st;
     needsUpdate :=
       if shouldUpdateTexture (elapsedTime f) (isScrolling f)
       then true else needsUpdate st;
     uTrailCount := trailCount st;
     uTime := elapsedTime f |}.
Proof.
  intros H. unfold update.
  change (new_point (elapsedTime f) (intersects f) (isScrolling f) _)
    with (new_point (elapsedTime f) (intersects f) (isScrolling f) st).
  rewrite H. reflexivity.
Qed.

Lemma update_Some f st hitUv :
  new_point (elapsedTime f) (intersects f) (isScrolling f) st = Some hitUv ->
  update f st =
  let aged := age_loop (deltaTime f) (draws f) (trailMeta st) (trailData st) in
  let idx := (trailIndex st * 4)%nat in
  let metaIdx := (trailIndex st * 2)%nat in
  {| trailData :=
       <[(idx + 3)%nat := 1.0]> (<[(idx + 2)%nat := 0]>
       (<[(idx + 1)%nat := snd hitUv]> (<[idx := fst hitUv]> aged)));
     trailMeta :=
       <[(metaIdx + 1)%nat := 2.0 + ageDraw (draws f) * 3.0]>
       (<[metaIdx := 0.1 + fadeDraw (draws f) * 0.2]> (trailMeta st));
     trailIndex := (trailIndex st + 1) mod maxTrailPoints;
     trailCount := Nat.min (trailCount st + 1) maxTrailPoints;
     lastTrailTime := elapsedTime f;
     needsUpdate :=
       if shouldUpdateTexture (elapsedTime f) (isScrolling f)
       then true else needsUpdate st;
     uTrailCount := Nat.min (trailCount st + 1) maxTrailPoints;
     uTime := elapsedTime f |}.
Proof.
  intros H. unfold update.
  change (new_point (elapsedTime f) (intersects f) (isScrolling f) _)
    with (new_point (elapsedTime f) (intersects f) (isScrolling f) st).
  rewrite H. reflexivity.
Qed.


Lemma init_shape : shape init.
Proof.
  unfold shape, init, maxTrailPoints; cbn [trailData trailMeta trailIndex trailCount].
  rewrite !length_replicate. lia.
Qed.

Lemma update_shape f st : shape st -> shape (update f st).
Proof.
  intros (Hd & Hm & Hi & Hc).
  destruct (new_point (elapsedTime f) (intersects f) (isScrolling f) st)
    as [hitUv|] eqn:Hnp.
  - rewrite (update_Some _ _ _ Hnp). unfold shape.
    cbn [trailData trailMeta trailIndex trailCount].
    rewrite !length_insert, age_loop_length.
    repeat split; try assumption.
    + apply Nat.mod_upper_bound. discriminate.
    + apply Nat.le_min_r.
  - rewrite (update_None _ _ Hnp). unfold shape.
    cbn [trailData trailMeta trailIndex trailCount].
    rewrite age_loop_length. repeat split; assumption.
Qed.

Lemma run_app fs gs st : run (fs ++ gs) st = run gs (run fs st).
Proof. unfold run. apply fold_left_app. Qed.

Lemma run_snoc fs f st : run (fs ++ [f]) st = update f (run fs st).
Proof. rewrite run_app. reflexivity. Qed.

Lemma run_shape fs st : shape st -> shape (run fs st).
Proof.
  revert st. induction fs as [|f fs IH]; intros st H; [exact H|].
  cbn. apply IH, update_shape, H.
Qed.

(** A slot that the call does not overwrite holds the decayed point; its
    UV and its maximal age are untouched. *)
Lemma update_slot_keep f st i :
  shape st -> (i < maxTrailPoints)%nat -> ~ overwrites f st i ->
  slot_age (update f st) i =
    fst (decay (deltaTime f) (meltDraw (draws f) i) (slot_maxAge st i)
           (slot_age st i) (slot_intensity st i)) /\
  slot_intensity (update f st) i =
    snd (decay (deltaTime f) (meltDraw (draws f) i) (slot_maxAge st i)
           (slot_age st i) (slot_intensity st i)) /\
  slot_maxAge (update f st) i = slot_maxAge st i /\
  slot_u (update f st) i = slot_u st i /\
  slot_v (update f st) i = slot_v st i.
Proof.
  intros (Hd & Hm & Hi & Hc) Hlt Hno.
  destruct (age_loop_slot (deltaTime f) (draws f) (trailMeta st) (trailData st) i
              Hlt Hd) as [Ha Hw].
  destruct (age_loop_uv (deltaTime f) (draws f) (trailMeta st) (trailData st) i)
    as [Hu Hv].
  unfold slot_age, slot_intensity, slot_maxAge, slot_u, slot_v.
  destruct (new_point (elapsedTime f) (intersects f) (isScrolling f) st)
    as [hitUv|] eqn:Hnp.
  - assert (Hne : trailIndex st <> i).
    { intros Heq. apply Hno. split; [congruence|exact Heq]. }
    rewrite (update_Some _ _ _ Hnp). cbn [trailData trailMeta].
    rewrite !get_insert_ne by lia. auto.
  - rewrite (update_None _ _ Hnp). cbn [trailData trailMeta]. auto.
Qed.

(** The slot under the write cursor receives the new point. *)
Lemma update_slot_new f st hitUv :
  shape st ->
  new_point (elapsedTime f) (intersects f) (isScrolling f) st = Some hitUv ->
  slot_u (update f st) (trailIndex st) = fst hitUv /\
  slot_v (update f st) (trailIndex st) = snd hitUv /\
  slot_age (update f st) (trailIndex st) = 0 /\
  slot_intensity (update f st) (trailIndex st) = 1 /\
  slot_maxAge (update f st) (trailIndex st) = 2 + ageDraw (draws f) * 3.
Proof.
  intros (Hd & Hm & Hi & Hc) Hnp.
  unfold slot_age, slot_intensity, slot_maxAge, slot_u, slot_v.
  rewrite (update_Some _ _ _ Hnp). cbn [trailData trailMeta].
  unfold maxTrailPoints in *.
  repeat split.
  - rewrite !get_insert_ne by lia. apply get_insert_eq.
    rewrite age_loop_length. lia.
  - rewrite !get_insert_ne by lia. apply get_insert_eq.
    rewrite !length_insert, age_loop_length. lia.
  - rewrite !get_insert_ne by lia. apply get_insert_eq.
    rewrite !length_insert, age_loop_length. lia.
  - rewrite get_insert_eq; [lra|].
    rewrite !length_insert, age_loop_length. lia.
  - rewrite get_insert_eq; [lra|]. rewrite !length_insert. lia.
Qed.

End IceTrailUpdate.

(** ** Ice trail: the decay curve *)

Section IceTrailDecay.
Import IceTrail.
Local Open Scope R_scope.

Lemma exponent_bounds a : 1.2 <= 1.5 + sin a * 0.3 <= 1.8.
Proof. destruct (SIN_bound a). lra. Qed.

Lemma Math_pow_nonneg x k : 0 <= Math_pow x k.
Proof.
  unfold Math_pow. destruct (Req_dec_T x 0); [lra|].
  left. apply exp_pos.
Qed.

Lemma Math_pow_ge_1 x k : 1 <= x -> 0 < k -> 1 <= Math_pow x k.
Proof.
  intros Hx Hk. unfold Math_pow. destruct (Req_dec_T x 0); [lra|].
  rewrite <- (Rpower_O x) by lra. apply Rle_Rpower; lra.
Qed.

Lemma exp_le_mono a b : a <= b -> exp a <= exp b.
Proof.
  intros [Hlt | ->]; [left; by apply exp_increasing | right; reflexivity].
Qed.

(** Below 1 a larger exponent gives a smaller power. *)
Lemma Rpower_antitone_exponent x k1 k2 :
  0 < x <= 1 -> k2 <= k1 -> Rpower x k1 <= Rpower x k2.
Proof.
  intros [Hx0 Hx1] Hk. unfold Rpower. apply exp_le_mono.
  assert (Hln : ln x <= 0).
  { destruct Hx1 as [Hlt | ->]; [|rewrite ln_1; lra].
    left. rewrite <- ln_1. by apply ln_increasing. }
  nra.
Qed.

Lemma Math_pow_mono x1 x2 k1 k2 :
  0 <= x1 <= x2 -> x1 <= 1 -> 0 < k2 <= k1 ->
  Math_pow x1 k1 <= Math_pow x2 k2.
Proof.
  intros [H0 H12] H1 [Hk2 Hk]. unfold Math_pow.
  destruct (Req_dec_T x1 0) as [->|Hx1].
  - destruct (Req_dec_T x2 0); [lra|]. left. apply exp_pos.
  - destruct (Req_dec_T x2 0); [lra|].
    apply Rle_trans with (Rpower x1 k2).
    + apply Rpower_antitone_exponent; lra.
    + apply Rle_Rpower_l; lra.
Qed.

Lemma decay_dead dt melt maxAge age w :
  ~ 0 < w -> decay dt melt maxAge age w = (age, w).
Proof. intros H. unfold decay. destruct (Rlt_dec 0 w); [contradiction|reflexivity]. Qed.

Lemma decay_live dt melt maxAge age w :
  0 < w ->
  decay dt melt maxAge age w =
  (age + dt,
   let w' := Rmax 0 (1 - Math_pow ((age + dt) / maxAge)
                          (1.5 + sin ((age + dt) * 3) * 0.3)) in
   if Rlt_dec melt 0.002 then w' * 0.7 else w').
Proof.
  intros H. unfold decay. destruct (Rlt_dec 0 w); [|contradiction].
  replace 1.0 with 1 by lra. replace 3.0 with 3 by lra. reflexivity.
Qed.

Lemma decay_intensity_range dt melt maxAge age w :
  0 <= w <= 1 -> 0 <= snd (decay dt melt maxAge age w) <= 1.
Proof.
  intros Hw. destruct (Rlt_dec 0 w) as [Hl|Hd].
  - rewrite decay_live by exact Hl. cbn [snd].
    set (p := Math_pow _ _). pose proof (Math_pow_nonneg ((age + dt) / maxAge)
      (1.5 + sin ((age + dt) * 3) * 0.3)) as Hp. fold p in Hp.
    assert (Hm : 0 <= Rmax 0 (1 - p) <= 1).
    { split; [apply Rmax_l | apply Rmax_lub; lra]. }
    cbv zeta. destruct (Rlt_dec melt 0.002); lra.
  - rewrite decay_dead by exact Hd. exact Hw.
Qed.

Lemma decay_age_nonneg dt melt maxAge age w :
  0 <= dt -> 0 <= age -> 0 <= fst (decay dt melt maxAge age w).
Proof.
  intros Hdt Ha. unfold decay. destruct (Rlt_dec 0 w); cbn [fst]; lra.
Qed.

Lemma decay_stays_dead dt melt maxAge age w :
  0 < snd (decay dt melt maxAge age w) -> 0 < w.
Proof.
  intros H. destruct (Rlt_dec 0 w) as [Hl|Hd]; [exact Hl|].
  rewrite decay_dead in H by exact Hd. exact H.
Qed.

Lemma get_replicate_0 n j : get (replicate n 0) j = 0.
Proof.
  unfold get. destruct (replicate n 0 !! j) as [x|] eqn:E; [|reflexivity].
  apply lookup_replicate in E as [-> _]. reflexivity.
Qed.

Lemma init_points_ok : points_ok init.
Proof.
  intros i _. unfold slot_age, slot_intensity, slot_maxAge, init.
  cbn [trailData trailMeta]. rewrite !get_replicate_0. lra.
Qed.

Lemma overwrites_dec f st i : overwrites f st i \/ ~ overwrites f st i.
Proof.
  unfold overwrites.
  destruct (new_point (elapsedTime f) (intersects f) (isScrolling f) st);
    destruct (Nat.eq_dec (trailIndex st) i); intuition congruence.
Qed.

Lemma overwrites_new f st i :
  overwrites f st i ->
  exists hitUv,
    new_point (elapsedTime f) (intersects f) (isScrolling f) st = Some hitUv /\
    trailIndex st = i.
Proof.
  intros [Hnp Hi].
  destruct (new_point (elapsedTime f) (intersects f) (isScrolling f) st)
    as [hitUv|]; [|contradiction].
  exists hitUv. split; [reflexivity|exact Hi].
Qed.

Lemma update_points_ok f st :
  valid_frame f -> shape st -> points_ok st -> points_ok (update f st).
Proof.
  intros (Hdt & Hfd & Had) Hsh Hok i Hi.
  destruct (Hok i Hi) as (Hage & Hw & Hmax).
  destruct (overwrites_dec f st i) as [Hov|Hno].
  - destruct (overwrites_new _ _ _ Hov) as (hitUv & Hnp & <-).
    destruct (update_slot_new f st hitUv Hsh Hnp) as (_ & _ & Ha & Hin & Hm).
    rewrite Ha, Hin, Hm. lra.
  - destruct (update_slot_keep f st i Hsh Hi Hno) as (Ha & Hin & Hm & _ & _).
    rewrite Ha, Hin, Hm. split; [|split].
    + by apply decay_age_nonneg.
    + by apply decay_intensity_range.
    + intros Hlive. apply Hmax. exact (decay_stays_dead _ _ _ _ _ Hlive).
Qed.

Lemma run_points_ok fs st :
  Forall valid_frame fs -> shape st -> points_ok st ->
  shape (run fs st) /\ points_ok (run fs st).
Proof.
  intros Hfs. revert st. induction Hfs as [|f fs Hf Hfs IH]; intros st Hsh Hok.
  - split; assumption.
  - cbn. apply IH; [by apply update_shape | by apply update_points_ok].
Qed.

Lemma reachable_ok fs :
  Forall valid_frame fs -> shape (run fs init) /\ points_ok (run fs init).
Proof. intros H. apply run_points_ok; [exact H | apply init_shape | apply init_points_ok]. Qed.

End IceTrailDecay.

(** ** Ice trail: claims on the decay of a point *)

Section IceTrailDecayClaims.
Import IceTrail.
Local Open Scope R_scope.

Lemma Rmax_0_mono a b : a <= b -> Rmax 0 a <= Rmax 0 b.
Proof. intros H. unfold Rmax. repeat destruct (Rle_dec _ _); lra. Qed.

Lemma Math_pow_lt_1 x k : 0 <= x < 1 -> 0 < k -> Math_pow x k < 1.
Proof.
  intros [H0 H1] Hk. unfold Math_pow. destruct (Req_dec_T x 0); [lra|].
  unfold Rpower. rewrite <- exp_0. apply exp_increasing.
  assert (ln x < 0) by (rewrite <- ln_1; apply ln_increasing; lra). nra.
Qed.

(** C5.  Once the age of a live point has reached its maximal age, the
    decay formula gives a value that is not positive, and the intensity
    stored by that [update] call is exactly 0 (unless the same call writes
    a new point into the slot). *)
Theorem expired_point_is_dead (fs : list Frame) (f : Frame) (i : nat) :
  Forall valid_frame fs ->
  (i < maxTrailPoints)%nat ->
  0 < slot_intensity (run fs init) i ->
  slot_maxAge (run fs init) i <= slot_age (run fs init) i + deltaTime f ->
  1.0 - Math_pow ((slot_age (run fs init) i + deltaTime f)
                    / slot_maxAge (run fs init) i)
          (1.5 + sin ((slot_age (run fs init) i + deltaTime f) * 3.0) * 0.3) <= 0 /\
  (~ overwrites f (run fs init) i ->
   slot_intensity (update f (run fs init)) i = 0).
Proof.
  intros Hfs Hi Hlive Hold.
  destruct (reachable_ok fs Hfs) as [Hsh Hok].
  destruct (Hok i Hi) as (Hage & Hw & Hmax). specialize (Hmax Hlive).
  set (st := run fs init) in *.
  assert (Hx : 1 <= (slot_age st i + deltaTime f) / slot_maxAge st i).
  { assert (0 < / slot_maxAge st i) by (apply Rinv_0_lt_compat; lra).
    replace 1 with (slot_maxAge st i * / slot_maxAge st i) by (field; lra).
    unfold Rdiv. nra. }
  assert (Hp : 1 <= Math_pow ((slot_age st i + deltaTime f) / slot_maxAge st i)
                 (1.5 + sin ((slot_age st i + deltaTime f) * 3) * 0.3)).
  { apply Math_pow_ge_1; [exact Hx|].
    pose proof (exponent_bounds ((slot_age st i + deltaTime f) * 3)). lra. }
  replace 3.0 with 3 by lra. split; [lra|].
  intros Hno.
  destruct (update_slot_keep f st i Hsh Hi Hno) as (_ & Hin & _).
  rewrite Hin, decay_live by exact Hlive. cbn [snd]. cbv zeta.
  rewrite Rmax_left by lra. destruct (Rlt_dec _ _); lra.
Qed.

(** C1 (amended).  Between two consecutive [update] calls the stored
    intensity of a live point does not increase, provided the melt did not
    fire in the earlier call and the exponent of the decay curve,
    [1.5 + 0.3 * sin (3 * age)], is not larger at the later call than at the
    earlier one. *)
Theorem intensity_nonincreasing_when_exponent_does_not_grow
    (fs : list Frame) (f1 f2 : Frame) (i : nat) :
  Forall valid_frame fs -> valid_frame f1 -> valid_frame f2 ->
  (i < maxTrailPoints)%nat ->
  0 < slot_intensity (update f1 (run fs init)) i ->
  ~ meltDraw (draws f1) i < 0.002 ->
  ~ overwrites f2 (update f1 (run fs init)) i ->
  sin (slot_age (update f2 (update f1 (run fs init))) i * 3)
    <= sin (slot_age (update f1 (run fs init)) i * 3) ->
  slot_intensity (update f2 (update f1 (run fs init))) i
    <= slot_intensity (update f1 (run fs init)) i.
Proof.
  intros Hfs Hf1 Hf2 Hi Hlive Hmelt Hno2 Hsin.
  destruct (reachable_ok fs Hfs) as [Hsh0 Hok0].
  set (st0 := run fs init) in *.
  pose proof (update_shape f1 st0 Hsh0) as Hsh1.
  pose proof (update_points_ok f1 st0 Hf1 Hsh0 Hok0) as Hok1.
  set (st1 := update f1 st0) in *.
  destruct (Hok1 i Hi) as (Hage1 & Hw1 & Hmax1). specialize (Hmax1 Hlive).
  destruct (update_slot_keep f2 st1 i Hsh1 Hi Hno2) as (Ha2 & Hin2 & _).
  rewrite decay_live in Ha2, Hin2 by exact Hlive. cbn [fst snd] in Ha2, Hin2.
  rewrite Ha2 in Hsin. rewrite Hin2. cbv zeta.
  set (p2 := Math_pow _ _).
  assert (Hp2 : 0 <= p2) by apply Math_pow_nonneg.
  assert (Hw2 : 0 <= Rmax 0 (1 - p2)) by apply Rmax_l.
  apply Rle_trans with (Rmax 0 (1 - p2)).
  { destruct (Rlt_dec _ _); lra. }
  destruct (overwrites_dec f1 st0 i) as [Hov|Hno1].
  - (* the point was written by the earlier call *)
    destruct (overwrites_new _ _ _ Hov) as (hitUv & Hnp & <-).
    destruct (update_slot_new f1 st0 hitUv Hsh0 Hnp) as (_ & _ & _ & Hin & _).
    fold st1 in Hin. rewrite Hin. apply Rmax_lub; lra.
  - (* the point was aged by the earlier call *)
    destruct (update_slot_keep f1 st0 i Hsh0 Hi Hno1) as (Ha1 & Hin1 & Hm1 & _).
    fold st1 in Ha1, Hin1, Hm1.
    assert (Hlive0 : 0 < slot_intensity st0 i).
    { apply (decay_stays_dead (deltaTime f1) (meltDraw (draws f1) i)
               (slot_maxAge st0 i) (slot_age st0 i)). rewrite <- Hin1. exact Hlive. }
    rewrite decay_live in Ha1, Hin1 by exact Hlive0. cbn [fst snd] in Ha1, Hin1.
    cbv zeta in Hin1.
    destruct (Rlt_dec (meltDraw (draws f1) i) 0.002); [contradiction|].
    rewrite <- Ha1, <- Hm1 in Hin1.
    destruct Hf2 as (Hdt2 & _).
    assert (Hinv : 0 < / slot_maxAge st1 i) by (apply Rinv_0_lt_compat; lra).
    destruct (Rle_lt_dec (slot_age st1 i / slot_maxAge st1 i) 1) as [Hle|Hgt].
    + rewrite Hin1. apply Rmax_0_mono.
      apply Rplus_le_compat_l, Ropp_le_contravar.
      apply Math_pow_mono.
      * unfold Rdiv. split; nra.
      * exact Hle.
      * pose proof (exponent_bounds ((slot_age st1 i + deltaTime f2) * 3)). lra.
    + exfalso.
      assert (1 <= Math_pow (slot_age st1 i / slot_maxAge st1 i)
                     (1.5 + sin (slot_age st1 i * 3) * 0.3)).
      { apply Math_pow_ge_1; [lra|].
        pose proof (exponent_bounds (slot_age st1 i * 3)). lra. }
      rewrite Rmax_left in Hin1 by lra. lra.
Qed.

End IceTrailDecayClaims.

(** ** Ice trail: concrete runs of the decay *)

Section IceTrailScenarios.
Import IceTrail IceTrailRuns.
Local Open Scope R_scope.

Lemma new_point_touch dt e u v r st :
  trailInterval < e - lastTrailTime st ->
  new_point (elapsedTime (touch dt e u v r)) (intersects (touch dt e u v r))
    (isScrolling (touch dt e u v r)) st = Some (u, v).
Proof.
  intros H. cbn. unfold new_point. cbn.
  destruct (Rlt_dec _ _); [reflexivity|contradiction].
Qed.

Lemma idle_keeps dt e st i : ~ overwrites (idle dt e) st i.
Proof. intros [H _]. apply H. reflexivity. Qed.

Lemma valid_touch dt e u v r : 0 <= dt -> 0 <= r < 1 -> valid_frame (touch dt e u v r).
Proof. intros. unfold valid_frame; cbn. lra. Qed.

Lemma valid_idle dt e : 0 <= dt -> valid_frame (idle dt e).
Proof. intros. unfold valid_frame; cbn. lra. Qed.

Lemma decay_no_melt dt maxAge age w :
  0 < w -> (age + dt) / maxAge <> 0 ->
  decay dt (1 / 2) maxAge age w =
  (age + dt,
   Rmax 0 (1 - Rpower ((age + dt) / maxAge) (1.5 + sin ((age + dt) * 3) * 0.3))).
Proof.
  intros Hw Hx. rewrite decay_live by exact Hw. cbv zeta.
  destruct (Rlt_dec (1 / 2) 0.002); [lra|].
  unfold Math_pow. destruct (Req_dec_T _ 0); [contradiction|reflexivity].
Qed.

Lemma PI_upper : PI <= 68 / 21.
Proof.
  destruct (PI_2_3_7_ineq 0) as [_ H].
  unfold sum_f_R0, tg_alt, PI_2_3_7_tg, Ratan_seq in H.
  cbn [Nat.mul Nat.add pow INR] in H. lra.
Qed.

Lemma PI_lower : 3 < PI.
Proof. pose proof PI2_3_2. lra. Qed.

Lemma sin_11PI6 : sin (11 * PI / 6) = - (1 / 2).
Proof.
  replace (11 * PI / 6) with (- (PI / 6) + 2 * INR 1 * PI)
    by (cbn [INR]; field).
  rewrite sin_period, sin_neg, sin_PI6. reflexivity.
Qed.

Lemma Rpower_11_27 : 8 / 27 < Rpower (11 / 27) (27 / 20).
Proof.
  apply Rnot_le_lt. intros H.
  assert (H0 : 0 < Rpower (11 / 27) (27 / 20)) by apply exp_pos.
  assert (H1 : Rpower (Rpower (11 / 27) (27 / 20)) 20 <= Rpower (8 / 27) 20).
  { apply Rle_Rpower_l; [lra | split; [exact H0 | exact H]]. }
  rewrite Rpower_mult in H1.
  replace (27 / 20 * 20) with (INR 27) in H1
    by (rewrite INR_IZR_INZ; change (Z.of_nat 27) with 27%Z; lra).
  replace (Rpower (8 / 27) 20) with (Rpower (8 / 27) (INR 20)) in H1
    by (rewrite (INR_IZR_INZ 20); reflexivity).
  rewrite !Rpower_pow in H1 by lra.
  assert ((8 / 27) ^ 20 < (11 / 27) ^ 27) by lra. lra.
Qed.

Lemma Rpower_4_9 : Rpower (4 / 9) (3 / 2) = 8 / 27.
Proof.
  replace (4 / 9) with (Rpower (2 / 3) 2).
  - rewrite Rpower_mult.
    replace (2 * (3 / 2)) with (INR 3)
      by (rewrite INR_IZR_INZ; change (Z.of_nat 3) with 3%Z; lra).
    rewrite Rpower_pow by lra. lra.
  - replace (Rpower (2 / 3) 2) with (Rpower (2 / 3) (INR 2))
      by (rewrite (INR_IZR_INZ 2); reflexivity).
    rewrite Rpower_pow by lra. lra.
Qed.

Lemma rise_valid : Forall valid_frame [riseA; riseB; riseC].
Proof.
  pose proof PI_upper. pose proof PI_lower.
  repeat constructor; cbn; lra.
Qed.

Lemma rise_after_A :
  slot_age (run [riseA] init) 0 = 0 /\
  slot_intensity (run [riseA] init) 0 = 1 /\
  slot_maxAge (run [riseA] init) 0 = 3 * PI / 2.
Proof.
  destruct (update_slot_new riseA init (1 / 2, 1 / 2) init_shape)
    as (_ & _ & Ha & Hw & Hm).
  { apply new_point_touch. cbn. unfold trailInterval. lra. }
  cbn [trailIndex init] in *. 
  change (run [riseA] init) with (update riseA init).
  rewrite Ha, Hw, Hm. cbn. repeat split; lra.
Qed.

Lemma rise_after_B :
  slot_age (run [riseA; riseB] init) 0 = 11 * PI / 18 /\
  slot_intensity (run [riseA; riseB] init) 0 = 1 - Rpower (11 / 27) (27 / 20) /\
  slot_maxAge (run [riseA; riseB] init) 0 = 3 * PI / 2.
Proof.
  destruct rise_after_A as (Ha & Hw & Hm).
  pose proof PI_lower as Hpi.
  change (run [riseA; riseB] init) with (update riseB (run [riseA] init)).
  destruct (update_slot_keep riseB (run [riseA] init) 0) as (Ha' & Hw' & Hm' & _).
  { apply run_shape, init_shape. }
  { unfold maxTrailPoints. lia. }
  { apply idle_keeps. }
  rewrite Ha, Hw, Hm in *. cbn [deltaTime draws meltDraw riseB idle quietDraws noMelt] in *.
  assert (Hx : (0 + 11 * PI / 18) / (3 * PI / 2) = 11 / 27) by (field; lra).
  rewrite decay_no_melt in Ha', Hw' by (rewrite ?Hx; lra).
  cbn [fst snd] in *. rewrite Ha', Hw', Hm'.
  replace ((0 + 11 * PI / 18) / (3 * PI / 2)) with (11 / 27) by (field; lra).
  replace ((0 + 11 * PI / 18) * 3) with (11 * PI / 6) by field.
  rewrite sin_11PI6.
  replace (1.5 + - (1 / 2) * 0.3) with (27 / 20) by lra.
  split; [lra|split; [|reflexivity]].
  apply Rmax_right. 
  assert (Rpower (11 / 27) (27 / 20) < 1).
  { unfold Rpower. rewrite <- exp_0. apply exp_increasing.
    assert (ln (11 / 27) < 0) by (rewrite <- ln_1; apply ln_increasing; lra). nra. }
  lra.
Qed.

Lemma rise_after_C :
  slot_age (run [riseA; riseB; riseC] init) 0 = 2 * PI / 3 /\
  slot_intensity (run [riseA; riseB; riseC] init) 0 = 1 - 8 / 27 /\
  slot_maxAge (run [riseA; riseB; riseC] init) 0 = 3 * PI / 2.
Proof.
  destruct rise_after_B as (Ha & Hw & Hm).
  pose proof PI_lower as Hpi. pose proof Rpower_11_27 as Hpow.
  assert (Hlt : Rpower (11 / 27) (27 / 20) < 1).
  { unfold Rpower. rewrite <- exp_0. apply exp_increasing.
    assert (ln (11 / 27) < 0) by (rewrite <- ln_1; apply ln_increasing; lra). nra. }
  change (run [riseA; riseB; riseC] init)
    with (update riseC (run [riseA; riseB] init)).
  destruct (update_slot_keep riseC (run [riseA; riseB] init) 0) as (Ha' & Hw' & Hm' & _).
  { apply run_shape, init_shape. }
  { unfold maxTrailPoints. lia. }
  { apply idle_keeps. }
  rewrite Ha, Hw, Hm in *.
  cbn [deltaTime draws meltDraw riseC idle quietDraws noMelt] in *.
  assert (Hx : (11 * PI / 18 + PI / 18) / (3 * PI / 2) = 4 / 9) by (field; lra).
  rewrite decay_no_melt in Ha', Hw' by (rewrite ?Hx; lra).
  cbn [fst snd] in *. rewrite Ha', Hw', Hm', Hx.
  replace ((11 * PI / 18 + PI / 18) * 3) with (2 * PI) by field.
  rewrite sin_2PI.
  replace (1.5 + 0 * 0.3) with (3 / 2) by lra.
  rewrite Rpower_4_9.
  split; [lra|split; [|reflexivity]].
  apply Rmax_right. lra.
Qed.

(** C1, counterexample.  With no melt and a positive time step, below the
    maximal age, the intensity stored by the later call (19/27, about 0.7037)
    exceeds the one stored by the earlier call (about 0.7025). *)
Lemma intensity_can_increase :
  Forall valid_frame [riseA; riseB; riseC] /\
  0 < deltaTime riseC /\
  0 < slot_intensity (run [riseA; riseB] init) 0 /\
  ~ meltDraw (draws riseB) 0 < 0.002 /\
  ~ meltDraw (draws riseC) 0 < 0.002 /\
  ~ overwrites riseC (run [riseA; riseB] init) 0 /\
  slot_age (update riseC (run [riseA; riseB] init)) 0
    < slot_maxAge (update riseC (run [riseA; riseB] init)) 0 /\
  slot_intensity (run [riseA; riseB] init) 0
    < slot_intensity (update riseC (run [riseA; riseB] init)) 0.
Proof.
  destruct rise_after_B as (Ha & Hw & Hm).
  destruct rise_after_C as (Ha' & Hw' & Hm').
  change (run [riseA; riseB; riseC] init)
    with (update riseC (run [riseA; riseB] init)) in *.
  pose proof PI_lower. pose proof Rpower_11_27.
  assert (Hlt : Rpower (11 / 27) (27 / 20) < 1).
  { unfold Rpower. rewrite <- exp_0. apply exp_increasing.
    assert (ln (11 / 27) < 0) by (rewrite <- ln_1; apply ln_increasing; lra). nra. }
  rewrite Ha', Hw', Hm', Hw.
  split; [exact rise_valid|].
  split; [cbn; lra|].
  split; [lra|].
  split; [cbn; unfold noMelt; lra|].
  split; [cbn; unfold noMelt; lra|].
  split; [apply idle_keeps|].
  split; lra.
Qed.

Lemma fresh_after :
  slot_age (run [freshPoint] init) 0 = 0 /\
  slot_intensity (run [freshPoint] init) 0 = 1 /\
  slot_maxAge (run [freshPoint] init) 0 = 2.
Proof.
  destruct (update_slot_new freshPoint init (1 / 2, 1 / 2) init_shape)
    as (_ & _ & Ha & Hw & Hm).
  { apply new_point_touch. cbn. unfold trailInterval. lra. }
  cbn [trailIndex init] in *.
  change (run [freshPoint] init) with (update freshPoint init).
  rewrite Ha, Hw, Hm. cbn. repeat split; lra.
Qed.

Lemma fresh_valid : Forall valid_frame [freshPoint].
Proof. repeat constructor; cbn; lra. Qed.

Lemma expired_point_is_dead_witness :
  slot_intensity (update (idle 2 3) (run [freshPoint] init)) 0 = 0.
Proof.
  destruct fresh_after as (Ha & Hw & Hm).
  apply (expired_point_is_dead [freshPoint] (idle 2 3) 0).
  - exact fresh_valid.
  - unfold maxTrailPoints. lia.
  - rewrite Hw. lra.
  - rewrite Ha, Hm. cbn. lra.
  - apply idle_keeps.
Defined.

Lemma fresh_aged :
  slot_age (update (idle (PI / 6) (1 + PI / 6)) (run [freshPoint] init)) 0 = PI / 6 /\
  0 < slot_intensity (update (idle (PI / 6) (1 + PI / 6)) (run [freshPoint] init)) 0.
Proof.
  destruct fresh_after as (Ha & Hw & Hm).
  pose proof PI_lower. pose proof PI_upper.
  destruct (update_slot_keep (idle (PI / 6) (1 + PI / 6)) (run [freshPoint] init) 0)
    as (Ha' & Hw' & _).
  { apply run_shape, init_shape. }
  { unfold maxTrailPoints. lia. }
  { apply idle_keeps. }
  rewrite Ha, Hw, Hm in *.
  rewrite decay_live in Ha', Hw' by lra. cbn [fst snd] in *.
  rewrite Ha', Hw'. cbn [deltaTime draws meltDraw idle quietDraws noMelt]. cbv zeta.
  split; [lra|]. unfold noMelt.
  destruct (Rlt_dec (1 / 2) 0.002); [lra|].
  assert (Math_pow ((0 + PI / 6) / 2) (1.5 + sin ((0 + PI / 6) * 3) * 0.3) < 1).
  { apply Math_pow_lt_1; [lra|].
    pose proof (exponent_bounds ((0 + PI / 6) * 3)). lra. }
  rewrite Rmax_right; lra.
Qed.

Lemma intensity_nonincreasing_witness :
  slot_intensity (update (idle (PI / 6) (1 + PI / 3))
                    (update (idle (PI / 6) (1 + PI / 6)) (run [freshPoint] init))) 0
  <= slot_intensity (update (idle (PI / 6) (1 + PI / 6)) (run [freshPoint] init)) 0.
Proof.
  destruct fresh_aged as (Ha & Hw).
  pose proof PI_lower.
  apply (intensity_nonincreasing_when_exponent_does_not_grow
           [freshPoint] (idle (PI / 6) (1 + PI / 6)) (idle (PI / 6) (1 + PI / 3)) 0).
  - exact fresh_valid.
  - apply valid_idle. lra.
  - apply valid_idle. lra.
  - unfold maxTrailPoints. lia.
  - exact Hw.
  - cbn. unfold noMelt. lra.
  - apply idle_keeps.
  - destruct (update_slot_keep (idle (PI / 6) (1 + PI / 3))
                (update (idle (PI / 6) (1 + PI / 6)) (run [freshPoint] init)) 0)
      as (Ha' & _).
    { apply update_shape, run_shape, init_shape. }
    { unfold maxTrailPoints. lia. }
    { apply idle_keeps. }
    rewrite Ha', decay_live by exact Hw. cbn [fst]. rewrite Ha.
    cbn [deltaTime idle].
    replace ((PI / 6 + PI / 6) * 3) with PI by field.
    replace (PI / 6 * 3) with (PI / 2) by field.
    rewrite sin_PI, sin_PI2. lra.
Defined.

End IceTrailScenarios.

(** ** Ice trail: the ring buffer and the shader loop *)

Section IceTrailRing.
Import IceTrail.
Local Open Scope R_scope.

Lemma inserted_snoc fs f st :
  inserted (fs ++ [f]) st =
  inserted fs st ++
  match new_point (elapsedTime f) (intersects f) (isScrolling f) (run fs st) with
  | Some hitUv => [hitUv]
  | None => []
  end.
Proof.
  revert st. induction fs as [|g fs IH]; intros st; cbn [inserted app run fold_left].
  - destruct (new_point _ _ _ st); reflexivity.
  - fold (run fs (update g st)).
    destruct (new_point (elapsedTime g) (intersects g) (isScrolling g) st);
      rewrite IH; reflexivity.
Qed.

Lemma mod_distinct (m n : nat) :
  (m < n)%nat -> (n < m + 64)%nat -> m mod 64 <> n mod 64.
Proof.
  intros Hlt Hclose Heq.
  pose proof (Nat.div_mod m 64). pose proof (Nat.div_mod n 64). lia.
Qed.

Lemma ring_inv_init : ring_inv init [].
Proof.
  split; [apply init_shape|]. cbn. repeat split. intros m Hm. lia.
Qed.

Lemma ring_inv_update f st ps :
  ring_inv st ps ->
  ring_inv (update f st)
    (ps ++ match new_point (elapsedTime f) (intersects f) (isScrolling f) st with
           | Some hitUv => [hitUv]
           | None => []
           end).
Proof.
  intros (Hsh & Hidx & Hcnt & Hu & Hslots).
  split; [by apply update_shape|].
  destruct (new_point (elapsedTime f) (intersects f) (isScrolling f) st)
    as [hitUv|] eqn:Hnp.
  - rewrite length_app. cbn [length].
    pose proof (update_Some f st hitUv Hnp) as Hupd. cbv zeta in Hupd.
    split; [|split; [|split]].
    + rewrite Hupd. cbn [trailIndex]. rewrite Hidx.
      unfold maxTrailPoints. rewrite Nat.Div0.add_mod_idemp_l. reflexivity.
    + rewrite Hupd. cbn [trailCount]. rewrite Hcnt. unfold maxTrailPoints. lia.
    + rewrite Hupd. reflexivity.
    + intros m Hm Hclose. unfold maxTrailPoints in *.
      destruct (Nat.eq_dec m (length ps)) as [->|Hne].
      * rewrite <- Hidx.
        destruct (update_slot_new f st hitUv Hsh Hnp) as (Hu' & Hv' & _).
        rewrite Hu', Hv'. rewrite lookup_app_r by lia.
        rewrite Nat.sub_diag. destruct hitUv; reflexivity.
      * assert (Hno : ~ overwrites f st (m mod 64)).
        { intros [_ Hi]. rewrite Hidx in Hi. unfold maxTrailPoints in Hi.
          symmetry in Hi. revert Hi. apply mod_distinct; lia. }
        destruct (update_slot_keep f st (m mod 64) Hsh) as (_ & _ & _ & Hu' & Hv');
          [unfold maxTrailPoints; apply Nat.mod_upper_bound; lia|exact Hno|].
        rewrite Hu', Hv'. rewrite lookup_app_l by lia. apply Hslots; lia.
  - rewrite app_nil_r.
    pose proof (update_None f st Hnp) as Hupd.
    split; [|split; [|split]].
    + rewrite Hupd. exact Hidx.
    + rewrite Hupd. exact Hcnt.
    + rewrite Hupd. reflexivity.
    + intros m Hm Hclose.
      assert (Hno : ~ overwrites f st (m mod maxTrailPoints)).
      { intros [Hnp' _]. congruence. }
      destruct (update_slot_keep f st (m mod maxTrailPoints) Hsh)
        as (_ & _ & _ & Hu' & Hv');
        [apply Nat.mod_upper_bound; discriminate|exact Hno|].
      rewrite Hu', Hv'. by apply Hslots.
Qed.

Lemma ring_inv_run fs : ring_inv (run fs init) (inserted fs init).
Proof.
  induction fs as [|f fs IH] using rev_ind.
  - apply ring_inv_init.
  - rewrite run_snoc, inserted_snoc. by apply ring_inv_update.
Qed.








End IceTrailRing.

(** ** Ice trail: a run that wraps the ring buffer *)

Section IceTrailWrap.
Import IceTrail IceTrailRuns.
Local Open Scope R_scope.

Lemma laps_S n : laps (S n) = laps n ++ [lapFrame n].
Proof. unfold laps. rewrite seq_S, map_app. reflexivity. Qed.

Lemma run_laps_S n : run (laps (S n)) init = update (lapFrame n) (run (laps n) init).
Proof. rewrite laps_S. apply run_snoc. Qed.

Lemma lapTime_step k : lapTime k + 0.03 <= lapTime (S k).
Proof.
  unfold lapTime. rewrite (S_INR (S k)).
  destruct (Nat.leb_spec 2 k), (Nat.leb_spec 2 (S k)); try lia; lra.
Qed.

Lemma lapTime_0 : lapTime 0 = 0.03.
Proof. unfold lapTime. cbn. lra. Qed.

Lemma laps_valid n : Forall valid_frame (laps n).
Proof.
  apply Forall_forall. intros f Hf.
  apply list_elem_of_fmap in Hf as (k & -> & _).
  apply valid_touch.
  - unfold lapDt. destruct (k =? 2)%nat; lra.
  - unfold lapDraw. destruct (k =? 0)%nat; lra.
Qed.

Lemma lastTrailTime_update_Some f st p :
  new_point (elapsedTime f) (intersects f) (isScrolling f) st = Some p ->
  lastTrailTime (update f st) = elapsedTime f.
Proof. intros H. rewrite (update_Some _ _ _ H). reflexivity. Qed.

(** Every frame of the run finds the insertion guard open. *)
Lemma lap_interval n : lastTrailTime (run (laps n) init) + 0.03 <= lapTime n.
Proof.
  induction n as [|n IH].
  - rewrite lapTime_0. cbn. lra.
  - rewrite run_laps_S.
    rewrite (lastTrailTime_update_Some _ _ (lapUv n)).
    + apply lapTime_step.
    + apply new_point_touch. cbn [elapsedTime lapFrame touch].
      unfold trailInterval. lra.
Qed.

Lemma lap_new_point n :
  new_point (elapsedTime (lapFrame n)) (intersects (lapFrame n))
    (isScrolling (lapFrame n)) (run (laps n) init) = Some (lapUv n).
Proof.
  apply new_point_touch. pose proof (lap_interval n). unfold trailInterval. lra.
Qed.

Lemma laps_inserted n : inserted (laps n) init = map lapUv (seq 0 n).
Proof.
  induction n as [|n IH]; [reflexivity|].
  rewrite laps_S, inserted_snoc, lap_new_point, IH, seq_S, map_app. reflexivity.
Qed.

Lemma lap_cursor n : trailIndex (run (laps n) init) = (n mod 64)%nat.
Proof.
  destruct (ring_inv_run (laps n)) as (_ & Hidx & _).
  rewrite Hidx, laps_inserted, length_map, length_seq. reflexivity.
Qed.

Lemma lap_overwrites n i :
  overwrites (lapFrame n) (run (laps n) init) i <-> i = (n mod 64)%nat.
Proof.
  unfold overwrites. rewrite lap_new_point, lap_cursor. split.
  - intros [_ H]. by symmetry.
  - intros ->. split; [discriminate|reflexivity].
Qed.

Lemma lap_shape n : shape (run (laps n) init).
Proof. apply run_shape, init_shape. Qed.

(** The slots 0 and 1 after the first three frames. *)
Lemma lap_after_3 :
  slot_age (run (laps 3) init) 0 = 2.53 /\
  slot_intensity (run (laps 3) init) 0 = 0 /\
  slot_age (run (laps 3) init) 1 = 2.5 /\
  0 < slot_intensity (run (laps 3) init) 1 /\
  slot_maxAge (run (laps 3) init) 1 = 4.97.
Proof.
  (* frame 0 writes slot 0 *)
  destruct (update_slot_new (lapFrame 0) (run (laps 0) init) (lapUv 0)
              (lap_shape 0) (lap_new_point 0)) as (_ & _ & Ha0 & Hw0 & Hm0).
  rewrite lap_cursor in Ha0, Hw0, Hm0. rewrite <- run_laps_S in Ha0, Hw0, Hm0.
  change (0 mod 64)%nat with 0%nat in *.
  (* frame 1 ages slot 0 and writes slot 1 *)
  destruct (update_slot_keep (lapFrame 1) (run (laps 1) init) 0 (lap_shape 1))
    as (Ha1 & Hw1 & Hm1 & _);
    [unfold maxTrailPoints; lia | rewrite lap_overwrites; discriminate |].
  destruct (update_slot_new (lapFrame 1) (run (laps 1) init) (lapUv 1)
              (lap_shape 1) (lap_new_point 1)) as (_ & _ & Hb1 & Hv1 & Hn1).
  rewrite lap_cursor in Hb1, Hv1, Hn1.
  rewrite <- run_laps_S in Ha1, Hw1, Hm1, Hb1, Hv1, Hn1.
  change (1 mod 64)%nat with 1%nat in *.
  rewrite Ha0, Hw0, Hm0 in Ha1. rewrite Ha0, Hw0, Hm0 in Hw1. rewrite Hm0 in Hm1.
  rewrite decay_live in Ha1, Hw1 by lra. cbn [fst snd] in Ha1, Hw1.
  cbn [deltaTime draws meltDraw ageDraw lapFrame touch quietDraws] in *.
  unfold noMelt, lapDt, lapDraw in *. cbn [Nat.eqb] in *. cbv zeta in Hw1.
  destruct (Rlt_dec (1 / 2) 0.002) as [?|_]; [lra|].
  assert (Hlive1 : 0 < slot_intensity (run (laps 2) init) 0).
  { rewrite Hw1.
    assert (Math_pow ((0 + 0.03) / (2 + 0 * 3))
              (1.5 + sin ((0 + 0.03) * 3) * 0.3) < 1).
    { apply Math_pow_lt_1; [lra|].
      pose proof (exponent_bounds ((0 + 0.03) * 3)). lra. }
    rewrite Rmax_right; lra. }
  (* frame 2 ages slots 0 and 1 *)
  destruct (update_slot_keep (lapFrame 2) (run (laps 2) init) 0 (lap_shape 2))
    as (Ha2 & Hw2 & _);
    [unfold maxTrailPoints; lia | rewrite lap_overwrites; discriminate |].
  destruct (update_slot_keep (lapFrame 2) (run (laps 2) init) 1 (lap_shape 2))
    as (Hb2 & Hv2 & Hn2 & _);
    [unfold maxTrailPoints; lia | rewrite lap_overwrites; discriminate |].
  rewrite <- run_laps_S in Ha2, Hw2, Hb2, Hv2, Hn2.
  rewrite decay_live in Ha2, Hw2 by exact Hlive1.
  rewrite Hb1, Hv1, Hn1 in Hb2. rewrite Hb1, Hv1, Hn1 in Hv2. rewrite Hn1 in Hn2.
  rewrite decay_live in Hb2, Hv2 by lra.
  cbn [fst snd] in Ha2, Hw2, Hb2, Hv2.
  cbn [deltaTime draws meltDraw ageDraw lapFrame touch quietDraws] in *.
  unfold noMelt, lapDt in *. cbn [Nat.eqb] in *. cbv zeta in Hw2, Hv2.
  destruct (Rlt_dec (1 / 2) 0.002) as [?|_]; [lra|].
  rewrite Ha1 in Ha2. rewrite Ha1, Hm1 in Hw2.
  split; [rewrite Ha2; lra|]. split.
  { rewrite Hw2.
    assert (1 <= Math_pow ((0 + 0.03 + 2.5) / (2 + 0 * 3))
                   (1.5 + sin ((0 + 0.03 + 2.5) * 3) * 0.3)).
    { apply Math_pow_ge_1; [lra|].
      pose proof (exponent_bounds ((0 + 0.03 + 2.5) * 3)). lra. }
    rewrite Rmax_left; lra. }
  split; [rewrite Hb2; lra|]. split; [|rewrite Hn2; lra].
  rewrite Hv2.
  assert (Math_pow ((0 + 2.5) / (2 + 0.99 * 3))
            (1.5 + sin ((0 + 2.5) * 3) * 0.3) < 1).
  { apply Math_pow_lt_1; [lra|].
    pose proof (exponent_bounds ((0 + 2.5) * 3)). lra. }
  rewrite Rmax_right; lra.
Qed.

(** From frame 3 up to the wrap, slot 0 stays dead at age 2.53 while the
    point in slot 1 keeps ageing and stays live. *)
Lemma lap_before_wrap d :
  (3 + d <= 64)%nat ->
  slot_age (run (laps (3 + d)) init) 0 = 2.53 /\
  slot_intensity (run (laps (3 + d)) init) 0 = 0 /\
  slot_age (run (laps (3 + d)) init) 1 = 2.5 + 0.03 * INR d /\
  0 < slot_intensity (run (laps (3 + d)) init) 1 /\
  slot_maxAge (run (laps (3 + d)) init) 1 = 4.97.
Proof.
  induction d as [|d IH]; intros Hd.
  - rewrite Nat.add_0_r. destruct lap_after_3 as (H1 & H2 & H3 & H4 & H5).
    cbn [INR]. repeat split; try assumption. lra.
  - destruct IH as (Ha & Hw & Hb & Hv & Hn); [lia|].
    replace (3 + S d)%nat with (S (3 + d)) by lia.
    assert (Hmod : ((3 + d) mod 64 = 3 + d)%nat) by (apply Nat.mod_small; lia).
    destruct (update_slot_keep (lapFrame (3 + d)) (run (laps (3 + d)) init) 0
                (lap_shape (3 + d))) as (Ha' & Hw' & _);
      [unfold maxTrailPoints; lia | rewrite lap_overwrites, Hmod; lia |].
    destruct (update_slot_keep (lapFrame (3 + d)) (run (laps (3 + d)) init) 1
                (lap_shape (3 + d))) as (Hb' & Hv' & Hn' & _);
      [unfold maxTrailPoints; lia | rewrite lap_overwrites, Hmod; lia |].
    rewrite <- run_laps_S in Ha', Hw', Hb', Hv', Hn'.
    rewrite decay_dead in Ha', Hw' by (rewrite Hw; lra).
    rewrite decay_live in Hb', Hv' by exact Hv.
    cbn [fst snd] in Ha', Hw', Hb', Hv'.
    assert (Hdt : deltaTime (lapFrame (3 + d)) = 0.03) by reflexivity.
    assert (Hmelt : meltDraw (draws (lapFrame (3 + d))) 1%nat = 1 / 2) by reflexivity.
    rewrite Hdt in Hb', Hv'. rewrite Hmelt in Hv'. rewrite Hb, Hn in Hv'.
    cbv zeta in Hv'.
    destruct (Rlt_dec (1 / 2) 0.002) as [?|_]; [lra|].
    assert (Hd' : INR d <= 60).
    { replace 60 with (INR 60) by (rewrite INR_IZR_INZ; reflexivity).
      apply le_INR. lia. }
    pose proof (pos_INR d) as Hd0.
    split; [rewrite Ha'; exact Ha|]. split; [rewrite Hw'; exact Hw|].
    split; [rewrite Hb', Hb, S_INR; lra|]. split; [|rewrite Hn'; exact Hn].
    rewrite Hv'.
    assert (Math_pow ((2.5 + 0.03 * INR d + 0.03) / 4.97)
              (1.5 + sin ((2.5 + 0.03 * INR d + 0.03) * 3) * 0.3) < 1).
    { apply Math_pow_lt_1.
      - lra.
      - pose proof (exponent_bounds ((2.5 + 0.03 * INR d + 0.03) * 3)). lra. }
    rewrite Rmax_right; lra.
Qed.

Lemma live_points_le st : (live_points st <= maxTrailPoints)%nat.
Proof.
  unfold live_points.
  assert (H : forall (p : nat -> bool) l, (length (List.filter p l) <= length l)%nat).
  { intros p l. induction l as [|a l IH]; cbn; [lia|]. destruct (p a); cbn; lia. }
  etransitivity; [apply H|]. by rewrite length_seq.
Qed.

Lemma overwritten_slot_is_not_the_oldest :
  overwrites (lapFrame 64) (run (laps 64) init) 0 /\
  trailCount (run (laps 64) init) = 64%nat /\
  0 < slot_intensity (run (laps 64) init) 1 /\
  slot_age (run (laps 64) init) 0 < slot_age (run (laps 64) init) 1.
Proof.
  destruct (lap_before_wrap 61) as (Ha & _ & Hb & Hv & _); [lia|].
  change (3 + 61)%nat with 64%nat in *.
  split; [by apply lap_overwrites|]. split.
  { destruct (ring_inv_run (laps 64)) as (_ & _ & Hcnt & _).
    rewrite Hcnt, laps_inserted, length_map, length_seq. reflexivity. }
  split; [exact Hv|]. rewrite Ha, Hb.
  rewrite INR_IZR_INZ. change (Z.of_nat 61) with 61%Z. lra.
Qed.

Lemma not_overwrites_oldest_by_age : ~ overwrites_oldest_by_age.
Proof.
  intros H.
  destruct overwritten_slot_is_not_the_oldest as (Hov & _ & Hv & Hlt).
  specialize (H (laps 64) (lapFrame 64) 0%nat 1%nat (laps_valid 64)).
  apply Rlt_not_le in Hlt. apply Hlt, H; try assumption.
  - pose proof (laps_valid 65) as H65. rewrite laps_S in H65.
    apply Forall_app in H65 as [_ H65]. by inversion H65.
  - unfold maxTrailPoints. lia.
Qed.

(** C2.  After any sequence of [update] calls the count of stored points
    and the number of live points are at most 64 and the cursor is a valid
    slot.  A call that inserts writes the new point, with age 0 and
    intensity 1, into the slot under the cursor, advances the cursor by one
    modulo 64 and raises the count, which stays at 64 once it is 64.  The
    slot is chosen by the cursor alone: it need not hold the point of
    largest age. *)
Theorem ring_buffer_overwrites_at_cursor (fs : list Frame) (f : Frame) :
  ((trailCount (run fs init) <= 64)%nat /\
   (live_points (run fs init) <= 64)%nat /\
   (trailIndex (run fs init) < 64)%nat) /\
  (forall hitUv,
     new_point (elapsedTime f) (intersects f) (isScrolling f) (run fs init)
       = Some hitUv ->
     slot_texel (trailData (update f (run fs init))) (trailIndex (run fs init))
       = (fst hitUv, snd hitUv, 0, 1) /\
     trailIndex (update f (run fs init))
       = ((trailIndex (run fs init) + 1) mod 64)%nat /\
     trailCount (update f (run fs init))
       = Nat.min (trailCount (run fs init) + 1) 64 /\
     (trailCount (run fs init) = 64%nat ->
      trailCount (update f (run fs init)) = 64%nat)) /\
  ~ overwrites_oldest_by_age.
Proof.
  pose proof (run_shape fs init init_shape) as Hsh.
  set (st := run fs init) in *.
  pose proof Hsh as (_ & _ & Hi & Hc). unfold maxTrailPoints in Hi, Hc.
  split; [|split; [|exact not_overwrites_oldest_by_age]].
  - split; [exact Hc|]. split; [apply live_points_le|exact Hi].
  - intros hitUv Hnp.
    destruct (update_slot_new f st hitUv Hsh Hnp) as (Hu & Hv & Ha & Hw & _).
    pose proof (update_Some f st hitUv Hnp) as Hupd. cbv zeta in Hupd.
    split; [|split; [|split]].
    + change (slot_texel (trailData (update f st)) (trailIndex st))
        with (slot_u (update f st) (trailIndex st),
              slot_v (update f st) (trailIndex st),
              slot_age (update f st) (trailIndex st),
              slot_intensity (update f st) (trailIndex st)).
      rewrite Hu, Hv, Ha, Hw. reflexivity.
    + rewrite Hupd. reflexivity.
    + rewrite Hupd. reflexivity.
    + intros H64. rewrite Hupd. cbn [trailCount]. rewrite H64. reflexivity.
Qed.

Lemma ring_buffer_overwrites_at_cursor_witness :
  trailIndex (update (lapFrame 64) (run (laps 64) init))
    = ((trailIndex (run (laps 64) init) + 1) mod 64)%nat /\
  trailCount (update (lapFrame 64) (run (laps 64) init)) = 64%nat.
Proof.
  destruct (ring_buffer_overwrites_at_cursor (laps 64) (lapFrame 64))
    as (_ & Hins & _).
  destruct (Hins (lapUv 64) (lap_new_point 64)) as (_ & Hi & _ & Hc).
  split; [exact Hi|]. apply Hc.
  destruct overwritten_slot_is_not_the_oldest as (_ & H & _). exact H.
Defined.


End IceTrailWrap.

(** ** Texture loaders: the shared ice bundle *)

Section SharedIceTextures.
Import TextureLoaders.

Lemma first_call_loads (onLoaded : option Callback) :
  exists t,
    snd (loadSharedIceTextures onLoaded iceInit) = Some t /\
    loadedWith t (match onLoaded with Some cb => [(cb, t)] | None => [] end)
      (fst (loadSharedIceTextures onLoaded iceInit)).
Proof.
  destruct onLoaded as [cb|]; eexists; (split; [reflexivity|]);
    unfold loadedWith; cbn; repeat split; reflexivity.
Qed.

Lemma later_call_returns t log onLoaded s :
  loadedWith t log s ->
  snd (loadSharedIceTextures onLoaded s) = Some t /\
  loadedWith t (log ++ match onLoaded with Some cb => [(cb, t)] | None => [] end)
    (fst (loadSharedIceTextures onLoaded s)).
Proof.
  intros (Ht & Hl & Hq & Hc & Hi). unfold loadSharedIceTextures. rewrite Ht.
  split; [reflexivity|]. unfold loadedWith.
  destruct onLoaded as [cb|]; cbn; rewrite ?app_nil_r; repeat split; congruence.
Qed.

Lemma loadAll_loaded t log cbs s :
  loadedWith t log s ->
  snd (loadAll cbs s) = map (fun _ => Some t) cbs /\
  loadedWith t (log ++ map (fun cb => (cb, t)) cbs) (fst (loadAll cbs s)).
Proof.
  revert log s. induction cbs as [|cb cbs IH]; intros log s Hs; cbn [loadAll map].
  - rewrite app_nil_r. split; [reflexivity|exact Hs].
  - destruct (later_call_returns t log (Some cb) s Hs) as [Hr Hs1].
    destruct (loadSharedIceTextures (Some cb) s) as [s1 r] eqn:E1.
    cbn [fst snd] in Hr, Hs1. subst r.
    destruct (IH _ _ Hs1) as [Hrs Hs2].
    destruct (loadAll cbs s1) as [s2 rs] eqn:E2. cbn [fst snd] in *.
    split; [by rewrite Hrs|]. by rewrite <- app_assoc in Hs2.
Qed.

(** The queueing branch is dead code between calls: in every state reached
    from the initial one by calls of [loadSharedIceTextures], a set loading
    flag comes with a loaded bundle and an empty queue. *)
Lemma loading_flag_means_loaded (calls : list (option Callback)) :
  let s := fold_left (fun s c => fst (loadSharedIceTextures c s)) calls iceInit in
  sharedIceTexturesLoading s = true ->
  sharedIceTextures s <> None /\ iceTexturesCallbacks s = [].
Proof.
  cbv zeta.
  assert (H : forall s,
    (s = iceInit \/ exists t log, loadedWith t log s) ->
    let s' := fold_left (fun s c => fst (loadSharedIceTextures c s)) calls s in
    sharedIceTexturesLoading s' = true ->
    sharedIceTextures s' <> None /\ iceTexturesCallbacks s' = []).
  { induction calls as [|c calls IH]; intros s Hs; cbn [fold_left].
    - destruct Hs as [->|(t & log & Ht & _ & Hq & _)]; [discriminate|].
      intros _. split; [congruence|exact Hq].
    - apply IH. right. destruct Hs as [->|(t & log & Hs)].
      + destruct (first_call_loads c) as (t & _ & Hs). eauto.
      + destruct (later_call_returns t log c s Hs) as (_ & Hs'). eauto. }
  apply H. by left.
Qed.

(** C3.  N >= 1 successive calls of [loadSharedIceTextures], each with a
    callback, starting before the bundle exists: the five textures are
    requested exactly once, every callback is invoked exactly once, in
    registration order, and all of them and all the calls receive one and
    the same bundle object; any later call returns that bundle at once and
    requests nothing. *)
Theorem shared_ice_textures_load_once (cb : Callback) (cbs : list Callback) :
  exists t : IceTextures,
    loadCalls (fst (loadAll (cb :: cbs) iceInit)) = iceUrls /\
    invoked (fst (loadAll (cb :: cbs) iceInit))
      = map (fun c => (c, t)) (cb :: cbs) /\
    snd (loadAll (cb :: cbs) iceInit) = map (fun _ => Some t) (cb :: cbs) /\
    getSharedIceTextures (fst (loadAll (cb :: cbs) iceInit)) = Some t /\
    forall later : option Callback,
      snd (loadSharedIceTextures later (fst (loadAll (cb :: cbs) iceInit)))
        = Some t /\
      loadCalls (fst (loadSharedIceTextures later
                        (fst (loadAll (cb :: cbs) iceInit)))) = iceUrls.
Proof.
  destruct (first_call_loads (Some cb)) as (t & Hr & Hs).
  exists t. cbn [loadAll].
  destruct (loadSharedIceTextures (Some cb) iceInit) as [s1 r] eqn:E1.
  cbn [fst snd] in Hr, Hs. subst r.
  destruct (loadAll_loaded t [(cb, t)] cbs s1 Hs) as [Hrs Hs2].
  destruct (loadAll cbs s1) as [s2 rs] eqn:E2. cbn [fst snd] in *.
  pose proof Hs2 as (Ht & _ & _ & Hc & Hi).
  split; [exact Hc|]. split; [exact Hi|]. split; [by rewrite Hrs|].
  split; [exact Ht|].
  intros later. destruct (later_call_returns t _ later s2 Hs2) as (Hr' & Hs').
  split; [exact Hr'|]. by destruct Hs' as (_ & _ & _ & Hc' & _).
Qed.

End SharedIceTextures.

(** ** Texture loaders: the model cache *)

Section ModelCache.
Import TextureLoaders.

(** Induction over scene-graph trees, with the hypothesis for every child. *)
Fixpoint Object3D_forall_ind (P : Object3D -> Prop)
    (H : forall i g m cs, Forall P cs -> P (Obj i g m cs))
    (o : Object3D) : P o :=
  match o with
  | Obj i g m cs =>
      H i g m cs
        ((fix go (cs : list Object3D) : Forall P cs :=
            match cs with
            | [] => @List.Forall_nil _ P
            | c :: cs' => @List.Forall_cons _ P c cs' (Object3D_forall_ind P H c) (go cs')
            end) cs)
  end.

Fixpoint Blueprint_forall_ind (P : Blueprint -> Prop)
    (H : forall t g m cs, Forall P cs -> P (Bp t g m cs))
    (b : Blueprint) : P b :=
  match b with
  | Bp t g m cs =>
      H t g m cs
        ((fix go (cs : list Blueprint) : Forall P cs :=
            match cs with
            | [] => @List.Forall_nil _ P
            | c :: cs' => @List.Forall_cons _ P c cs' (Blueprint_forall_ind P H c) (go cs')
            end) cs)
  end.

Lemma clone_unfold i g m cs h :
  clone (Obj i g m cs) h =
  let '(j, h1) := alloc (transformOf h i) h in
  let '(cs', h2) := cloneAll cs h1 in
  (Obj j g m cs', h2).
Proof. reflexivity. Qed.

Lemma instantiate_unfold t g m cs h :
  instantiate (Bp t g m cs) h =
  let '(i, h1) := alloc t h in
  let '(cs', h2) := instantiateAll cs h1 in
  (Obj i g m cs', h2).
Proof. reflexivity. Qed.

Lemma extends_refl h : extends h h.
Proof. split; [lia|auto]. Qed.

Lemma extends_trans h1 h2 h3 : extends h1 h2 -> extends h2 h3 -> extends h1 h3.
Proof.
  intros [H1 H2] [H3 H4]. split; [lia|].
  intros k Hk. rewrite H4 by lia. by apply H2.
Qed.

Lemma extends_alloc t h : extends h (snd (alloc t h)).
Proof.
  split; cbn; [lia|]. intros k Hk. rewrite lookup_insert_ne by lia. reflexivity.
Qed.

Lemma transformOf_extends h h' k :
  extends h h' -> k < nextId h -> transformOf h' k = transformOf h k.
Proof. intros [_ H] Hk. unfold transformOf. by rewrite H. Qed.

Lemma transformOf_alloc t h : transformOf (snd (alloc t h)) (nextId h) = t.
Proof. unfold transformOf. cbn. by rewrite lookup_insert_eq. Qed.

Lemma ids_unfold i g m cs : ids (Obj i g m cs) = i :: flat_map ids cs.
Proof. reflexivity. Qed.

Lemma snapshot_extends h h' o :
  extends h h' -> allocated h o -> snapshot h' o = snapshot h o.
Proof.
  intros Hext. induction o as [i g m cs IH] using Object3D_forall_ind.
  unfold allocated. rewrite ids_unfold. intros Hal.
  apply Forall_cons in Hal as [Hi Hcs]. cbn [snapshot].
  rewrite (transformOf_extends h h') by assumption. f_equal.
  induction IH as [|c cs Hc _ IHcs]; [reflexivity|].
  cbn [flat_map] in Hcs. apply Forall_app in Hcs as [Hc' Hcs'].
  cbn [map]. rewrite Hc by exact Hc'. f_equal. by apply IHcs.
Qed.

Lemma fresh_weaken h1 h2 h3 h4 o :
  nextId h1 <= nextId h2 -> nextId h3 <= nextId h4 ->
  fresh h2 h3 o -> fresh h1 h4 o.
Proof.
  intros H1 H2 Hf. unfold fresh in *.
  eapply Forall_impl; [exact Hf|]. cbn. intros x Hx. lia.
Qed.

Lemma fresh_allocated h h' o : fresh h h' o -> allocated h' o.
Proof.
  unfold fresh, allocated. intros Hf.
  eapply Forall_impl; [exact Hf|]. cbn. intros x Hx. lia.
Qed.

Lemma allocated_extends h h' o : extends h h' -> allocated h o -> allocated h' o.
Proof.
  intros [Hn _] Hf. unfold allocated in *.
  eapply Forall_impl; [exact Hf|]. cbn. intros x Hx. lia.
Qed.

Lemma cloneAll_ok cs :
  Forall clone_ok cs ->
  forall h0 h, extends h0 h -> Forall (allocated h0) cs ->
    extends h (snd (cloneAll cs h)) /\
    Forall (fresh h (snd (cloneAll cs h))) (fst (cloneAll cs h)) /\
    map (snapshot (snd (cloneAll cs h))) (fst (cloneAll cs h))
      = map (snapshot h0) cs.
Proof.
  induction 1 as [|c cs Hc _ IH]; intros h0 h Hext Hal; cbn [cloneAll].
  - split; [apply extends_refl|]. split; [constructor|reflexivity].
  - apply Forall_cons in Hal as [Halc Halcs].
    destruct (Hc h) as (He1 & Hf1 & Hs1); [by apply (allocated_extends h0)|].
    destruct (clone c h) as [o h1]. cbn [fst snd] in *.
    destruct (IH h0 h1) as (He2 & Hf2 & Hs2);
      [by apply (extends_trans h0 h) | exact Halcs |].
    destruct (cloneAll cs h1) as [os h2]. cbn [fst snd] in *.
    split; [by apply (extends_trans h h1)|]. split.
    + constructor.
      * apply (fresh_weaken h h h1 h2); [lia | apply He2 | exact Hf1].
      * eapply Forall_impl; [exact Hf2|]. intros x.
        apply fresh_weaken; [apply He1 | lia].
    + cbn [map]. f_equal; [|exact Hs2].
      rewrite (snapshot_extends h1 h2) by (try assumption; by apply (fresh_allocated h)).
      rewrite Hs1. apply snapshot_extends; assumption.
Qed.

Lemma clone_spec o : clone_ok o.
Proof.
  induction o as [i g m cs IH] using Object3D_forall_ind.
  intros h Hal. rewrite clone_unfold.
  unfold allocated in Hal. rewrite ids_unfold in Hal.
  apply Forall_cons in Hal as [Hi Hcs].
  assert (Hal' : Forall (allocated h) cs).
  { clear IH. induction cs as [|c cs IHcs]; [constructor|].
    cbn [flat_map] in Hcs. apply Forall_app in Hcs as [Hc Hcs].
    constructor; [exact Hc | by apply IHcs]. }
  pose proof (extends_alloc (transformOf h i) h) as He1.
  pose proof (transformOf_alloc (transformOf h i) h) as Ht.
  destruct (alloc (transformOf h i) h) as [j h1] eqn:Ea.
  assert (Hj : j = nextId h) by (by inversion Ea).
  assert (Hn1 : nextId h1 = S (nextId h)) by (by inversion Ea).
  cbn [fst snd] in *.
  destruct (cloneAll_ok cs IH h h1 He1 Hal') as (He2 & Hf2 & Hs2).
  destruct (cloneAll cs h1) as [cs' h2]. cbn [fst snd] in *.
  split; [by apply (extends_trans h h1)|]. split.
  - unfold fresh. rewrite ids_unfold. constructor.
    + destruct He2 as [He2 _]. lia.
    + apply Forall_flat_map.
      eapply Forall_impl; [exact Hf2|]. intros x.
      apply fresh_weaken; lia.
  - cbn [snapshot]. f_equal; [|exact Hs2].
    rewrite (transformOf_extends h1 h2) by (try assumption; lia).
    subst j. exact Ht.
Qed.

Lemma instantiateAll_ok cs :
  Forall instantiate_ok cs ->
  forall h,
    extends h (snd (instantiateAll cs h)) /\
    Forall (fresh h (snd (instantiateAll cs h))) (fst (instantiateAll cs h)) /\
    map (snapshot (snd (instantiateAll cs h))) (fst (instantiateAll cs h)) = cs.
Proof.
  induction 1 as [|c cs Hc _ IH]; intros h; cbn [instantiateAll].
  - split; [apply extends_refl|]. split; [constructor|reflexivity].
  - destruct (Hc h) as (He1 & Hf1 & Hs1).
    destruct (instantiate c h) as [o h1]. cbn [fst snd] in *.
    destruct (IH h1) as (He2 & Hf2 & Hs2).
    destruct (instantiateAll cs h1) as [os h2]. cbn [fst snd] in *.
    split; [by apply (extends_trans h h1)|]. split.
    + constructor.
      * apply (fresh_weaken h h h1 h2); [lia | apply He2 | exact Hf1].
      * eapply Forall_impl; [exact Hf2|]. intros x.
        apply fresh_weaken; [apply He1 | lia].
    + cbn [map]. f_equal; [|exact Hs2].
      rewrite (snapshot_extends h1 h2) by (try assumption; by apply (fresh_allocated h)).
      exact Hs1.
Qed.

Lemma instantiate_spec b : instantiate_ok b.
Proof.
  induction b as [t g m cs IH] using Blueprint_forall_ind.
  intros h. rewrite instantiate_unfold.
  pose proof (extends_alloc t h) as He1.
  pose proof (transformOf_alloc t h) as Ht.
  destruct (alloc t h) as [j h1] eqn:Ea.
  assert (Hj : j = nextId h) by (by inversion Ea).
  assert (Hn1 : nextId h1 = S (nextId h)) by (by inversion Ea).
  cbn [fst snd] in *.
  destruct (instantiateAll_ok cs IH h1) as (He2 & Hf2 & Hs2).
  destruct (instantiateAll cs h1) as [cs' h2]. cbn [fst snd] in *.
  split; [by apply (extends_trans h h1)|]. split.
  - unfold fresh. rewrite ids_unfold. constructor.
    + destruct He2 as [He2 _]. lia.
    + apply Forall_flat_map.
      eapply Forall_impl; [exact Hf2|]. intros x.
      apply fresh_weaken; lia.
  - cbn [snapshot]. f_equal; [|exact Hs2].
    rewrite (transformOf_extends h1 h2) by (try assumption; lia).
    subst j. exact Ht.
Qed.

Lemma apart_allocated_fresh h h' o1 o2 :
  allocated h o1 -> fresh h h' o2 -> apart o1 o2.
Proof.
  unfold allocated, fresh, apart. rewrite !Forall_forall.
  intros H1 H2 x Hx1 Hx2. specialize (H1 x Hx1). specialize (H2 x Hx2). lia.
Qed.

Lemma apart_sym o1 o2 : apart o1 o2 -> apart o2 o1.
Proof. unfold apart. intros H x H1 H2. exact (H x H2 H1). Qed.

Lemma apart_neq o1 o2 : apart o1 o2 -> o1 <> o2.
Proof.
  intros H ->. destruct o2 as [i g m cs]. apply (H i); rewrite ids_unfold; left.
Qed.

(** Setting the transform of an object outside a subtree does not change
    the subtree. *)
Lemma snapshot_setTransform i t h o :
  i ∉ ids o -> snapshot (setTransform i t h) o = snapshot h o.
Proof.
  induction o as [j g m cs IH] using Object3D_forall_ind.
  rewrite ids_unfold. intros Hni.
  apply not_elem_of_cons in Hni as [Hne Hcs]. cbn [snapshot]. f_equal.
  - unfold transformOf, setTransform. cbn. by rewrite lookup_insert_ne.
  - induction IH as [|c cs Hc _ IHcs]; [reflexivity|].
    cbn [flat_map] in Hcs. apply not_elem_of_app in Hcs as [Hc' Hcs'].
    cbn [map]. rewrite Hc by exact Hc'. f_equal. by apply IHcs.
Qed.

Lemma lastLoaded_snoc p es e :
  lastLoaded p (es ++ [e]) =
  match e with
  | Loaded q b => if bool_decide (q = p) then Some b else lastLoaded p es
  | _ => lastLoaded p es
  end.
Proof. unfold lastLoaded. rewrite fold_left_app. reflexivity. Qed.

Lemma steps_snoc es e s : steps (es ++ [e]) s = step (steps es s) e.
Proof. unfold steps. rewrite fold_left_app. reflexivity. Qed.

Lemma loadModel_hit path c (s : ModelState) :
  modelCache s !! path = Some c ->
  loadModel path s =
  ({| modelCache := modelCache s;
      heap := snd (clone c (heap s));
      handed := handed s ++ [fst (clone c (heap s))] |},
   Some (fst (clone c (heap s)))).
Proof.
  intros H. unfold loadModel. rewrite H. by destruct (clone c (heap s)).
Qed.

Lemma loadModel_miss path (s : ModelState) :
  modelCache s !! path = None -> loadModel path s = (s, None).
Proof. intros H. unfold loadModel. by rewrite H. Qed.

Lemma onLoad_eq path gltf (s : ModelState) :
  onLoad path gltf s =
  let model := fst (instantiate gltf (heap s)) in
  let h := snd (instantiate gltf (heap s)) in
  ({| modelCache := <[path := model]> (modelCache s);
      heap := snd (clone model h);
      handed := handed s ++ [fst (clone model h)] |},
   fst (clone model h)).
Proof.
  unfold onLoad. destruct (instantiate gltf (heap s)) as [model h].
  cbn [fst snd]. by destruct (clone model h).
Qed.

Lemma Forall_allocated_extends h h' (l : list Object3D) :
  extends h h' -> Forall (allocated h) l -> Forall (allocated h') l.
Proof.
  intros He Hl. eapply Forall_impl; [exact Hl|]. intros o.
  by apply allocated_extends.
Qed.

(** A cache hit: the clone is new, equal in structure to the original,
    and the invariant is kept. *)
Lemma hit_spec path c (s : ModelState) :
  cache_ok s -> modelCache s !! path = Some c ->
  let s' := fst (loadModel path s) in
  exists r,
    snd (loadModel path s) = Some r /\
    modelCache s' = modelCache s /\
    handed s' = handed s ++ [r] /\
    extends (heap s) (heap s') /\
    fresh (heap s) (heap s') r /\
    snapshot (heap s') r = snapshot (heap s) c /\
    cache_ok s'.
Proof.
  intros (Hc & Hh & Hd) Hp. cbv zeta. rewrite (loadModel_hit path c s Hp).
  cbn [fst snd].
  destruct (clone_spec c (heap s) (Hc _ _ Hp)) as (He & Hf & Hs).
  exists (fst (clone c (heap s))). cbn [modelCache heap handed].
  repeat (split; [first [reflexivity | assumption]|]).
  split; [|split].
  - intros p c' Hp'. apply (allocated_extends (heap s)); [exact He|by eapply Hc].
  - apply Forall_app. split.
    + by apply (Forall_allocated_extends (heap s)).
    + constructor; [by eapply fresh_allocated|constructor].
  - intros p c' Hp'. apply Forall_app. split; [by eapply Hd|].
    constructor; [|constructor].
    apply (apart_allocated_fresh (heap s) (snd (clone c (heap s)))); [by eapply Hc|exact Hf].
Qed.

(** The completion of a load: the original is new and has the structure
    of the file, the clone is new and equal in structure, and the invariant
    is kept. *)
Lemma onLoad_spec path gltf (s : ModelState) :
  cache_ok s ->
  let s' := fst (onLoad path gltf s) in
  let r := snd (onLoad path gltf s) in
  exists c,
    modelCache s' = <[path := c]> (modelCache s) /\
    handed s' = handed s ++ [r] /\
    extends (heap s) (heap s') /\
    fresh (heap s) (heap s') c /\
    fresh (heap s) (heap s') r /\
    apart c r /\
    snapshot (heap s') c = gltf /\
    snapshot (heap s') r = gltf /\
    cache_ok s'.
Proof.
  intros (Hc & Hh & Hd). cbv zeta. rewrite onLoad_eq. cbv zeta. cbn [fst snd].
  destruct (instantiate_spec gltf (heap s)) as (He1 & Hf1 & Hs1).
  set (model := fst (instantiate gltf (heap s))) in *.
  set (h1 := snd (instantiate gltf (heap s))) in *.
  destruct (clone_spec model h1 (fresh_allocated _ _ _ Hf1)) as (He2 & Hf2 & Hs2).
  set (r := fst (clone model h1)) in *. set (h2 := snd (clone model h1)) in *.
  pose proof (extends_trans _ _ _ He1 He2) as He.
  assert (Hcr : apart model r).
  { apply (apart_allocated_fresh h1 h2); [by eapply fresh_allocated|exact Hf2]. }
  assert (Hsm : snapshot h2 model = gltf).
  { rewrite (snapshot_extends h1 h2); [exact Hs1|exact He2|by eapply fresh_allocated]. }
  exists model. cbn [modelCache heap handed].
  split; [reflexivity|]. split; [reflexivity|]. split; [exact He|].
  split; [apply (fresh_weaken (heap s) (heap s) h1 h2); [lia|apply He2|exact Hf1]|].
  split; [apply (fresh_weaken (heap s) h1 h2 h2); [apply He1|lia|exact Hf2]|].
  split; [exact Hcr|]. split; [exact Hsm|]. split; [by rewrite Hs2|].
  split; [|split].
  - intros p c' Hp'. cbn [modelCache] in Hp'.
    destruct (decide (path = p)) as [->|Hne].
    + rewrite lookup_insert_eq in Hp'. injection Hp' as <-.
      apply (allocated_extends h1); [exact He2|by eapply fresh_allocated].
    + rewrite lookup_insert_ne in Hp' by exact Hne.
      apply (allocated_extends (heap s)); [exact He|by eapply Hc].
  - apply Forall_app. split.
    + by apply (Forall_allocated_extends (heap s)).
    + constructor; [by eapply fresh_allocated|constructor].
  - intros p c' Hp'. cbn [modelCache] in Hp'.
    destruct (decide (path = p)) as [->|Hne].
    + rewrite lookup_insert_eq in Hp'. injection Hp' as <-.
      apply Forall_app. split; [|constructor; [exact Hcr|constructor]].
      eapply Forall_impl; [exact Hh|]. intros o Ho. apply apart_sym.
      by apply (apart_allocated_fresh (heap s) h1).
    + rewrite lookup_insert_ne in Hp' by exact Hne.
      apply Forall_app. split; [by eapply Hd|].
      constructor; [|constructor].
      apply (apart_allocated_fresh h1 h2); [|exact Hf2].
      apply (allocated_extends (heap s)); [exact He1|by eapply Hc].
Qed.

Lemma allocated_setTransform i t h o :
  allocated (setTransform i t h) o <-> allocated h o.
Proof. reflexivity. Qed.

Lemma cache_step_ok es e (s : ModelState) :
  cache_ok s -> originals_intact es s ->
  cache_ok (step s e) /\ originals_intact (es ++ [e]) (step s e).
Proof.
  intros Hok Hint. pose proof Hok as (Hc & Hh & Hd).
  destruct e as [path|path gltf|i t]; cbn [step].
  - (* a call *)
    destruct (modelCache s !! path) as [c|] eqn:Hp.
    + destruct (hit_spec path c s Hok Hp) as (r & _ & Hm & _ & He & _ & _ & Hok').
      split; [exact Hok'|].
      intros p c' Hp'. rewrite Hm in Hp'. rewrite lastLoaded_snoc.
      rewrite (snapshot_extends (heap s)); [by apply Hint|exact He|by eapply Hc].
    + rewrite (loadModel_miss path s Hp). cbn [fst]. split; [exact Hok|].
      intros p c' Hp'. rewrite lastLoaded_snoc. by apply Hint.
  - (* a load completes *)
    destruct (onLoad_spec path gltf s Hok)
      as (c & Hm & _ & He & _ & _ & _ & Hsc & _ & Hok').
    split; [exact Hok'|].
    intros p c' Hp'. rewrite Hm in Hp'. rewrite lastLoaded_snoc.
    destruct (decide (path = p)) as [->|Hne].
    + rewrite lookup_insert_eq in Hp'. injection Hp' as <-.
      rewrite bool_decide_eq_true_2 by reflexivity. by rewrite Hsc.
    + rewrite lookup_insert_ne in Hp' by exact Hne.
      rewrite bool_decide_eq_false_2 by exact Hne.
      rewrite (snapshot_extends (heap s)); [by apply Hint|exact He|by eapply Hc].
  - (* a consumer moves an object it holds *)
    destruct (bool_decide_reflect (i ∈ flat_map ids (handed s))) as [Hi|Hi].
    + split; [exact Hok|].
      intros p c' Hp'. cbn [modelCache heap] in *. rewrite lastLoaded_snoc.
      rewrite snapshot_setTransform; [by apply Hint|].
      intros Hic. apply list_elem_of_In, in_flat_map in Hi as (r & Hr & Hir).
      apply list_elem_of_In in Hr, Hir.
      pose proof (Hd p c' Hp') as Hap. rewrite Forall_forall in Hap.
      exact (Hap r Hr i Hic Hir).
    + split; [exact Hok|].
      intros p c' Hp'. rewrite lastLoaded_snoc. by apply Hint.
Qed.

Lemma modelInit_ok : cache_ok modelInit /\ originals_intact [] modelInit.
Proof.
  assert (He : forall p c, modelCache modelInit !! p = Some c -> False).
  { intros p c Hp. unfold modelInit in Hp. cbn [modelCache] in Hp.
    by rewrite lookup_empty in Hp. }
  split; [split; [|split]|].
  - intros p c Hp. destruct (He p c Hp).
  - apply List.Forall_nil.
  - intros p c Hp. destruct (He p c Hp).
  - intros p c Hp. destruct (He p c Hp).
Qed.

Lemma cache_steps_ok es :
  cache_ok (steps es modelInit) /\ originals_intact es (steps es modelInit).
Proof.
  induction es as [|e es IH] using rev_ind; [apply modelInit_ok|].
  rewrite steps_snoc. destruct IH. by apply cache_step_ok.
Qed.

(** [await loadModel(path)] from a state that satisfies the invariant. *)
Lemma await_spec path gltf (s : ModelState) :
  cache_ok s ->
  let s' := fst (awaitModel path gltf s) in
  let r := snd (awaitModel path gltf s) in
  exists c,
    modelCache s' !! path = Some c /\
    extends (heap s) (heap s') /\
    fresh (heap s) (heap s') r /\
    snapshot (heap s') r = snapshot (heap s') c /\
    apart c r /\
    cache_ok s' /\
    (forall c0, modelCache s !! path = Some c0 ->
       c0 = c /\ snapshot (heap s') c = snapshot (heap s) c0).
Proof.
  intros Hok. cbv zeta. unfold awaitModel.
  destruct (modelCache s !! path) as [c|] eqn:Hp.
  - destruct (hit_spec path c s Hok Hp) as (r & Hr & Hm & Hh & He & Hf & Hs & Hok').
    destruct (loadModel path s) as [s' o]. cbn [fst snd] in *. subst o.
    cbn [fst snd]. exists c.
    assert (Hal : allocated (heap s) c) by (destruct Hok as (Hc & _); by eapply Hc).
    assert (Hsc : snapshot (heap s') c = snapshot (heap s) c)
      by (by apply snapshot_extends).
    split; [by rewrite Hm|]. split; [exact He|]. split; [exact Hf|].
    split; [by rewrite Hs, Hsc|].
    split; [by apply (apart_allocated_fresh (heap s) (heap s'))|].
    split; [exact Hok'|].
    intros c0 Hc0. injection Hc0 as <-. by split.
  - rewrite (loadModel_miss path s Hp).
    destruct (onLoad_spec path gltf s Hok)
      as (c & Hm & _ & He & _ & Hf & Hap & Hsc & Hsr & Hok').
    exists c. split; [by rewrite Hm, lookup_insert_eq|].
    split; [exact He|]. split; [exact Hf|]. split; [by rewrite Hsr, Hsc|].
    split; [exact Hap|]. split; [exact Hok'|].
    intros c0 Hc0. discriminate.
Qed.

(** C9.  Two successive [await loadModel(path)], in any state of the cache
    reached by calls, completed loads and consumers moving the objects
    they hold: the two objects returned are different objects that share
    no node, they are equal in structure (same transforms, same geometry
    and material references), and setting the transform of a node of one
    leaves the other unchanged.  The cached original shares no node with
    any object ever handed out, and it still has the structure it was
    loaded with. *)
Theorem loadModel_hands_out_independent_clones
    (es : list Event) (path : string) (gltf1 gltf2 : Blueprint) :
  let s := steps es modelInit in
  let a1 := awaitModel path gltf1 s in
  let a2 := awaitModel path gltf2 (fst a1) in
  let r1 := snd a1 in
  let r2 := snd a2 in
  let h := heap (fst a2) in
  r1 <> r2 /\ apart r1 r2 /\
  snapshot h r1 = snapshot h r2 /\
  (forall i t, i ∈ ids r1 -> snapshot (setTransform i t h) r2 = snapshot h r2) /\
  (forall i t, i ∈ ids r2 -> snapshot (setTransform i t h) r1 = snapshot h r1) /\
  (exists c,
     modelCache (fst a2) !! path = Some c /\
     apart c r1 /\ apart c r2 /\
     snapshot h c = snapshot h r1 /\
     forall i t, i ∈ ids r1 \/ i ∈ ids r2 ->
       snapshot (setTransform i t h) c = snapshot h c) /\
  (forall p c, modelCache s !! p = Some c ->
     Forall (apart c) (handed s) /\
     lastLoaded p es = Some (snapshot (heap s) c)).
Proof.
  cbv zeta.
  destruct (cache_steps_ok es) as [Hok Hint].
  set (s := steps es modelInit) in *.
  destruct (await_spec path gltf1 s Hok)
    as (c1 & Hc1 & He1 & Hf1 & Hs1 & Hap1 & Hok1 & _).
  set (s1 := fst (awaitModel path gltf1 s)) in *.
  set (r1 := snd (awaitModel path gltf1 s)) in *.
  destruct (await_spec path gltf2 s1 Hok1)
    as (c2 & Hc2 & He2 & Hf2 & Hs2 & Hap2 & Hok2 & Hsame).
  set (s2 := fst (awaitModel path gltf2 s1)) in *.
  set (r2 := snd (awaitModel path gltf2 s1)) in *.
  destruct (Hsame c1 Hc1) as [<- Hsc].
  assert (Hal1 : allocated (heap s1) r1) by (by eapply fresh_allocated).
  assert (Hr12 : apart r1 r2) by (by apply (apart_allocated_fresh (heap s1) (heap s2))).
  assert (Hsr1 : snapshot (heap s2) r1 = snapshot (heap s1) r1)
    by (by apply snapshot_extends).
  assert (Hc1r2 : apart c1 r2) by exact Hap2.
  assert (Hc1r1 : apart c1 r1) by exact Hap1.
  split; [by apply apart_neq|]. split; [exact Hr12|].
  split; [by rewrite Hsr1, Hs1, Hs2, Hsc|].
  split; [intros i t Hi; apply snapshot_setTransform; intros Hi2; exact (Hr12 i Hi Hi2)|].
  split; [intros i t Hi; apply snapshot_setTransform; intros Hi1; exact (Hr12 i Hi1 Hi)|].
  split.
  - exists c1. split; [exact Hc2|]. split; [exact Hc1r1|]. split; [exact Hc1r2|].
    split; [by rewrite Hsr1, Hs1, Hsc|].
    intros i t [Hi|Hi]; apply snapshot_setTransform; intros Hic.
    + exact (Hc1r1 i Hic Hi).
    + exact (Hc1r2 i Hic Hi).
  - intros p c Hp. destruct Hok as (_ & _ & Hd). split; [by eapply Hd|by apply Hint].
Qed.

End ModelCache.

(** ** Scene orchestrator: pausing and the device class *)

Section SceneClaims.
Import Scene.

Ltac case_ifs :=
  repeat match goal with
         | |- context [if ?b then _ else _] => destruct b eqn:?
         | |- context [match ?o with Some _ => _ | None => _ end] => destruct o eqn:?
         end.

Lemma renders_app a b : renders (a ++ b) = renders a || renders b.
Proof. unfold renders. apply existsb_app. Qed.

Lemma animate_paused env s : paused s = true -> animate env s = (s, []).
Proof. unfold paused, animate. intros ->. reflexivity. Qed.

Lemma animate_flags env s :
  contextLost (fst (animate env s)) = contextLost s /\
  isPageVisible (fst (animate env s)) = isPageVisible s.
Proof.
  unfold animate, loopUpdate. cbn [shouldSkipFrame timingDelta timingElapsed].
  case_ifs; cbn; split; reflexivity.
Qed.

Lemma animate_renders env s :
  renders (snd (animate env s)) = true -> paused s = false.
Proof.
  unfold animate, paused.
  destruct (contextLost s || negb (isPageVisible s)); [discriminate|reflexivity].
Qed.

Lemma animate_resumes env s :
  paused s = false -> inViewport env = true ->
  enableFrameSkipping (animationLoop s) = false ->
  renders (snd (animate env s)) = true.
Proof.
  unfold paused, animate, loopUpdate. intros -> -> ->.
  cbn [negb andb shouldSkipFrame timingDelta timingElapsed].
  case_ifs; cbn [snd]; rewrite ?renders_app; cbn;
    rewrite ?orb_true_r; reflexivity.
Qed.

Lemma onModelLoaded_no_render meshes anim s :
  renders (snd (onModelLoaded meshes anim s)) = false.
Proof.
  unfold onModelLoaded. cbn [snd]. rewrite renders_app.
  apply orb_false_iff. split.
  - induction meshes as [|n IH]; [reflexivity|].
    cbn [replicate concat]. rewrite renders_app, IH.
    destruct (negb (isMobile s) && bool_decide (is_Some (iceTrailEffect s))); reflexivity.
  - destruct (negb (isMobile s) && bool_decide (is_Some (iceTrailEffect s))); reflexivity.
Qed.

(** C4.  While the GPU context is lost or the tab is hidden the per-frame
    callback returns at once, without rendering.  A render only happens in
    a step after which no pause cause holds: the restore handler renders
    only when the page is visible, the visibility handler only when the
    context is not lost; with both causes active, clearing one of them
    leaves the scene paused.  With no cause left, a visible scene renders
    again. *)
Theorem no_render_while_paused (s : state) (env env' : Env) :
  (contextLost s = true \/ isPageVisible s = false ->
     animate env s = (s, []) /\ renders (snd (step s (Tick env))) = false) /\
  (forall e, renders (snd (step s e)) = true -> paused (fst (step s e)) = false) /\
  (renders (snd (step s (ContextRestored env))) = true -> isPageVisible s = true) /\
  (renders (snd (step s (TabShown env))) = true -> contextLost s = false) /\
  (contextLost s = true -> isPageVisible s = false ->
     step s (ContextRestored env) = (withFlags false false s, []) /\
     step s (TabShown env) = (withFlags true true s, []) /\
     paused (fst (step s (ContextRestored env))) = true /\
     paused (fst (step s (TabShown env))) = true /\
     animate env' (fst (step s (ContextRestored env)))
       = (fst (step s (ContextRestored env)), []) /\
     animate env' (fst (step s (TabShown env)))
       = (fst (step s (TabShown env)), [])) /\
  (inViewport env = true -> enableFrameSkipping (animationLoop s) = false ->
     (isPageVisible s = true -> renders (snd (step s (ContextRestored env))) = true) /\
     (contextLost s = false -> renders (snd (step s (TabShown env))) = true)).
Proof.
  split; [|split; [|split; [|split; [|split]]]].
  - intros H.
    assert (Hp : paused s = true).
    { unfold paused. destruct H as [-> | ->]; [reflexivity|apply orb_true_r]. }
    cbn [step]. rewrite (animate_paused env s Hp). split; reflexivity.
  - intros e He.
    assert (Han : forall env0 s0, renders (snd (animate env0 s0)) = true ->
                    paused (fst (animate env0 s0)) = false).
    { intros env0 s0 H. unfold paused.
      destruct (animate_flags env0 s0) as [-> ->]. by apply (animate_renders env0). }
    destruct e as [env0| |env0| |env0|meshes anim]; cbn [step] in *.
    + by apply Han.
    + discriminate.
    + destruct (isPageVisible s); [by apply Han|discriminate].
    + discriminate.
    + destruct (contextLost s); [discriminate|by apply Han].
    + by rewrite onModelLoaded_no_render in He.
  - cbn [step]. cbn [isPageVisible withFlags].
    destruct (isPageVisible s); [reflexivity|discriminate].
  - cbn [step]. cbn [contextLost withFlags].
    destruct (contextLost s); [discriminate|reflexivity].
  - intros Hl Hv. cbn [step]. cbn [isPageVisible contextLost withFlags].
    rewrite Hl, Hv. cbn [negb fst]. repeat split; reflexivity.
  - intros Hin Hskip. cbn [step]. cbn [isPageVisible contextLost withFlags]. split.
    + intros Hv. rewrite Hv. apply animate_resumes; [|exact Hin|exact Hskip].
      reflexivity.
    + intros Hl. rewrite Hl. cbn [negb]. apply animate_resumes; [|exact Hin|exact Hskip].
      reflexivity.
Qed.

Lemma single_pass_app a b : single_pass a -> single_pass b -> single_pass (a ++ b).
Proof. unfold single_pass. rewrite existsb_app. by intros -> ->. Qed.

Lemma animate_mobile env s :
  mobile_state s ->
  mobile_state (fst (animate env s)) /\ single_pass (snd (animate env s)).
Proof.
  intros (Hm & Hi & Hg). unfold animate, loopUpdate, withLoop.
  repeat first
    [ progress cbn -[Nat.modulo Nat.eqb]
    | progress rewrite ?Hm, ?Hg, ?andb_false_r
    | match goal with
      | |- context [if ?b then _ else _] => destruct b eqn:?
      end ];
    (split; [repeat split; assumption | reflexivity]).
Qed.

Lemma step_mobile s e :
  mobile_state s ->
  mobile_state (fst (step s e)) /\ single_pass (snd (step s e)).
Proof.
  intros Hs. pose proof Hs as (Hm & Hi & Hg).
  assert (Hf : forall a b, mobile_state (withFlags a b s)) by (intros; exact Hs).
  destruct e as [env| |env| |env|meshes anim]; cbn [step].
  - by apply animate_mobile.
  - split; [apply Hf|reflexivity].
  - cbn [isPageVisible withFlags]. destruct (isPageVisible s).
    + apply animate_mobile, Hf.
    + split; [apply Hf|reflexivity].
  - split; [apply Hf|reflexivity].
  - cbn [contextLost withFlags]. destruct (contextLost s); cbn [negb].
    + split; [apply Hf|reflexivity].
    + apply animate_mobile, Hf.
  - unfold onModelLoaded. rewrite Hm. cbn [negb andb fst snd app].
    split; [repeat split; assumption|]. rewrite app_nil_r. unfold single_pass.
    induction meshes as [|n IH]; [reflexivity|].
    cbn [replicate concat]. rewrite existsb_app, IH. reflexivity.
Qed.

Lemma run_mobile es s :
  mobile_state s ->
  mobile_state (fst (run es s)) /\ single_pass (snd (run es s)).
Proof.
  revert s. induction es as [|e es IH]; intros s Hs; cbn [run].
  - split; [exact Hs|reflexivity].
  - destruct (step_mobile s e Hs) as [Hs1 Ha].
    destruct (step s e) as [s1 a]. cbn [fst snd] in *.
    destruct (IH s1 Hs1) as [Hs2 Hb].
    destruct (run es s1) as [s2 b]. cbn [fst snd] in *.
    split; [exact Hs2|by apply single_pass_app].
Qed.

(** C7.  A scene constructed for the mobile device class constructs
    neither an ice-trail effect nor a post-processing pipeline, and
    whatever happens afterwards it holds neither, injects no ice shader,
    never updates an ice trail and never renders through the
    post-processing pipeline: every render is the direct, single-pass
    one. *)
Theorem mobile_scene_has_no_ice_and_no_godray (type : SceneType) (es : list Event) :
  existsb is_effect_alloc (snd (construct true type)) = false /\
  iceTrailEffect (fst (construct true type)) = None /\
  godrayPostProcessing (fst (construct true type)) = false /\
  iceTrailEffect (fst (run es (fst (construct true type)))) = None /\
  godrayPostProcessing (fst (run es (fst (construct true type)))) = false /\
  existsb is_ice_or_godray (snd (run es (fst (construct true type)))) = false /\
  (forall a, a ∈ snd (run es (fst (construct true type))) ->
     is_render a = true -> a = RendererRender).
Proof.
  assert (Hc : mobile_state (fst (construct true type))) by (repeat split).
  destruct (run_mobile es _ Hc) as ((_ & Hi & Hg) & Hsp).
  split; [reflexivity|]. split; [reflexivity|]. split; [reflexivity|].
  split; [exact Hi|]. split; [exact Hg|]. split; [exact Hsp|].
  intros a Ha Hr. unfold single_pass in Hsp.
  destruct a; try discriminate; [|reflexivity].
  exfalso. apply list_elem_of_In in Ha.
  assert (existsb is_ice_or_godray (snd (run es (fst (construct true type)))) = true).
  { apply existsb_exists. exists GodrayRender. by split. }
  congruence.
Qed.

(** On the desktop device class both are constructed and the render goes
    through the post-processing pipeline. *)
Lemma desktop_scene_allocates_both (type : SceneType) :
  NewIceTrailEffect ∈ snd (construct false type) /\
  NewGodrayPostProcessing ∈ snd (construct false type) /\
  godrayPostProcessing (fst (construct false type)) = true.
Proof.
  cbn. split; [|split; [|reflexivity]]; apply list_elem_of_In; cbn; tauto.
Qed.

(** The earlier revision constructs both whatever the device. *)
Lemma earlier_revision_constructs_both (type : SceneType) :
  NewIceTrailEffect ∈ construct_earlier type /\
  NewGodrayPostProcessing ∈ construct_earlier type.
Proof. split; apply list_elem_of_In; cbn; tauto. Qed.

End SceneClaims.

(** ** Micro-effect multiplexer: the progress of a button *)

Section IceButtonClaims.
Import IceButton.
Local Open Scope Q_scope.

Ltac qlra := Lqa.lra.

Lemma frameDelta_range d : 0 <= d -> 0 < frameDelta d /\ frameDelta d <= 0.1.
Proof.
  intros Hd. unfold frameDelta.
  destruct (Qeq_bool d 0) eqn:E.
  - split.
    + apply Q.min_glb_lt; reflexivity.
    + apply Q.le_min_r.
  - assert (Hne : ~ d == 0) by (by apply Qeq_bool_neq).
    assert (0 < d) by (apply Qle_lt_or_eq in Hd as [H|H]; [exact H|symmetry in H; contradiction]).
    split; [apply Q.min_glb_lt; [assumption|reflexivity] | apply Q.le_min_r].
Qed.

Lemma Qabs_le_iff x y : Qabs x <= y <-> - y <= x /\ x <= y.
Proof. apply Qabs_Qle_condition. Qed.

Lemma Qabs_gt x y : y < Qabs x -> x < - y \/ y < x.
Proof.
  intros H. destruct (Qlt_le_dec x (- y)) as [Hl|Hl]; [by left|].
  destruct (Qlt_le_dec y x) as [Hr|Hr]; [by right|].
  exfalso. apply (Qlt_not_le _ _ H). apply Qabs_Qle_condition. by split.
Qed.

(** One frame, seen from one instance. *)
Lemma advance_law dt i :
  0 <= dt -> instance_ok i ->
  let i' := fst (fst (advance dt i)) in
  targetProgress i' = targetProgress i /\
  instance_ok i' /\
  Qabs (currentProgress i' - currentProgress i) <= dt * linearSpeed /\
  (targetProgress i == 1 -> currentProgress i <= currentProgress i') /\
  (targetProgress i == 0 -> currentProgress i' <= currentProgress i) /\
  (Qabs (targetProgress i - currentProgress i) <= 0.001 ->
     currentProgress i' = currentProgress i) /\
  (0.001 < targetProgress i - currentProgress i ->
     currentProgress i' == Qmin 1 (currentProgress i + dt * linearSpeed)) /\
  (targetProgress i - currentProgress i < - 0.001 ->
     currentProgress i' == Qmax 0 (currentProgress i - dt * linearSpeed)).
Proof.
  destruct i as [t c a]. unfold instance_ok, advance, linearSpeed.
  cbn [targetProgress currentProgress isActive].
  intros Hdt (Ht & H0 & H1). cbv zeta.
  destruct (Qlt_le_dec 0.001 (Qabs (t - c))) as [Hfar|Hnear].
  - destruct (Qlt_le_dec 0 (t - c)) as [Hup|Hdown].
    + (* towards 1 *)
      assert (Ht1 : t == 1) by (destruct Ht as [Ht|Ht]; [qlra|exact Ht]).
      destruct (Qlt_le_dec 1.0 (c + dt * 0.12)) as [Hclamp|Hfree];
        destruct (Qlt_le_dec 0.001 _) as [Hshow|Hhide];
        cbn [fst snd targetProgress currentProgress];
        (split; [reflexivity|]); (split; [split; [exact Ht|split; qlra]|]);
        (split; [apply Qabs_Qle_condition; split; qlra|]);
        (split; [intros _; qlra|]); (split; [intros Ht0; qlra|]);
        (split; [intros Hn; exfalso; apply (Qlt_not_le _ _ Hfar Hn)|]);
        (split; [intros _|intros Hlt; exfalso; qlra]).
      * rewrite Q.min_l by qlra. reflexivity.
      * rewrite Q.min_l by qlra. reflexivity.
      * rewrite Q.min_r by qlra. reflexivity.
      * rewrite Q.min_r by qlra. reflexivity.
    + (* towards 0 *)
      assert (Hneg : t - c < - 0.001).
      { apply Qabs_gt in Hfar as [Hl|Hr]; [exact Hl|qlra]. }
      assert (Ht0 : t == 0) by (destruct Ht as [Ht|Ht]; [exact Ht|qlra]).
      destruct (Qlt_le_dec (c - dt * 0.12) 0.0) as [Hclamp|Hfree];
        destruct (Qlt_le_dec 0.001 _) as [Hshow|Hhide];
        cbn [fst snd targetProgress currentProgress];
        (split; [reflexivity|]); (split; [split; [exact Ht|split; qlra]|]);
        (split; [apply Qabs_Qle_condition; split; qlra|]);
        (split; [intros Ht1; qlra|]); (split; [intros _; qlra|]);
        (split; [intros Hn; exfalso; apply (Qlt_not_le _ _ Hfar Hn)|]);
        (split; [intros Hgt; exfalso; qlra|intros _]).
      * rewrite Q.max_l by qlra. reflexivity.
      * rewrite Q.max_l by qlra. reflexivity.
      * rewrite Q.max_r by qlra. reflexivity.
      * rewrite Q.max_r by qlra. reflexivity.
  - (* within the dead band: the progress stays *)
    apply Qabs_Qle_condition in Hnear as [Hn1 Hn2].
    assert (Hz : Qabs (c - c) <= dt * 0.12).
    { apply Qabs_Qle_condition. split; qlra. }
    destruct (Qlt_le_dec 0.001 c) as [Hvis|Hinv];
      destruct (Qlt_le_dec 0.001 _) as [Hshow|Hhide];
      cbn [fst snd targetProgress currentProgress];
      (split; [reflexivity|]); (split; [split; [exact Ht|split; assumption]|]);
      (split; [exact Hz|]);
      (split; [intros _; qlra|]); (split; [intros _; qlra|]);
      (split; [intros _; reflexivity|]);
      (split; [intros Hgt; exfalso; qlra|intros Hlt; exfalso; qlra]).
Qed.

Lemma newInstance_ok : instance_ok newInstance.
Proof. unfold instance_ok, newInstance; cbn. split; [left; reflexivity|split; discriminate]. Qed.

Lemma all_ok_insert id i m :
  all_ok m -> instance_ok i -> all_ok (withInstances (<[id := i]> (instances m)) m).
Proof.
  intros Hm Hi id' i'. cbn [instances withInstances].
  destruct (decide (id = id')) as [->|Hne].
  - rewrite lookup_insert_eq. intros [= <-]. exact Hi.
  - rewrite lookup_insert_ne by exact Hne. apply Hm.
Qed.

Lemma all_ok_same m m' : instances m' = instances m -> all_ok m -> all_ok m'.
Proof. intros He Hm id i. rewrite He. apply Hm. Qed.

Lemma fold_completeRegistration_ok ids m :
  all_ok m -> all_ok (fold_left (fun m id => completeRegistration id m) ids m).
Proof.
  revert m. induction ids as [|id ids IH]; intros m Hm; [exact Hm|].
  cbn [fold_left]. apply IH. apply all_ok_insert; [exact Hm|apply newInstance_ok].
Qed.

Lemma manager_initialize_ok m : all_ok m -> all_ok (initialize m).
Proof.
  intros Hm. unfold initialize. destruct (renderer m); [exact Hm|].
  match goal with
  | |- all_ok {| instances := instances (fold_left ?f ?l ?m0) |} =>
      apply (all_ok_same (fold_left f l m0)); [reflexivity|];
      apply fold_completeRegistration_ok
  end.
  eapply all_ok_same; [|exact Hm]. reflexivity.
Qed.

(** What a frame does to the instance registered under [id]. *)
Lemma animate_lookup d m id :
  instances (fst (animate d m)) !! id =
  (fun i => if negb (isAnimating m) || negb (renderer m) then i
            else fst (fst (advance (frameDelta d) i))) <$> instances m !! id.
Proof.
  unfold animate. destruct (negb (isAnimating m) || negb (renderer m)).
  - cbn [fst]. by destruct (instances m !! id).
  - cbn [fst instances]. rewrite !lookup_fmap. by destruct (instances m !! id).
Qed.

Lemma manager_animate_ok d m : 0 <= d -> all_ok m -> all_ok (fst (animate d m)).
Proof.
  intros Hd Hm id i'. rewrite animate_lookup.
  destruct (instances m !! id) as [i|] eqn:E; [|discriminate].
  cbn. intros [= <-]. specialize (Hm id i E).
  destruct (negb (isAnimating m) || negb (renderer m)); [exact Hm|].
  destruct (frameDelta_range d Hd) as [Hpos _].
  apply advance_law; [by apply Qlt_le_weak|exact Hm].
Qed.

Lemma manager_step_ok m e : clock_ok e -> all_ok m -> all_ok (step m e).
Proof.
  intros He Hm. destruct e as [id|id|id d|id|d]; cbn [step clock_ok] in *.
  - unfold register. pose proof (manager_initialize_ok m Hm) as Hi.
    destruct (textures (initialize m)).
    + apply all_ok_insert; [exact Hi|apply newInstance_ok].
    + eapply all_ok_same; [|exact Hi]. reflexivity.
  - unfold unregister.
    assert (Hdel : all_ok (withInstances (delete id (instances m)) m)).
    { intros id' i'. cbn [instances withInstances]. intros Hl.
      apply lookup_delete_Some in Hl as [_ Hl]. by apply (Hm id'). }
    destruct (bool_decide _); [|exact Hdel].
    eapply all_ok_same; [|exact Hdel]. reflexivity.
  - unfold activate. destruct (instances m !! id) as [i|] eqn:E; [|exact Hm].
    assert (Hins : all_ok (withInstances
              (<[id := {| targetProgress := 1.0; currentProgress := currentProgress i;
                          isActive := true |}]> (instances m)) m)).
    { apply all_ok_insert; [exact Hm|].
      destruct (Hm id i E) as [_ Hc]. split; [right; reflexivity|exact Hc]. }
    unfold startAnimation. cbn [isAnimating withInstances].
    destruct (isAnimating m); [exact Hins|].
    apply manager_animate_ok; [exact He|]. eapply all_ok_same; [|exact Hins]. reflexivity.
  - unfold deactivate. destruct (instances m !! id) as [i|] eqn:E; [|exact Hm].
    apply all_ok_insert; [exact Hm|].
    destruct (Hm id i E) as [_ Hc]. split; [left; reflexivity|exact Hc].
  - by apply manager_animate_ok.
Qed.

Lemma manager_run_ok es : Forall clock_ok es -> all_ok (run es newManager).
Proof.
  intros Hes. unfold run.
  assert (H : forall m, all_ok m -> all_ok (fold_left step es m)).
  { induction Hes as [|e es He _ IH]; intros m Hm; [exact Hm|].
    cbn [fold_left]. apply IH. by apply manager_step_ok. }
  apply H. intros id i. unfold newManager. cbn [instances].
  by rewrite lookup_empty.
Qed.


(** C10.  The frame time is clamped to 0.1 s whatever the clock reads, so
    no frame, neither a requested one nor the one run by an activation,
    changes the progress of an instance by more than 0.1 * 0.12 = 0.012. *)
Theorem frame_delta_is_clamped
    (es : list Event) (id : string) (i : IceButtonInstance) (d : Q) :
  Forall clock_ok es -> 0 <= d ->
  instances (run es newManager) !! id = Some i ->
  frameDelta d <= 0.1 /\
  (exists i',
     instances (step (run es newManager) (Frame d)) !! id = Some i' /\
     Qabs (currentProgress i' - currentProgress i) <= 0.012) /\
  (forall other,
     exists i',
       instances (step (run es newManager) (Activate other d)) !! id = Some i' /\
       Qabs (currentProgress i' - currentProgress i) <= 0.012).
Proof.
  intros Hes Hd Hi.
  pose proof (manager_run_ok es Hes) as Hok. set (m := run es newManager) in *.
  destruct (frameDelta_range d Hd) as [Hpos Hcap].
  assert (Hdt : 0 <= frameDelta d) by (by apply Qlt_le_weak).
  assert (Hstill : forall c : Q, Qabs (c - c) <= 0.012).
  { intros c. apply Qabs_Qle_condition. split; qlra. }
  assert (Hframe : forall m0 i0,
            all_ok m0 -> instances m0 !! id = Some i0 ->
            exists i', instances (fst (animate d m0)) !! id = Some i' /\
                       Qabs (currentProgress i' - currentProgress i0) <= 0.012).
  { intros m0 i0 Hok0 Hi0. rewrite animate_lookup, Hi0.
    cbn [fmap option_fmap option_map]. eexists. split; [reflexivity|].
    destruct (negb (isAnimating m0) || negb (renderer m0)); [apply Hstill|].
    destruct (advance_law (frameDelta d) i0 Hdt (Hok0 id i0 Hi0))
      as (_ & _ & Habs & _). cbv zeta in Habs.
    eapply Qle_trans; [exact Habs|]. unfold linearSpeed. qlra. }
  split; [exact Hcap|]. split; [by apply Hframe|].
  intros other. cbn [step]. unfold activate.
  destruct (instances m !! other) as [o|] eqn:Eo.
  - set (act := {| targetProgress := 1.0; currentProgress := currentProgress o;
                   isActive := true |}).
    set (m1 := withInstances (<[other := act]> (instances m)) m).
    assert (Hok1 : all_ok m1).
    { apply all_ok_insert; [exact Hok|].
      split; [right; reflexivity|apply (Hok other o Eo)]. }
    assert (Hi1 : exists i1, instances m1 !! id = Some i1 /\
                             currentProgress i1 = currentProgress i).
    { unfold m1. cbn [instances withInstances].
      destruct (decide (other = id)) as [->|Hne].
      - rewrite lookup_insert_eq. exists act. split; [reflexivity|].
        rewrite Hi in Eo. injection Eo as <-. reflexivity.
      - rewrite lookup_insert_ne by exact Hne. by exists i. }
    destruct Hi1 as (i1 & Hi1 & Hc1).
    unfold startAnimation. fold m1.
    destruct (isAnimating m1).
    + exists i1. split; [exact Hi1|]. rewrite Hc1. apply Hstill.
    + rewrite <- Hc1. apply Hframe; [|exact Hi1].
      eapply all_ok_same; [|exact Hok1]. reflexivity.
  - exists i. split; [exact Hi|apply Hstill].
Qed.

Lemma hover_clock_ok : Forall clock_ok hover.
Proof. repeat constructor; discriminate. Qed.

Lemma hover_state :
  instances (run hover newManager) !! "cta"
  = Some {| targetProgress := 1.0; currentProgress := 0.0158400000000;
            isActive := true |}.
Proof. vm_compute. reflexivity. Qed.


Lemma frame_delta_is_clamped_witness :
  exists i',
    instances (step (run hover newManager) (Frame 3600)) !! "cta" = Some i' /\
    Qabs (currentProgress i' - 0.0158400000000) <= 0.012.
Proof.
  destruct (frame_delta_is_clamped hover "cta" _ 3600
              hover_clock_ok ltac:(discriminate) hover_state)
    as (_ & Hf & _).
  exact Hf.
Defined.

End IceButtonClaims.

(** ** Ice trail: further properties of [update] *)

Section IceTrailMore.
Import IceTrail IceTrailRuns IceTrailLog.
Local Open Scope R_scope.

Lemma lastTrailTime_update f st :
  lastTrailTime (update f st) =
  match new_point (elapsedTime f) (intersects f) (isScrolling f) st with
  | Some _ => elapsedTime f
  | None => lastTrailTime st
  end.
Proof.
  destruct (new_point (elapsedTime f) (intersects f) (isScrolling f) st)
    as [p|] eqn:Hnp.
  - rewrite (update_Some _ _ _ Hnp). reflexivity.
  - rewrite (update_None _ _ Hnp). reflexivity.
Qed.

Lemma new_point_interval e hits sc st p :
  new_point e hits sc st = Some p -> trailInterval < e - lastTrailTime st.
Proof.
  unfold new_point. destruct sc; [discriminate|].
  destruct hits as [|hit hits]; [discriminate|].
  destruct (uv hit); [|discriminate].
  destruct (Rlt_dec _ _); [intros _; assumption|discriminate].
Qed.

Lemma insertion_times_head fs st t :
  head (insertion_times fs st) = Some t -> trailInterval < t - lastTrailTime st.
Proof.
  revert st. induction fs as [|f fs IH]; intros st; cbn [insertion_times].
  - discriminate.
  - destruct (new_point (elapsedTime f) (intersects f) (isScrolling f) st)
      as [p|] eqn:Hnp.
    + cbn [head]. intros [= <-]. exact (new_point_interval _ _ _ _ _ Hnp).
    + intros H. specialize (IH _ H).
      rewrite lastTrailTime_update, Hnp in IH. exact IH.
Qed.

(** X1 (rate limit).  The calls that write a new point are more than
    [trailInterval] (25 ms of scene time) apart: the first one comes more
    than 25 ms after the time of the last insertion the state remembers
    (0 for a new effect), and each later one more than 25 ms after the one
    before.  There is one such call per point written. *)
Theorem insertions_are_rate_limited (fs : list Frame) (st : state) :
  length (insertion_times fs st) = length (inserted fs st) /\
  (forall t, head (insertion_times fs st) = Some t ->
     trailInterval < t - lastTrailTime st) /\
  (forall k t1 t2,
     insertion_times fs st !! k = Some t1 ->
     insertion_times fs st !! S k = Some t2 ->
     trailInterval < t2 - t1).
Proof.
  split; [|split].
  - revert st. induction fs as [|f fs IH]; intros st; [reflexivity|].
    cbn [insertion_times inserted].
    destruct (new_point _ _ _ st); cbn [length]; rewrite IH; reflexivity.
  - intros t. apply insertion_times_head.
  - revert st. induction fs as [|f fs IH]; intros st k t1 t2.
    + cbn. discriminate.
    + cbn [insertion_times].
      destruct (new_point (elapsedTime f) (intersects f) (isScrolling f) st)
        as [p|] eqn:Hnp.
      * destruct k as [|k].
        -- cbn [lookup list_lookup]. intros [= <-] H2.
           assert (Hh : head (insertion_times fs (update f st)) = Some t2).
           { destruct (insertion_times fs (update f st)); [discriminate|exact H2]. }
           apply insertion_times_head in Hh.
           rewrite lastTrailTime_update, Hnp in Hh. exact Hh.
        -- cbn [lookup list_lookup]. apply IH.
      * apply IH.
Qed.




(** X3 (dead points are frozen).  A slot whose stored intensity is not
    positive is skipped by the ageing loop: unless the call writes a new
    point into it, its four floats and its maximal age are what they were.
    A dead point does not age and does not come back to life. *)
Theorem dead_point_is_frozen (f : Frame) (st : state) (i : nat) :
  shape st -> (i < maxTrailPoints)%nat ->
  slot_intensity st i <= 0 ->
  ~ overwrites f st i ->
  slot_texel (trailData (update f st)) i = slot_texel (trailData st) i /\
  slot_maxAge (update f st) i = slot_maxAge st i.
Proof.
  intros Hsh Hi Hdead Hno.
  destruct (update_slot_keep f st i Hsh Hi Hno) as (Ha & Hw & Hm & Hu & Hv).
  rewrite decay_dead in Ha, Hw by lra. cbn [fst snd] in Ha, Hw.
  split; [|exact Hm].
  unfold slot_texel.
  unfold slot_u, slot_v, slot_age, slot_intensity in *.
  rewrite Hu, Hv, Ha, Hw. reflexivity.
Qed.

Lemma dead_point_is_frozen_witness :
  slot_texel (trailData (update (touch 1 1 (1 / 2) (1 / 2) 0) init)) 5
    = slot_texel (trailData init) 5 /\
  slot_maxAge (update (touch 1 1 (1 / 2) (1 / 2) 0) init) 5 = slot_maxAge init 5.
Proof.
  apply (dead_point_is_frozen (touch 1 1 (1 / 2) (1 / 2) 0) init 5).
  - exact init_shape.
  - unfold maxTrailPoints. lia.
  - unfold slot_intensity, init. cbn [trailData]. rewrite get_replicate_0. lra.
  - intros [_ H]. cbn in H. discriminate.
Defined.

(** A call that writes no point leaves the ring buffer as it is, ages
    apart. *)
Lemma update_without_point f st :
  new_point (elapsedTime f) (intersects f) (isScrolling f) st = None ->
  trailIndex (update f st) = trailIndex st /\
  trailCount (update f st) = trailCount st /\
  lastTrailTime (update f st) = lastTrailTime st /\
  trailMeta (update f st) = trailMeta st /\
  forall i, slot_u (update f st) i = slot_u st i /\
            slot_v (update f st) i = slot_v st i.
Proof.
  intros Hnp. rewrite (update_None _ _ Hnp).
  cbn [trailIndex trailCount lastTrailTime trailMeta].
  repeat split; unfold slot_u, slot_v; cbn [trailData]; apply age_loop_uv.
Qed.

(** X4 (no usable hit, no insertion).  A call made while scrolling, with an
    empty list of intersections, with a first intersection that carries no
    UV (whatever the later ones carry), or at most 25 ms after the last
    insertion writes no point: the cursor, the count, the time of the last
    insertion, the per-point fade parameters and the UV of every slot are
    unchanged. *)
Theorem no_insertion_without_usable_hit (f : Frame) (st : state) :
  isScrolling f = true \/
  intersects f = [] \/
  (exists hits, intersects f = {| uv := None |} :: hits) \/
  elapsedTime f - lastTrailTime st <= trailInterval ->
  trailIndex (update f st) = trailIndex st /\
  trailCount (update f st) = trailCount st /\
  lastTrailTime (update f st) = lastTrailTime st /\
  trailMeta (update f st) = trailMeta st /\
  forall i, slot_u (update f st) i = slot_u st i /\
            slot_v (update f st) i = slot_v st i.
Proof.
  intros H. apply update_without_point.
  unfold new_point. destruct H as [Hs | [He | [[tl Hu] | Hle]]].
  - rewrite Hs. reflexivity.
  - rewrite He. destruct (isScrolling f); reflexivity.
  - rewrite Hu. destruct (isScrolling f); reflexivity.
  - destruct (isScrolling f); [reflexivity|].
    destruct (intersects f) as [|hit tl]; [reflexivity|].
    destruct (uv hit); [|reflexivity].
    destruct (Rlt_dec _ _); [lra|reflexivity].
Qed.

Lemma no_insertion_without_usable_hit_witness :
  trailIndex (update (scrollTouch 1 1 (1 / 2) (1 / 2)) init) = trailIndex init /\
  trailCount (update (scrollTouch 1 1 (1 / 2) (1 / 2)) init) = trailCount init.
Proof.
  destruct (no_insertion_without_usable_hit (scrollTouch 1 1 (1 / 2) (1 / 2)) init)
    as (H1 & H2 & _).
  - left. reflexivity.
  - split; assumption.
Defined.

Lemma filter_at_most_one (P : nat -> bool) (j : nat) (l : list nat) :
  NoDup l -> (forall i, i ∈ l -> i <> j -> P i = false) ->
  (length (List.filter P l) <= 1)%nat.
Proof.
  induction l as [|a l IH]; intros Hnd HP; cbn [List.filter]; [cbn; lia|].
  apply NoDup_cons in Hnd as [Ha Hnd].
  destruct (Nat.eq_dec a j) as [->|Hne].
  - assert (Hl : List.filter P l = []).
    { clear IH. induction l as [|b l IHl]; [reflexivity|].
      cbn [List.filter]. rewrite (HP b).
      - apply IHl.
        + intros Hin. apply Ha. by right.
        + by apply NoDup_cons in Hnd as [_ ?].
        + intros i Hi. apply HP. apply elem_of_cons in Hi as [->|Hi];
            [by left | right; by right].
      - right; by left.
      - intros ->. apply Ha. by left. }
    rewrite Hl. destruct (P j); cbn; lia.
  - rewrite (HP a) by (by left || exact Hne).
    apply IH; [exact Hnd|]. intros i Hi. apply HP. by right.
Qed.

(** After a call with a time step of 5 s or more every slot that the call
    does not overwrite is dead. *)
Lemma long_frame_slot fs f i :
  Forall valid_frame fs -> 5 <= deltaTime f ->
  (i < maxTrailPoints)%nat -> ~ overwrites f (run fs init) i ->
  slot_intensity (update f (run fs init)) i = 0.
Proof.
  intros Hfs Hdt Hi Hno.
  destruct (reachable_ok fs Hfs) as [Hsh Hok].
  set (st := run fs init) in *.
  destruct (Hok i Hi) as (Hage & Hw & Hmax).
  destruct (update_slot_keep f st i Hsh Hi Hno) as (_ & Hin & _).
  rewrite Hin.
  destruct (Rlt_dec 0 (slot_intensity st i)) as [Hlive|Hdead].
  - specialize (Hmax Hlive).
    rewrite decay_live by exact Hlive. cbn [snd]. cbv zeta.
    assert (Hx : 1 <= (slot_age st i + deltaTime f) / slot_maxAge st i).
    { assert (0 < / slot_maxAge st i) by (apply Rinv_0_lt_compat; lra).
      replace 1 with (slot_maxAge st i * / slot_maxAge st i) by (field; lra).
      unfold Rdiv. nra. }
    assert (Hp : 1 <= Math_pow ((slot_age st i + deltaTime f) / slot_maxAge st i)
                   (1.5 + sin ((slot_age st i + deltaTime f) * 3) * 0.3)).
    { apply Math_pow_ge_1; [exact Hx|].
      pose proof (exponent_bounds ((slot_age st i + deltaTime f) * 3)). lra. }
    rewrite Rmax_left by lra. destruct (Rlt_dec _ _); lra.
  - rewrite decay_dead by exact Hdead. cbn [snd]. lra.
Qed.

(** X5 (a long frame clears the trail).  A point lives for less than 5 s of
    accumulated frame time.  So a call whose [deltaTime] is 5 s or more (the
    first frame after the scene was off-screen or paused that long) leaves
    every slot dead, except the one it writes a new point to: at most one
    live point remains. *)
Theorem long_frame_clears_trail (fs : list Frame) (f : Frame) :
  Forall valid_frame fs -> 5 <= deltaTime f ->
  (forall i, (i < maxTrailPoints)%nat -> ~ overwrites f (run fs init) i ->
     slot_intensity (update f (run fs init)) i = 0) /\
  (live_points (update f (run fs init)) <= 1)%nat.
Proof.
  intros Hfs Hdt.
  split; [intros i; by apply long_frame_slot|].
  unfold live_points.
  apply (filter_at_most_one _ (trailIndex (run fs init))); [apply NoDup_seq|].
  intros i Hi Hne. apply elem_of_seq in Hi.
  unfold is_live. rewrite long_frame_slot; try assumption.
  - destruct (Rlt_dec 0 0); [lra|reflexivity].
  - lia.
  - intros [_ H]. congruence.
Qed.

Lemma long_frame_clears_trail_witness :
  (live_points (update (idle 5 6) (run [freshPoint] init)) <= 1)%nat.
Proof.
  apply (long_frame_clears_trail [freshPoint] (idle 5 6)).
  - exact fresh_valid.
  - cbn. lra.
Defined.

End IceTrailMore.

(** ** The injected ice shader *)

Section IceShaderFacts.
Local Open Scope R_scope.



(** Below the lower edge [smoothstep] is 0. *)
Lemma smoothstep_below e0 e1 x : e0 < e1 -> x <= e0 -> GLSL.smoothstep e0 e1 x = 0.
Proof.
  intros He Hx. unfold GLSL.smoothstep.
  assert (Ht : GLSL.clamp ((x - e0) / (e1 - e0)) 0 1 = 0).
  { assert (Hinv : 0 < / (e1 - e0)) by (apply Rinv_0_lt_compat; lra).
    assert ((x - e0) / (e1 - e0) <= 0) by (unfold Rdiv; nra).
    unfold GLSL.clamp. rewrite Rmax_right by assumption.
    apply Rmin_left. lra. }
  rewrite Ht. cbv zeta. ring.
Qed.

Lemma mix3_0 x y : GLSL.mix3 x y 0 = x.
Proof.
  destruct x as [[x1 x2] x3], y as [[y1 y2] y3].
  unfold GLSL.mix3, GLSL.mix. f_equal; [f_equal|]; ring.
Qed.

Lemma accumulate_nonneg u p d c t :
  0 <= c -> 0 <= IceShader.accumulate u p d c t.
Proof.
  intros Hc. unfold IceShader.accumulate. destruct t as [[[a b] g] w].
  destruct (Rlt_dec 0.01 w); [|exact Hc].
  apply Rle_trans with c; [exact Hc | apply Rmax_l].
Qed.

Lemma accumulate_comm u p d c t1 t2 :
  IceShader.accumulate u p d (IceShader.accumulate u p d c t1) t2 =
  IceShader.accumulate u p d (IceShader.accumulate u p d c t2) t1.
Proof.
  unfold IceShader.accumulate.
  destruct t1 as [[[a1 b1] g1] w1], t2 as [[[a2 b2] g2] w2].
  destruct (Rlt_dec 0.01 w1), (Rlt_dec 0.01 w2); try reflexivity.
  rewrite <- !Rmax_assoc. f_equal. apply Rmax_comm.
Qed.

Lemma fold_accumulate_perm u p d l l' c :
  l ≡ₚ l' ->
  fold_left (IceShader.accumulate u p d) l c =
  fold_left (IceShader.accumulate u p d) l' c.
Proof.
  intros H. revert c. induction H as [|x l l' _ IH|x y l|l l' l'' _ IH1 _ IH2];
    intros c; cbn [fold_left].
  - reflexivity.
  - apply IH.
  - rewrite accumulate_comm. reflexivity.
  - rewrite IH1. apply IH2.
Qed.

Lemma fold_accumulate_nonneg u p d l c :
  0 <= c -> 0 <= fold_left (IceShader.accumulate u p d) l c.
Proof.
  revert c. induction l as [|t l IH]; intros c Hc; cbn [fold_left]; [exact Hc|].
  apply IH, accumulate_nonneg, Hc.
Qed.

Lemma fold_accumulate_dead u p d l c :
  Forall (fun t => IceShader.intensity t <= 0.01) l ->
  fold_left (IceShader.accumulate u p d) l c = c.
Proof.
  intros H. revert c. induction H as [|t l Ht _ IH]; intros c; cbn [fold_left];
    [reflexivity|].
  rewrite IH. unfold IceShader.accumulate. destruct t as [[[a b] g] w].
  cbn [IceShader.intensity] in Ht. destruct (Rlt_dec 0.01 w); [lra|reflexivity].
Qed.

(** The blend factor and the ice colour of a fragment, read off [main]. *)
Lemma main_is_a_mix u f :
  exists ice a,
    IceShader.main u f = GLSL.mix3 (IceShader.gl_FragColor f) ice (a * 0.95) /\
    a = GLSL.smoothstep
          (0.15 + GLSL.r (IceShader.uNoiseTexture u
                            (GLSL.adds2 (GLSL.scale2 (IceShader.vIceUv f) 6.0)
                                        (IceShader.uTime u * 0.01))) * 0.1)
          (0.15 + GLSL.r (IceShader.uNoiseTexture u
                            (GLSL.adds2 (GLSL.scale2 (IceShader.vIceUv f) 6.0)
                                        (IceShader.uTime u * 0.01))) * 0.1 + 0.3)
          (IceShader.coverage u (IceShader.vIceUv f)
             (GLSL.r (IceShader.uIceDensity u
                        (GLSL.scale2 (GLSL.scale2 (IceShader.vIceUv f) 2.0) 0.5)))
             (IceTrail.trail_loop (IceShader.uTrailTexture u) (IceShader.uTrailCount u)
                0 IceTrail.MAX_TRAIL_POINTS)).
Proof.
  unfold IceShader.main. cbv zeta. eexists _, _. split; reflexivity.
Qed.

(** X6 (order of the trail points).  The coverage that the trail loop
    accumulates is a maximum: it is never negative and it does not depend on
    the order in which the points are sampled.  In particular the order in
    which the ring buffer stores the points does not show in the image. *)
Theorem coverage_is_order_independent
    (u : IceShader.Uniforms) (vIceUv : GLSL.vec2) (iceDensitySample : R)
    (points points' : list GLSL.vec4) :
  points ≡ₚ points' ->
  IceShader.coverage u vIceUv iceDensitySample points
    = IceShader.coverage u vIceUv iceDensitySample points' /\
  0 <= IceShader.coverage u vIceUv iceDensitySample points.
Proof.
  intros H. unfold IceShader.coverage. split.
  - by apply fold_accumulate_perm.
  - apply fold_accumulate_nonneg. lra.
Qed.

Lemma coverage_is_order_independent_witness :
  IceShader.coverage (IceShader.iceUniforms IceShader.greySamplers IceTrail.init)
    (0, 0) 1 [(0, 0, 0, 1); (1, 1, 0, 1)]
  = IceShader.coverage (IceShader.iceUniforms IceShader.greySamplers IceTrail.init)
      (0, 0) 1 [(1, 1, 0, 1); (0, 0, 0, 1)].
Proof.
  apply (coverage_is_order_independent
           (IceShader.iceUniforms IceShader.greySamplers IceTrail.init)
           (0, 0) 1 [(0, 0, 0, 1); (1, 1, 0, 1)] [(1, 1, 0, 1); (0, 0, 0, 1)]).
  apply Permutation_swap.
Defined.


Lemma main_without_live_points u f :
  IceShader.red_nonneg (IceShader.uNoiseTexture u) ->
  Forall (fun p => IceShader.intensity p <= 0.01)
    (IceTrail.trail_loop (IceShader.uTrailTexture u) (IceShader.uTrailCount u)
       0 IceTrail.MAX_TRAIL_POINTS) ->
  IceShader.main u f = IceShader.gl_FragColor f.
Proof.
  intros Hn Hdead.
  destruct (main_is_a_mix u f) as (ice & a & Hm & Ha).
  rewrite Hm.
  assert (H0 : a = 0).
  { rewrite Ha. unfold IceShader.coverage.
    rewrite fold_accumulate_dead by exact Hdead.
    pose proof (Hn (GLSL.adds2 (GLSL.scale2 (IceShader.vIceUv f) 6.0)
                      (IceShader.uTime u * 0.01))).
    apply smoothstep_below; lra. }
  rewrite H0. replace (0 * 0.95) with 0 by ring. apply mix3_0.
Qed.

(** X8 (no live point, no ice).  If none of the trail points that the loop
    samples has an intensity above 0.01 (in particular before the first
    point is written), and the noise texture has no negative value, the
    injected chunk leaves the colour of the fragment untouched: the model
    shows its metal. *)
Theorem no_trail_point_no_ice (u : IceShader.Uniforms) (f : IceShader.Fragment) :
  IceShader.red_nonneg (IceShader.uNoiseTexture u) ->
  Forall (fun p => IceShader.intensity p <= 0.01)
    (IceTrail.trail_loop (IceShader.uTrailTexture u) (IceShader.uTrailCount u)
       0 IceTrail.MAX_TRAIL_POINTS) ->
  IceShader.main u f = IceShader.gl_FragColor f.
Proof. apply main_without_live_points. Qed.

Lemma no_trail_point_no_ice_witness :
  IceShader.main (IceShader.iceUniforms IceShader.greySamplers IceTrail.init)
    IceShader.someFragment
  = (1 / 4, 1 / 4, 1 / 4).
Proof.
  apply (no_trail_point_no_ice
           (IceShader.iceUniforms IceShader.greySamplers IceTrail.init)
           IceShader.someFragment).
  - intros uv. cbn. lra.
  - cbn. constructor.
Defined.



End IceShaderFacts.

(** ** Texture loaders: [loadTexture], [clearTextureCache], [TextureCache] *)

Section LoaderCachesFacts.
Import TextureLoaders LoaderCaches.

(** *** [loadTexture] *)

Lemma awaitTextures_cons path o cs s :
  awaitTextures ((path, o) :: cs) s =
  (fst (awaitTextures cs (fst (awaitTexture path o s))),
   snd (awaitTexture path o s) :: snd (awaitTextures cs (fst (awaitTexture path o s)))).
Proof.
  cbn [awaitTextures]. destruct (awaitTexture path o s) as [s1 r].
  cbn [fst snd]. by destruct (awaitTextures cs s1).
Qed.

(** The cache only grows, and a request is only made for a path that is
    not cached. *)
Lemma awaitTexture_keeps path o s p t :
  textureCache s !! p = Some t ->
  textureCache (fst (awaitTexture path o s)) !! p = Some t.
Proof.
  intros H. unfold awaitTexture.
  destruct (textureCache s !! path) as [t'|] eqn:E; [exact H|].
  destruct o; cbn [fst textureCache]; [|exact H].
  rewrite lookup_insert_ne; [exact H|]. intros ->. congruence.
Qed.

Lemma awaitTextures_keeps cs s p t :
  textureCache s !! p = Some t ->
  textureCache (fst (awaitTextures cs s)) !! p = Some t.
Proof.
  revert s. induction cs as [|[path o] cs IH]; intros s H; [exact H|].
  rewrite awaitTextures_cons. cbn [fst]. apply IH. by apply awaitTexture_keeps.
Qed.

Lemma awaitTexture_result path o s t :
  snd (awaitTexture path o s) = Some t ->
  textureCache (fst (awaitTexture path o s)) !! path = Some t.
Proof.
  unfold awaitTexture.
  destruct (textureCache s !! path) as [t'|] eqn:E.
  - cbn [fst snd]. congruence.
  - destruct o; cbn [fst snd textureCache]; [|discriminate].
    intros [= <-]. apply lookup_insert_eq.
Qed.

Lemma awaitTexture_hit path o s t :
  textureCache s !! path = Some t -> awaitTexture path o s = (s, Some t).
Proof. intros H. unfold awaitTexture. by rewrite H. Qed.

Lemma awaitTextures_lookup cs s j p o :
  cs !! j = Some (p, o) ->
  exists s',
    snd (awaitTextures cs s) !! j = Some (snd (awaitTexture p o s')) /\
    (forall q t, textureCache s !! q = Some t -> textureCache s' !! q = Some t) /\
    (forall q t, textureCache (fst (awaitTexture p o s')) !! q = Some t ->
       textureCache (fst (awaitTextures cs s)) !! q = Some t) /\
    length (requested (fst (awaitTextures cs s)))
      >= length (requested (fst (awaitTexture p o s'))).
Proof.
  revert s j. induction cs as [|[path o'] cs IH]; intros s j Hj; [discriminate|].
  rewrite awaitTextures_cons. cbn [fst snd].
  destruct j as [|j].
  - injection Hj as -> ->. exists s. cbn [lookup list_lookup].
    split; [reflexivity|]. split; [auto|]. split.
    + intros q t. apply awaitTextures_keeps.
    + clear. generalize (fst (awaitTexture p o s)). intros s0.
      revert s0. induction cs as [|[q oq] cs IHc]; intros s0; [cbn; lia|].
      rewrite awaitTextures_cons. cbn [fst].
      specialize (IHc (fst (awaitTexture q oq s0))).
      assert (length (requested (fst (awaitTexture q oq s0))) >= length (requested s0)).
      { unfold awaitTexture. destruct (textureCache s0 !! q); [cbn; lia|].
        destruct oq; cbn [fst requested]; rewrite length_app; cbn; lia. }
      lia.
  - cbn [lookup list_lookup] in *.
    destruct (IH (fst (awaitTexture path o' s)) j Hj) as (s' & Hr & Hk & Hk' & Hl).
    exists s'. split; [exact Hr|]. split; [|split; [exact Hk'|exact Hl]].
    intros q t Hq. apply Hk. by apply awaitTexture_keeps.
Qed.

Lemma awaitTextures_app cs1 cs2 s :
  fst (awaitTextures (cs1 ++ cs2) s)
  = fst (awaitTextures cs2 (fst (awaitTextures cs1 s))).
Proof.
  revert s. induction cs1 as [|[p o] cs1 IH]; intros s; [reflexivity|].
  cbn [app]. rewrite !awaitTextures_cons. cbn [fst]. apply IH.
Qed.

Lemma no_request_when_cached cs s path t :
  textureCache s !! path = Some t ->
  filter (fun p => p = path) (requested (fst (awaitTextures cs s)))
  = filter (fun p => p = path) (requested s).
Proof.
  revert s. induction cs as [|[p o] cs IH]; intros s H; [reflexivity|].
  rewrite awaitTextures_cons. cbn [fst].
  rewrite IH by (by apply awaitTexture_keeps).
  unfold awaitTexture. destruct (textureCache s !! p) as [t'|] eqn:E; [reflexivity|].
  assert (Hne : p <> path) by (intros ->; congruence).
  destruct o; cbn [fst requested]; rewrite filter_app, filter_cons_False by exact Hne;
    rewrite filter_nil; apply app_nil_r.
Qed.

Lemma result_is_cached cs s i path o t :
  cs !! i = Some (path, o) ->
  snd (awaitTextures cs s) !! i = Some (Some t) ->
  textureCache (fst (awaitTextures (take (S i) cs) s)) !! path = Some t.
Proof.
  revert s i. induction cs as [|[p o'] cs IH]; intros s i Hi Hr; [discriminate|].
  rewrite awaitTextures_cons in Hr. cbn [snd] in Hr.
  cbn [take]. rewrite awaitTextures_cons. cbn [fst].
  destruct i as [|i].
  - cbn [lookup list_lookup] in Hi, Hr. injection Hi as -> ->. injection Hr as Hr.
    rewrite take_0. cbn [awaitTextures fst]. by apply awaitTexture_result.
  - cbn [lookup list_lookup] in Hi, Hr. by apply (IH _ i).
Qed.

(** X10 ([loadTexture] hands out the cached object).  In a sequence of
    awaited calls of [loadTexture], once a call for a path has resolved with
    a texture, every later call for that path resolves with the very same
    texture object, whatever the network would do, and the path is never
    requested again.  (Unlike [loadModel], no copy is made.) *)
Theorem loadTexture_returns_the_cached_object
    (calls : list (string * Outcome)) (i j : nat) (path : string)
    (oi oj : Outcome) (t : nat) :
  (i < j)%nat ->
  calls !! i = Some (path, oi) ->
  calls !! j = Some (path, oj) ->
  snd (awaitTextures calls textureInit) !! i = Some (Some t) ->
  snd (awaitTextures calls textureInit) !! j = Some (Some t) /\
  filter (fun p => p = path) (requested (fst (awaitTextures calls textureInit)))
  = filter (fun p => p = path)
      (requested (fst (awaitTextures (take (S i) calls) textureInit))).
Proof.
  intros Hij Hi Hj Hri.
  split.
  - revert Hri Hj. generalize textureInit. revert i j Hij Hi.
    induction calls as [|[p o] cs IH]; intros i j Hij Hi s0 Hri Hj; [discriminate|].
    rewrite awaitTextures_cons in *. cbn [snd] in *.
    destruct i as [|i].
    + cbn [lookup list_lookup] in Hi, Hri. injection Hi as -> ->.
      injection Hri as Hri.
      destruct j as [|j]; [lia|]. cbn [lookup list_lookup] in Hj |- *.
      apply awaitTexture_result in Hri.
      destruct (awaitTextures_lookup cs (fst (awaitTexture path oi s0)) j path oj Hj)
        as (s' & Hr & Hk & _).
      etransitivity; [exact Hr|]. f_equal.
      rewrite (awaitTexture_hit path oj s' t); [reflexivity|]. by apply Hk.
    + destruct j as [|j]; [lia|]. cbn [lookup list_lookup] in *.
      apply (IH i j); [lia|exact Hi|exact Hri|exact Hj].
  - rewrite <- (take_drop (S i) calls) at 1. rewrite awaitTextures_app.
    apply (no_request_when_cached _ _ _ t). by apply (result_is_cached _ _ _ _ oi).
Qed.

Lemma loadTexture_returns_the_cached_object_witness :
  snd (awaitTextures [("a.jpg", Failed); ("a.jpg", Delivered); ("a.jpg", Failed)]
         textureInit) !! 2%nat = Some (Some 0%nat).
Proof.
  eapply (loadTexture_returns_the_cached_object
           [("a.jpg", Failed); ("a.jpg", Delivered); ("a.jpg", Failed)]
           1 2 "a.jpg" Delivered Failed 0).
  - lia.
  - reflexivity.
  - reflexivity.
  - vm_compute. reflexivity.
Defined.

(** *** [clearTextureCache] *)

Lemma geometriesOf_snapshot h o : geometriesOf o = bpGeometries (snapshot h o).
Proof.
  induction o as [i g m cs IH] using Object3D_forall_ind.
  cbn [geometriesOf snapshot bpGeometries]. f_equal.
  induction IH as [|c cs Hc _ IHcs]; [reflexivity|].
  cbn [flat_map List.map]. by rewrite Hc, IHcs.
Qed.

Lemma materialsOf_snapshot h o : materialsOf o = bpMaterials (snapshot h o).
Proof.
  induction o as [i g m cs IH] using Object3D_forall_ind.
  cbn [materialsOf snapshot bpMaterials]. f_equal.
  induction IH as [|c cs Hc _ IHcs]; [reflexivity|].
  cbn [flat_map List.map]. by rewrite Hc, IHcs.
Qed.

Lemma awaitModel_handed path gltf (s : ModelState) :
  handed (fst (awaitModel path gltf s)) = handed s ++ [snd (awaitModel path gltf s)].
Proof.
  unfold awaitModel. destruct (modelCache s !! path) as [c|] eqn:Hp.
  - rewrite (loadModel_hit path c s Hp). reflexivity.
  - rewrite (loadModel_miss path s Hp), onLoad_eq. reflexivity.
Qed.

Lemma awaitModel_miss_snapshot path gltf (s : ModelState) :
  cache_ok s -> modelCache s !! path = None ->
  snapshot (heap (fst (awaitModel path gltf s))) (snd (awaitModel path gltf s)) = gltf.
Proof.
  intros Hok Hp. unfold awaitModel. rewrite (loadModel_miss path s Hp).
  by destruct (onLoad_spec path gltf s Hok) as (c & _ & _ & _ & _ & _ & _ & _ & Hr & _).
Qed.

Lemma cached_model_resources (ms : ModelState) p c :
  modelCache ms !! p = Some c ->
  c ∈ (snd <$> map_to_list (modelCache ms)).
Proof.
  intros H. apply list_elem_of_fmap. exists (p, c). split; [reflexivity|].
  by apply elem_of_map_to_list.
Qed.

(** X11 ([clearTextureCache] and the clones).  [loadModel] hands out clones
    that share geometry and material with the cached original, and
    [clearTextureCache] disposes the geometry and the material of every
    cached original.  So, in any state of the cache, the object that an
    [await loadModel(path)] has just handed out (and that its consumer still
    holds) has every one of its geometries and materials disposed by a
    following [clearTextureCache]; for a first load these are all the
    geometries of the file.  Both caches are empty afterwards, and the next
    [loadModel] of any path misses. *)
Theorem clearTextureCache_disposes_what_clones_use
    (es : list Event) (path : string) (gltf : Blueprint)
    (ts : TextureState) (d : Disposed) :
  let a := awaitModel path gltf (steps es modelInit) in
  let cleared := clearTextureCache ts (fst a) d in
  snd a ∈ handed (snd (fst cleared)) /\
  (forall g, g ∈ geometriesOf (snd a) -> g ∈ disposedGeometries (snd cleared)) /\
  (forall m, m ∈ materialsOf (snd a) -> m ∈ disposedMaterials (snd cleared)) /\
  (modelCache (steps es modelInit) !! path = None ->
     geometriesOf (snd a) = bpGeometries gltf /\
     materialsOf (snd a) = bpMaterials gltf) /\
  textureCache (fst (fst cleared)) = ∅ /\
  modelCache (snd (fst cleared)) = ∅ /\
  (forall p, loadModel p (snd (fst cleared)) = (snd (fst cleared), None)).
Proof.
  cbv zeta.
  destruct (cache_steps_ok es) as [Hok _].
  set (s := steps es modelInit) in *.
  destruct (await_spec path gltf s Hok) as (c & Hc & _ & _ & Hs & _ & _ & _).
  pose proof (awaitModel_handed path gltf s) as Hh.
  set (s' := fst (awaitModel path gltf s)) in *.
  set (r := snd (awaitModel path gltf s)) in *.
  unfold clearTextureCache. cbn [fst snd handed disposedGeometries disposedMaterials
    textureCache modelCache].
  split; [rewrite Hh; apply elem_of_app; right; by left|].
  split; [|split; [|split; [|split; [reflexivity|split; [reflexivity|]]]]].
  - intros g Hg. apply elem_of_union. right. apply elem_of_list_to_set.
    apply list_elem_of_In, in_flat_map. exists c. split.
    + apply list_elem_of_In. by apply (cached_model_resources s' path).
    + apply list_elem_of_In.
      by rewrite (geometriesOf_snapshot (heap s') c), <- Hs, <- geometriesOf_snapshot.
  - intros m Hm. apply elem_of_union. right. apply elem_of_list_to_set.
    apply list_elem_of_In, in_flat_map. exists c. split.
    + apply list_elem_of_In. by apply (cached_model_resources s' path).
    + apply list_elem_of_In.
      by rewrite (materialsOf_snapshot (heap s') c), <- Hs, <- materialsOf_snapshot.
  - intros Hmiss. pose proof (awaitModel_miss_snapshot path gltf s Hok Hmiss) as Hg.
    fold s' r in Hg.
    by rewrite (geometriesOf_snapshot (heap s') r), (materialsOf_snapshot (heap s') r), Hg.
  - intros p. apply loadModel_miss. cbn [modelCache]. apply lookup_empty.
Qed.

(** *** The [TextureCache] class *)

Lemma calls_cons c cs this w :
  calls (c :: cs) this w =
  (fst (fst (calls cs (fst (fst (call c this w))) (snd (fst (call c this w))))),
   snd (fst (calls cs (fst (fst (call c this w))) (snd (fst (call c this w))))),
   snd (call c this w)
     :: snd (calls cs (fst (fst (call c this w))) (snd (fst (call c this w))))).
Proof.
  cbn [calls]. destruct (call c this w) as [[this1 w1] r]. cbn [fst snd].
  by destruct (calls cs this1 w1) as [[this2 w2] rs].
Qed.

(** Invoking callbacks touches only the invocation log. *)
Lemma fold_call_fields t l a :
  nextObject (fold_left (fun s cb => TextureLoaders.call cb t s) l a) = nextObject a /\
  loadCalls (fold_left (fun s cb => TextureLoaders.call cb t s) l a) = loadCalls a /\
  sharedIceTextures (fold_left (fun s cb => TextureLoaders.call cb t s) l a)
    = sharedIceTextures a /\
  sharedIceTexturesLoading (fold_left (fun s cb => TextureLoaders.call cb t s) l a)
    = sharedIceTexturesLoading a.
Proof.
  revert a. induction l as [|c l IH]; intros a; [by repeat split|].
  cbn [fold_left]. destruct (IH (TextureLoaders.call c t a)) as (H1 & H2 & H3 & H4).
  rewrite H1, H2, H3, H4. by repeat split.
Qed.

(** What [loadSharedIceTextures] does to the store of objects. *)
Lemma loadSharedIceTextures_nextObject onLoaded s :
  (nextObject s <= nextObject (fst (loadSharedIceTextures onLoaded s)))%nat.
Proof.
  unfold loadSharedIceTextures.
  destruct (sharedIceTextures s) as [t|].
  - destruct onLoaded; cbn; lia.
  - destruct (sharedIceTexturesLoading s).
    + destruct onLoaded; cbn; lia.
    + destruct onLoaded; cbn -[fold_left];
        match goal with
        | |- context [fold_left (fun s cb => TextureLoaders.call cb ?t s) ?l ?a] =>
            destruct (fold_call_fields t l a) as (-> & _)
        end; cbn; lia.
Qed.

(** One call: nothing is stored in [loadedTextures], nothing is disposed,
    and the textures handed out are new objects. *)
Lemma call_spec c this w :
  loadedTextures this = ∅ ->
  let this' := fst (fst (call c this w)) in
  let w' := snd (fst (call c this w)) in
  loadedTextures this' = ∅ /\
  textureDisposals w' = textureDisposals w /\
  (nextObject (globals w) <= nextObject (globals w'))%nat /\
  NoDup (ownTextures (snd (call c this w))) /\
  Forall (fun x => (nextObject (globals w) <= x < nextObject (globals w'))%nat)
    (ownTextures (snd (call c this w))).
Proof.
  intros He. cbv zeta. destruct c as [| | | |onLoaded].
  - cbn. split; [exact He|]. split; [reflexivity|]. split; [lia|].
    split.
    + repeat (apply NoDup_cons; split; [rewrite ?elem_of_cons, ?elem_of_nil; lia|]).
      apply NoDup_nil_2.
    + repeat constructor; lia.
  - unfold call, loadIceTextures.
    destruct (getSharedIceTextures (globals w)) as [t|] eqn:E.
    + cbn. split; [exact He|]. split; [reflexivity|]. split; [lia|].
      split; [apply NoDup_nil_2|constructor].
    + pose proof (loadSharedIceTextures_nextObject None (globals w)) as Hn.
      destruct (loadSharedIceTextures None (globals w)) as [s r]. cbn in *.
      split; [exact He|]. split; [reflexivity|]. split; [exact Hn|].
      split; [apply NoDup_nil_2|constructor].
  - cbn. split; [exact He|]. split; [reflexivity|]. split; [lia|].
    split; [apply NoDup_singleton|repeat constructor; lia].
  - cbn. rewrite He, map_to_list_empty. cbn. rewrite app_nil_r.
    split; [reflexivity|]. split; [reflexivity|]. split; [lia|].
    split; [apply NoDup_nil_2|constructor].
  - unfold call.
    pose proof (loadSharedIceTextures_nextObject onLoaded (globals w)) as Hn.
    destruct (loadSharedIceTextures onLoaded (globals w)) as [s r]. cbn in *.
    split; [exact He|]. split; [reflexivity|]. split; [exact Hn|].
    split; [apply NoDup_nil_2|constructor].
Qed.

Lemma calls_spec cs this w :
  loadedTextures this = ∅ ->
  let this' := fst (fst (calls cs this w)) in
  let w' := snd (fst (calls cs this w)) in
  loadedTextures this' = ∅ /\
  textureDisposals w' = textureDisposals w /\
  (nextObject (globals w) <= nextObject (globals w'))%nat /\
  NoDup (flat_map ownTextures (snd (calls cs this w))) /\
  Forall (fun x => (nextObject (globals w) <= x < nextObject (globals w'))%nat)
    (flat_map ownTextures (snd (calls cs this w))).
Proof.
  revert this w. induction cs as [|c cs IH]; intros this w He; cbv zeta.
  - cbn. split; [exact He|]. split; [reflexivity|]. split; [lia|].
    split; [apply NoDup_nil_2|constructor].
  - rewrite calls_cons. cbn [fst snd flat_map].
    destruct (call_spec c this w He) as (He1 & Hd1 & Hn1 & Hnd1 & Hf1).
    destruct (IH _ (snd (fst (call c this w))) He1) as (He2 & Hd2 & Hn2 & Hnd2 & Hf2).
    split; [exact He2|]. split; [congruence|]. split; [lia|]. split.
    + apply NoDup_app. split; [exact Hnd1|]. split; [|exact Hnd2].
      intros x Hx1 Hx2. rewrite Forall_forall in Hf1, Hf2.
      specialize (Hf1 x Hx1). specialize (Hf2 x Hx2). lia.
    + apply Forall_app. split.
      * eapply Forall_impl; [exact Hf1|]. intros x Hx. cbv beta in *. lia.
      * eapply Forall_impl; [exact Hf2|]. intros x Hx. cbv beta in *. lia.
Qed.

(** X12 (the [TextureCache] class caches nothing).  Whatever methods are
    called on a [TextureCache], in whatever order: nothing is ever stored in
    [loadedTextures], so every [loadMetalTextures] and [loadSmokeTexture]
    loads again and hands out new texture objects (all pairwise distinct),
    and [dispose()] disposes no texture at all. *)
Theorem texture_cache_class_caches_nothing (cs : list Call) (w : World) :
  let this' := fst (fst (calls cs newTextureCache w)) in
  let w' := snd (fst (calls cs newTextureCache w)) in
  let handedOut := flat_map ownTextures (snd (calls cs newTextureCache w)) in
  loadedTextures this' = ∅ /\
  textureDisposals w' = textureDisposals w /\
  NoDup handedOut /\
  (forall x, x ∈ handedOut -> (nextObject (globals w) <= x)%nat).
Proof.
  cbv zeta.
  destruct (calls_spec cs newTextureCache w eq_refl) as (He & Hd & _ & Hnd & Hf).
  split; [exact He|]. split; [exact Hd|]. split; [exact Hnd|].
  intros x Hx. rewrite Forall_forall in Hf. specialize (Hf x Hx). lia.
Qed.

(** *** [loadIceTextures] *)

Lemma iceRequests_load u s :
  iceRequests (snd (load u s)) = iceRequests s ++ filter (fun u => u ∈ iceUrls) [u].
Proof. unfold iceRequests. cbn [load snd loadCalls]. apply filter_app. Qed.

Lemma shared_from_unloaded onLoaded s :
  unloaded s ->
  exists t,
    snd (loadSharedIceTextures onLoaded s) = Some t /\
    loaded t (fst (loadSharedIceTextures onLoaded s)).
Proof.
  intros (Hn & Hl & Hr). unfold loadSharedIceTextures. rewrite Hn, Hl.
  destruct onLoaded as [cb|]; cbn -[fold_left];
    match goal with
    | |- context [fold_left (fun s cb => TextureLoaders.call cb ?t s) ?l ?a] =>
        destruct (fold_call_fields t l a) as (_ & H2 & H3 & _); exists t
    end;
    (split; [reflexivity|]); unfold loaded, iceRequests;
    cbn [sharedIceTextures loadCalls]; rewrite ?H2, ?H3; cbn [sharedIceTextures loadCalls];
    (split; [reflexivity|]);
    rewrite !filter_app; fold (iceRequests s); rewrite Hr; vm_compute; reflexivity.
Qed.

Lemma shared_from_loaded onLoaded t s :
  loaded t s ->
  snd (loadSharedIceTextures onLoaded s) = Some t /\
  loaded t (fst (loadSharedIceTextures onLoaded s)).
Proof.
  intros (Ht & Hr). unfold loadSharedIceTextures. rewrite Ht.
  split; [reflexivity|]. destruct onLoaded; cbn; by split.
Qed.

Lemma call_loaded c this w t :
  loaded t (globals w) ->
  loaded t (globals (snd (fst (call c this w)))) /\
  (forall r, snd (call c this w) = Ice r -> r = Some t).
Proof.
  intros Hl. pose proof Hl as (Ht & Hr). destruct c as [| | | |onLoaded].
  - split; [|discriminate]. split; [exact Ht|].
    unfold iceRequests in *. cbn. rewrite !filter_app, Hr. vm_compute. reflexivity.
  - unfold call, loadIceTextures, getSharedIceTextures. rewrite Ht. cbn.
    split; [exact Hl|]. by intros r [= <-].
  - split; [|discriminate]. split; [exact Ht|].
    unfold iceRequests in *. cbn. rewrite !filter_app, Hr. vm_compute. reflexivity.
  - split; [exact Hl|discriminate].
  - unfold call. destruct (shared_from_loaded onLoaded t (globals w) Hl) as [Hres Hl'].
    destruct (loadSharedIceTextures onLoaded (globals w)) as [s r]. cbn in *.
    split; [exact Hl'|]. intros r' [= <-]. exact Hres.
Qed.

Lemma call_unloaded c this w :
  unloaded (globals w) ->
  (unloaded (globals (snd (fst (call c this w)))) /\
   forall r, snd (call c this w) <> Ice r) \/
  (exists t, loaded t (globals (snd (fst (call c this w)))) /\
             forall r, snd (call c this w) = Ice r -> r = Some t).
Proof.
  intros Hu. pose proof Hu as (Hn & Hl & Hr). destruct c as [| | | |onLoaded].
  - left. split; [|discriminate]. split; [exact Hn|]. split; [exact Hl|].
    unfold iceRequests in *. cbn. rewrite !filter_app, Hr. vm_compute. reflexivity.
  - right. unfold call, loadIceTextures, getSharedIceTextures. rewrite Hn.
    destruct (shared_from_unloaded None (globals w) Hu) as (t & Hres & Hl').
    destruct (loadSharedIceTextures None (globals w)) as [s r]. cbn in *.
    exists t. split; [exact Hl'|]. intros r' [= <-]. exact Hres.
  - left. split; [|discriminate]. split; [exact Hn|]. split; [exact Hl|].
    unfold iceRequests in *. cbn. rewrite !filter_app, Hr. vm_compute. reflexivity.
  - left. split; [exact Hu|discriminate].
  - right. unfold call.
    destruct (shared_from_unloaded onLoaded (globals w) Hu) as (t & Hres & Hl').
    destruct (loadSharedIceTextures onLoaded (globals w)) as [s r]. cbn in *.
    exists t. split; [exact Hl'|]. intros r' [= <-]. exact Hres.
Qed.

Lemma calls_loaded cs this w t :
  loaded t (globals w) ->
  loaded t (globals (snd (fst (calls cs this w)))) /\
  (forall r, Ice r ∈ snd (calls cs this w) -> r = Some t).
Proof.
  revert this w. induction cs as [|c cs IH]; intros this w Hl.
  - split; [exact Hl|]. intros r Hr. by apply elem_of_nil in Hr.
  - rewrite calls_cons. cbn [fst snd].
    destruct (call_loaded c this w t Hl) as [Hl1 Hr1].
    destruct (IH (fst (fst (call c this w))) _ Hl1) as [Hl2 Hr2].
    split; [exact Hl2|]. intros r Hr. apply elem_of_cons in Hr as [Hr|Hr].
    + symmetry in Hr. by apply Hr1.
    + by apply Hr2.
Qed.

Lemma calls_unloaded cs this w :
  unloaded (globals w) ->
  (unloaded (globals (snd (fst (calls cs this w)))) /\
   forall r, Ice r ∉ snd (calls cs this w)) \/
  (exists t, loaded t (globals (snd (fst (calls cs this w)))) /\
             forall r, Ice r ∈ snd (calls cs this w) -> r = Some t).
Proof.
  revert this w. induction cs as [|c cs IH]; intros this w Hu.
  - left. split; [exact Hu|]. intros r Hr. by apply elem_of_nil in Hr.
  - rewrite calls_cons. cbn [fst snd].
    destruct (call_unloaded c this w Hu) as [[Hu1 Hr1]|(t & Hl1 & Hr1)].
    + destruct (IH (fst (fst (call c this w))) _ Hu1) as [[Hu2 Hr2]|(t & Hl2 & Hr2)].
      * left. split; [exact Hu2|]. intros r Hr.
        apply elem_of_cons in Hr as [Hr|Hr]; [by apply (Hr1 r)|by apply (Hr2 r)].
      * right. exists t. split; [exact Hl2|]. intros r Hr.
        apply elem_of_cons in Hr as [Hr|Hr]; [by destruct (Hr1 r)|by apply Hr2].
    + right. exists t.
      destruct (calls_loaded cs (fst (fst (call c this w))) _ t Hl1) as [Hl2 Hr2].
      split; [exact Hl2|]. intros r Hr.
      apply elem_of_cons in Hr as [Hr|Hr]; [symmetry in Hr; by apply Hr1|by apply Hr2].
Qed.

(** X13 ([loadIceTextures] never returns null).  After any history of calls
    on a [TextureCache] and of calls of [loadSharedIceTextures] by others,
    with or without a callback, [loadIceTextures] returns the shared bundle
    (the non-null assertion in its body never fails); every call before it
    that returned ice textures returned that same bundle object; and the
    five ice textures have been requested exactly once in all. *)
Theorem loadIceTextures_never_returns_null (cs : list Call) :
  let this' := fst (fst (calls cs newTextureCache newWorld)) in
  let w' := snd (fst (calls cs newTextureCache newWorld)) in
  exists t : IceTextures,
    snd (loadIceTextures this' w') = Some t /\
    (forall r, Ice r ∈ snd (calls cs newTextureCache newWorld) -> r = Some t) /\
    iceRequests (globals (snd (fst (loadIceTextures this' w')))) = iceUrls.
Proof.
  cbv zeta.
  assert (Hu : unloaded (globals newWorld)) by (by repeat split).
  destruct (calls_unloaded cs newTextureCache newWorld Hu)
    as [[Hu' Hr]|(t & Hl & Hr)].
  - set (w' := snd (fst (calls cs newTextureCache newWorld))) in *.
    set (this' := fst (fst (calls cs newTextureCache newWorld))) in *.
    destruct (call_unloaded LoadIceTextures this' w' Hu') as [[_ Hno]|(t & Hl & Hres)].
    + exfalso. unfold call in Hno. destruct (loadIceTextures this' w') as [[a b] r].
      by apply (Hno r).
    + exists t. unfold call in Hl, Hres.
      destruct (loadIceTextures this' w') as [[a b] r]. cbn [fst snd] in *.
      split; [by apply Hres|]. split; [|by destruct Hl].
      intros r' Hr'. by destruct (Hr r').
  - exists t.
    set (w' := snd (fst (calls cs newTextureCache newWorld))) in *.
    set (this' := fst (fst (calls cs newTextureCache newWorld))) in *.
    destruct (call_loaded LoadIceTextures this' w' t Hl) as [Hl' Hres].
    unfold call in Hl', Hres.
    destruct (loadIceTextures this' w') as [[a b] r]. cbn [fst snd] in *.
    split; [by apply Hres|]. split; [exact Hr|by destruct Hl'].
Qed.

End LoaderCachesFacts.

(** ** Scene orchestrator: frames *)

Section SceneFrames.
Import Scene SceneRuns.
Local Open Scope R_scope.

Ltac split_ifs :=
  repeat first
    [ progress cbn -[Nat.modulo Nat.eqb IceTrail.update]
    | match goal with
      | |- context [if ?b then _ else _] => destruct b eqn:?
      | |- context [match ?o with Some _ => _ | None => _ end] => destruct o eqn:?
      end ].

Lemma scene_animate_inv mobile env s :
  scene_inv mobile s -> scene_inv mobile (fst (animate env s)).
Proof.
  intros (Hm & Hg & Hk & Hi). unfold scene_inv, animate, loopUpdate, withLoop, withIce.
  split_ifs; repeat split; try assumption; intros; try (by apply Hi); by eexists.
Qed.

Lemma scene_step_inv mobile s e :
  scene_inv mobile s -> scene_inv mobile (fst (step s e)).
Proof.
  intros Hs.
  assert (Hf : forall a b, scene_inv mobile (withFlags a b s)) by (intros; exact Hs).
  destruct e as [env| |env| |env|meshes anim]; cbn [step].
  - by apply scene_animate_inv.
  - apply Hf.
  - cbn [isPageVisible withFlags]. destruct (isPageVisible s); [|apply Hf].
    apply scene_animate_inv, Hf.
  - apply Hf.
  - cbn [contextLost withFlags]. destruct (contextLost s); cbn [negb]; [apply Hf|].
    apply scene_animate_inv, Hf.
  - exact Hs.
Qed.

Lemma scene_run_cons e es s :
  run (e :: es) s =
  (fst (run es (fst (step s e))), snd (step s e) ++ snd (run es (fst (step s e)))).
Proof.
  cbn [run]. destruct (step s e) as [s1 a]. cbn [fst snd].
  by destruct (run es s1).
Qed.

Lemma scene_run_inv mobile es s :
  scene_inv mobile s -> scene_inv mobile (fst (run es s)).
Proof.
  revert s. induction es as [|e es IH]; intros s Hs; [exact Hs|].
  rewrite scene_run_cons. cbn [fst]. by apply IH, scene_step_inv.
Qed.

Lemma scene_construct_inv mobile type : scene_inv mobile (fst (construct mobile type)).
Proof.
  unfold scene_inv, construct. cbn.
  repeat split. intros ->. by eexists.
Qed.

(** X14 (one render per frame).  In every state a constructed scene can
    reach, the per-frame callback renders exactly when the scene is not
    paused and its container is in the viewport; it then renders exactly
    once, as its last action, after the smoke has been updated, through the
    post-processing pipeline on desktop and directly on mobile.  A frame
    off screen does nothing at all: not even the clock is read. *)
Theorem frame_renders_exactly_once
    (mobile : bool) (type : SceneType) (es : list Event) (env : Env) :
  let s := fst (run es (fst (construct mobile type))) in
  let acts := snd (animate env s) in
  renders acts = negb (paused s) && inViewport env /\
  (renders acts = true ->
     last acts = Some (if mobile then RendererRender else GodrayRender) /\
     render_count acts = 1%nat /\
     SmokeUpdate ∈ acts) /\
  (renders acts = false -> animate env s = (s, [])).
Proof.
  cbv zeta.
  pose proof (scene_run_inv mobile es _ (scene_construct_inv mobile type)) as (Hm & Hg & Hk & Hi).
  set (s := fst (run es (fst (construct mobile type)))) in *.
  unfold animate, paused, loopUpdate, withLoop, withIce, render_count.
  rewrite Hk, Hg.
  destruct (contextLost s || negb (isPageVisible s)); cbn [negb andb];
    [by repeat split|].
  destruct (inViewport env); cbn [negb]; [|by repeat split].
  cbn [andb shouldSkipFrame timingDelta timingElapsed].
  destruct mobile; cbn [negb];
    split_ifs; (split; [reflexivity|]);
    (split; [intros _; (split; [reflexivity|]); (split; [reflexivity|]);
             apply list_elem_of_In; cbn; tauto
            |discriminate]).
Qed.

(** What a frame does to the ice trail: nothing, or one [update] whose
    frame is built from the environment. *)
Lemma animate_ice env s :
  iceTrailEffect (fst (animate env s)) = iceTrailEffect s \/
  exists ice f,
    iceTrailEffect s = Some ice /\
    iceTrailEffect (fst (animate env s)) = Some (IceTrail.update f ice) /\
    IceTrail.deltaTime f = clockDelta env /\
    IceTrail.draws f = random env /\
    IceTrail.isScrolling f = scrolling env.
Proof.
  unfold animate, loopUpdate, withLoop, withIce.
  split_ifs; try (left; reflexivity);
    right; eexists _, _; (split; [reflexivity|]); (split; [reflexivity|]);
    repeat split; cbn; congruence.
Qed.

Lemma valid_frame_of_env env f :
  env_ok env ->
  IceTrail.deltaTime f = clockDelta env -> IceTrail.draws f = random env ->
  IceTrail.valid_frame f.
Proof.
  intros (Hd & Hf & Ha) Hdt Hr. unfold IceTrail.valid_frame. rewrite Hdt, Hr.
  repeat split; lra.
Qed.

Lemma animate_trail env n s :
  env_ok env -> trail_inv n s -> trail_inv (S n) (fst (animate env s)).
Proof.
  intros Henv (fs & Hfs & Hs & Hn).
  destruct (animate_ice env s) as [Heq|(ice & f & Hi & Hi' & Hdt & Hr & _)].
  - exists fs. rewrite Heq. repeat split; [assumption..|lia].
  - exists (fs ++ [f]). split; [|split].
    + apply Forall_app. split; [exact Hfs|].
      constructor; [by apply (valid_frame_of_env env)|constructor].
    + rewrite Hi', run_snoc. congruence.
    + rewrite length_app. cbn. lia.
Qed.

Lemma trail_inv_mono n m s : (n <= m)%nat -> trail_inv n s -> trail_inv m s.
Proof. intros Hnm (fs & ? & ? & ?). exists fs. repeat split; [assumption..|lia]. Qed.

Lemma scene_step_trail n s e :
  event_ok e -> trail_inv n s -> trail_inv (S n) (fst (step s e)).
Proof.
  intros He Hs.
  assert (Hf : forall a b, trail_inv n (withFlags a b s)) by (intros; exact Hs).
  destruct e as [env| |env| |env|meshes anim]; cbn [step]; cbn [event_ok] in He.
  - by apply animate_trail.
  - apply (trail_inv_mono n); [lia|apply Hf].
  - cbn [isPageVisible withFlags]. destruct (isPageVisible s).
    + apply animate_trail; [exact He|apply Hf].
    + apply (trail_inv_mono n); [lia|apply Hf].
  - apply (trail_inv_mono n); [lia|apply Hf].
  - cbn [contextLost withFlags]. destruct (contextLost s); cbn [negb].
    + apply (trail_inv_mono n); [lia|apply Hf].
    + apply animate_trail; [exact He|apply Hf].
  - apply (trail_inv_mono n); [lia|exact Hs].
Qed.

Lemma scene_run_trail es n s :
  Forall event_ok es -> trail_inv n s -> trail_inv (n + length es) (fst (run es s)).
Proof.
  intros Hes. revert n s. induction Hes as [|e es He _ IH]; intros n s Hs.
  - cbn. apply (trail_inv_mono n); [lia|exact Hs].
  - rewrite scene_run_cons. cbn [fst length].
    replace (n + S (length es))%nat with (S n + length es)%nat by lia.
    by apply IH, scene_step_trail.
Qed.

(** X15 (the trail of a scene is a run of updates).  Whatever happens to a
    desktop scene (frames, pauses, resumes, the model arriving), its ice
    trail is the state reached from a new effect by a sequence of [update]
    calls with valid frames, at most one per event.  So what holds after
    every such sequence holds in the scene: the count stays at most 64, ages
    are not negative and intensities stay between 0 and 1. *)
Theorem scene_trail_is_a_run_of_updates (type : SceneType) (es : list Event) :
  Forall event_ok es ->
  exists (fs : list IceTrail.Frame) (ice : IceTrail.state),
    Forall IceTrail.valid_frame fs /\
    (length fs <= length es)%nat /\
    ice = IceTrail.run fs IceTrail.init /\
    iceTrailEffect (fst (run es (fst (construct false type)))) = Some ice /\
    (IceTrail.trailCount ice <= IceTrail.maxTrailPoints)%nat /\
    IceTrail.points_ok ice.
Proof.
  intros Hes.
  assert (H0 : trail_inv 0 (fst (construct false type))).
  { exists []. repeat split; [constructor|]. cbn. lia. }
  destruct (scene_run_trail es 0 _ Hes H0) as (fs & Hfs & Hs & Hn).
  exists fs, (IceTrail.run fs IceTrail.init).
  destruct (reachable_ok fs Hfs) as [(_ & _ & _ & Hc) Hok].
  split; [exact Hfs|]. split; [lia|]. split; [reflexivity|].
  split; [exact Hs|]. split; [exact Hc|exact Hok].
Qed.

Lemma scene_trail_is_a_run_of_updates_witness :
  exists (fs : list IceTrail.Frame) (ice : IceTrail.state),
    Forall IceTrail.valid_frame fs /\
    (length fs <= 2)%nat /\
    ice = IceTrail.run fs IceTrail.init /\
    iceTrailEffect (fst (run [ModelLoaded 1 false; Tick pointerFrame]
                           (fst (construct false hero)))) = Some ice /\
    (IceTrail.trailCount ice <= IceTrail.maxTrailPoints)%nat /\
    IceTrail.points_ok ice.
Proof.
  apply (scene_trail_is_a_run_of_updates hero [ModelLoaded 1 false; Tick pointerFrame]).
  repeat constructor; cbn; lra.
Defined.

(** X16 (scrolling frames).  A frame during a scroll does no pointer work:
    it neither moves the model after the pointer nor casts a ray, and
    whatever the pointer is on it writes no point to the trail; the cursor,
    the count and the UV of every stored point are unchanged.  (The trail
    is still aged.) *)
Theorem scrolling_frame_does_no_pointer_work (env : Env) (s : state) :
  scrolling env = true ->
  existsb is_pointer_work (snd (animate env s)) = false /\
  forall ice ice',
    iceTrailEffect s = Some ice ->
    iceTrailEffect (fst (animate env s)) = Some ice' ->
    IceTrail.trailIndex ice' = IceTrail.trailIndex ice /\
    IceTrail.trailCount ice' = IceTrail.trailCount ice /\
    forall i, IceTrail.slot_u ice' i = IceTrail.slot_u ice i /\
              IceTrail.slot_v ice' i = IceTrail.slot_v ice i.
Proof.
  intros Hsc. split.
  - unfold animate, loopUpdate, withLoop, withIce. rewrite Hsc.
    split_ifs; reflexivity.
  - intros ice ice' Hi Hi'.
    destruct (animate_ice env s) as [Heq|(ice0 & f & Hi0 & Hi0' & _ & _ & Hf)].
    + rewrite Heq, Hi in Hi'. injection Hi' as <-. by repeat split.
    + rewrite Hi in Hi0. injection Hi0 as <-.
      rewrite Hi0' in Hi'. injection Hi' as <-.
      destruct (update_without_point f ice) as (H1 & H2 & _ & _ & H5).
      { unfold IceTrail.new_point. by rewrite Hf, Hsc. }
      split; [exact H1|]. split; [exact H2|exact H5].
Qed.

Lemma scrolling_frame_does_no_pointer_work_witness :
  existsb is_pointer_work
    (snd (animate scrollFrame
            (fst (run [ModelLoaded 1 false] (fst (construct false hero)))))) = false.
Proof.
  apply (scrolling_frame_does_no_pointer_work scrollFrame
           (fst (run [ModelLoaded 1 false] (fst (construct false hero))))).
  reflexivity.
Defined.

(** *** The animation loop *)

Lemma loopUpdates_cons d ds l :
  loopUpdates (d :: ds) l =
  (fst (loopUpdates ds (fst (loopUpdate d l))),
   snd (loopUpdate d l) :: snd (loopUpdates ds (fst (loopUpdate d l)))).
Proof.
  cbn [loopUpdates]. destruct (loopUpdate d l) as [l1 t]. cbn [fst snd].
  by destruct (loopUpdates ds l1).
Qed.

Lemma loopUpdates_length ds l : length (snd (loopUpdates ds l)) = length ds.
Proof.
  revert l. induction ds as [|d ds IH]; intros l; [reflexivity|].
  rewrite loopUpdates_cons. cbn [snd length]. by rewrite IH.
Qed.

(** X17 (the animation loop counts and adds).  After any number of
    [update()] calls the frame count has grown by the number of calls and
    the elapsed time by the sum of the deltas the clock returned; the
    options are unchanged.  The call number [k] (from 0) returns the delta
    of its own frame, the sum of the deltas up to it, and asks to skip the
    frame exactly when frame skipping is enabled and the new frame count is
    a multiple of the interval; with the default options no frame is ever
    skipped. *)
Theorem animation_loop_counts_and_adds (ds : list R) (l : AnimationLoop) :
  frameCount (fst (loopUpdates ds l)) = (frameCount l + length ds)%nat /\
  loopElapsedTime (fst (loopUpdates ds l)) = loopElapsedTime l + sum ds /\
  enableFrameSkipping (fst (loopUpdates ds l)) = enableFrameSkipping l /\
  frameSkipInterval (fst (loopUpdates ds l)) = frameSkipInterval l /\
  (forall k t, snd (loopUpdates ds l) !! k = Some t ->
     ds !! k = Some (timingDelta t) /\
     timingElapsed t = loopElapsedTime l + sum (take (S k) ds) /\
     shouldSkipFrame t =
       enableFrameSkipping l
       && ((frameCount l + S k) mod frameSkipInterval l =? 0)%nat) /\
  (enableFrameSkipping l = false ->
     Forall (fun t => shouldSkipFrame t = false) (snd (loopUpdates ds l))).
Proof.
  revert l. induction ds as [|d ds IH]; intros l.
  - cbn. split; [lia|]. split; [lra|]. split; [reflexivity|]. split; [reflexivity|].
    split; [|intros _; constructor].
    intros k t H. by rewrite lookup_nil in H.
  - rewrite loopUpdates_cons. cbn [fst snd].
    destruct (IH (fst (loopUpdate d l))) as (Hc & He & Hk & Hi & Ht & Hs).
    unfold loopUpdate in *. cbn [fst snd frameCount loopElapsedTime
      enableFrameSkipping frameSkipInterval] in *.
    split; [rewrite Hc; cbn [length]; lia|].
    split; [rewrite He; cbn [sum]; lra|].
    split; [exact Hk|]. split; [exact Hi|]. split.
    + intros [|k] t Hl.
      * cbn [lookup list_lookup] in Hl. injection Hl as <-.
        cbn [timingDelta timingElapsed shouldSkipFrame firstn sum lookup list_lookup].
        split; [reflexivity|]. split; [rewrite take_0; cbn [sum]; lra|].
        replace (frameCount l + 1)%nat with (S (frameCount l)) by lia. reflexivity.
      * cbn [lookup list_lookup] in Hl. destruct (Ht k t Hl) as (H1 & H2 & H3).
        split; [exact H1|]. split.
        -- rewrite H2. cbn [firstn sum]. lra.
        -- rewrite H3. do 2 f_equal. f_equal. lia.
    + intros Hoff. constructor; [cbn; by rewrite Hoff|]. by apply Hs.
Qed.

End SceneFrames.

(** ** Performance utilities *)

Section PerformanceFacts.
Import Performance.
Local Open Scope Q_scope.

Ltac qlra := Lqa.lra.

Lemma throttle_from_cons {A} delay lastCall now (args : A) calls :
  throttle_from delay lastCall ((now, args) :: calls) =
  if Qle_bool delay (now - lastCall)
  then (now, args) :: throttle_from delay now calls
  else throttle_from delay lastCall calls.
Proof.
  cbn [throttle_from]. unfold throttled. by destruct (Qle_bool _ _).
Qed.

Lemma throttle_from_sublist {A} delay lastCall (calls : list (Q * A)) :
  sublist (throttle_from delay lastCall calls) calls.
Proof.
  revert lastCall. induction calls as [|[now args] calls IH]; intros lastCall.
  - constructor.
  - rewrite throttle_from_cons. destruct (Qle_bool _ _).
    + by apply sublist_skip.
    + by apply sublist_cons.
Qed.

Lemma throttle_from_head {A} delay lastCall (calls : list (Q * A)) t a :
  head (throttle_from delay lastCall calls) = Some (t, a) ->
  delay <= t - lastCall.
Proof.
  revert lastCall. induction calls as [|[now args] calls IH]; intros lastCall.
  - discriminate.
  - rewrite throttle_from_cons. destruct (Qle_bool _ _) eqn:E.
    + cbn [head]. intros [= <- <-]. by apply Qle_bool_iff.
    + apply IH.
Qed.

Lemma throttle_from_spaced {A} delay lastCall (calls : list (Q * A)) k t1 a1 t2 a2 :
  throttle_from delay lastCall calls !! k = Some (t1, a1) ->
  throttle_from delay lastCall calls !! S k = Some (t2, a2) ->
  delay <= t2 - t1.
Proof.
  revert lastCall k. induction calls as [|[now args] calls IH]; intros lastCall k.
  - discriminate.
  - rewrite throttle_from_cons. destruct (Qle_bool _ _) eqn:E.
    + destruct k as [|k].
      * cbn [lookup list_lookup]. intros [= <- <-] H2.
        apply (throttle_from_head delay now calls t2 a2).
        by destruct (throttle_from delay now calls).
      * cbn [lookup list_lookup]. apply IH.
    + apply IH.
Qed.

(** X18 ([throttle]).  Of a sequence of calls of a throttled function, the
    calls passed on to the wrapped function are some of the calls made, in
    the order made, each with its own arguments; two calls passed on one
    after the other are at least [delay] ms apart, and so are the first one
    and time 0. *)
Theorem throttle_spaces_the_calls {A : Type} (delay : Q) (calls : list (Q * A)) :
  sublist (throttle delay calls) calls /\
  (forall t a, head (throttle delay calls) = Some (t, a) -> delay <= t) /\
  (forall k t1 a1 t2 a2,
     throttle delay calls !! k = Some (t1, a1) ->
     throttle delay calls !! S k = Some (t2, a2) ->
     delay <= t2 - t1).
Proof.
  unfold throttle. split; [apply throttle_from_sublist|]. split.
  - intros t a H. apply throttle_from_head in H. qlra.
  - apply throttle_from_spaced.
Qed.

(** *** The debounced resize handler *)

Lemma resizeRun_cons delay e es h :
  resizeRun delay (e :: es) h =
  (fst (resizeRun delay es (fst (resizeStep delay h e))),
   snd (resizeStep delay h e) ++ snd (resizeRun delay es (fst (resizeStep delay h e)))).
Proof.
  cbn [resizeRun]. destruct (resizeStep delay h e) as [h1 a]. cbn [fst snd].
  by destruct (resizeRun delay es h1).
Qed.

Lemma resizeRun_snoc delay es e h :
  resizeRun delay (es ++ [e]) h =
  (fst (resizeStep delay (fst (resizeRun delay es h)) e),
   snd (resizeRun delay es h) ++ snd (resizeStep delay (fst (resizeRun delay es h)) e)).
Proof.
  revert h. induction es as [|e0 es IH]; intros h.
  - cbn [app]. rewrite resizeRun_cons. cbn [resizeRun fst snd].
    rewrite app_nil_r. by destruct (resizeStep delay h e).
  - cbn [app]. rewrite !resizeRun_cons, IH. cbn [fst snd].
    by rewrite app_assoc.
Qed.

Lemma lastResize_snoc es e :
  lastResize (es ++ [e]) = match e with Resize now => Some now | _ => lastResize es end.
Proof. unfold lastResize. rewrite fold_left_app. by destruct e. Qed.

Lemma resizeRun_app delay es1 es2 h :
  resizeRun delay (es1 ++ es2) h =
  (fst (resizeRun delay es2 (fst (resizeRun delay es1 h))),
   snd (resizeRun delay es1 h) ++ snd (resizeRun delay es2 (fst (resizeRun delay es1 h)))).
Proof.
  revert h. induction es1 as [|e es1 IH]; intros h.
  - cbn. by destruct (resizeRun delay es2 h).
  - cbn [app]. rewrite !resizeRun_cons, IH. cbn [fst snd]. by rewrite app_assoc.
Qed.

(** An armed timer was armed by the last resize event, and a handler
    that no longer listens has no timer. *)
Lemma resize_armed delay es :
  let h := fst (resizeRun delay es installed) in
  (listening h = false -> resizeTimeout h = None) /\
  (forall d, resizeTimeout h = Some d ->
     exists t, lastResize es = Some t /\ d == t + delay).
Proof.
  cbv zeta. induction es as [|e es IH] using rev_ind.
  - split; discriminate.
  - destruct IH as [IHl IHt].
    rewrite resizeRun_snoc, lastResize_snoc. cbn [fst].
    set (h := fst (resizeRun delay es installed)) in *.
    destruct e as [now|now|]; cbn [resizeStep].
    + destruct (listening h) eqn:El; cbn [fst resizeTimeout listening].
      * split; [discriminate|]. intros d [= <-]. exists now. split; [reflexivity|qlra].
      * split; [intros _; by apply IHl|]. intros d Hd. rewrite (IHl eq_refl) in Hd.
        discriminate.
    + destruct (resizeTimeout h) as [d0|] eqn:E.
      * destruct (Qle_bool d0 now); cbn [fst resizeTimeout listening].
        -- split; [reflexivity|discriminate].
        -- rewrite E. split; [exact IHl|exact IHt].
      * cbn [fst]. rewrite E. split; [reflexivity|discriminate].
    + cbn [fst resizeTimeout listening]. split; [reflexivity|discriminate].
Qed.

Lemma resize_count delay es :
  (length (snd (resizeRun delay es installed))
   + match resizeTimeout (fst (resizeRun delay es installed)) with
     | Some _ => 1
     | None => 0
     end
   <= length (List.filter is_resize es))%nat.
Proof.
  induction es as [|e es IH] using rev_ind; [cbn; lia|].
  rewrite resizeRun_snoc, List.filter_app, !length_app. cbn [fst snd].
  set (h := fst (resizeRun delay es installed)) in *.
  destruct (resizeTimeout h) as [d0|] eqn:E;
    destruct e as [now|now|]; cbn [resizeStep List.filter is_resize length];
    rewrite ?E; try destruct (listening h); try destruct (Qle_bool d0 now);
    cbn [fst snd resizeTimeout length]; rewrite ?E, ?length_app; cbn [length]; lia.
Qed.

Lemma resize_after_cleanup delay es :
  resizeRun delay es {| resizeTimeout := None; listening := false |}
  = ({| resizeTimeout := None; listening := false |}, []).
Proof.
  induction es as [|e es IH]; [reflexivity|].
  rewrite resizeRun_cons. destruct e; cbn [resizeStep fst snd listening resizeTimeout];
    by rewrite IH.
Qed.

(** X19 (the resize handler is debounced).  Whatever the history of resize
    events and timer runs: when the callback runs, the last resize event is
    at least [delay] ms old; the callback has run at most once per resize
    event (a burst of events within [delay] ms gives one call); and once
    the cleanup function has been called the callback never runs again. *)
Theorem resize_callback_is_debounced
    (delay : Q) (es es' : list ResizeEvent) (e : ResizeEvent) :
  (forall c, c ∈ snd (resizeStep delay (fst (resizeRun delay es installed)) e) ->
     exists t, lastResize es = Some t /\ t + delay <= c) /\
  (length (snd (resizeRun delay es installed))
     <= length (List.filter is_resize es))%nat /\
  snd (resizeRun delay (es ++ Cleanup :: es') installed)
    = snd (resizeRun delay es installed).
Proof.
  split; [|split].
  - intros c Hc. destruct (resize_armed delay es) as [_ Ht].
    set (h := fst (resizeRun delay es installed)) in *.
    destruct e as [now|now|]; cbn [resizeStep] in Hc.
    + destruct (listening h); cbn [snd] in Hc; by apply elem_of_nil in Hc.
    + destruct (resizeTimeout h) as [d|] eqn:E; [|by apply elem_of_nil in Hc].
      destruct (Qle_bool d now) eqn:Ed; cbn [snd] in Hc; [|by apply elem_of_nil in Hc].
      apply list_elem_of_singleton in Hc as ->.
      destruct (Ht d eq_refl) as (t & Hl & Hd). exists t. split; [exact Hl|].
      apply Qle_bool_iff in Ed. qlra.
    + by apply elem_of_nil in Hc.
  - pose proof (resize_count delay es). lia.
  - rewrite resizeRun_app. cbn [snd]. rewrite resizeRun_cons.
    cbn [resizeStep fst snd]. rewrite resize_after_cleanup. cbn [snd app].
    by rewrite app_nil_r.
Qed.

End PerformanceFacts.

(** ** The frame scheduler *)

Section LenisFacts.
Import Lenis.
Local Open Scope Q_scope.

Ltac qlra := Lqa.lra.

Lemma lenis_run_cons e es s :
  run (e :: es) s =
  (fst (run es (fst (step s e))), snd (step s e) ++ snd (run es (fst (step s e)))).
Proof.
  cbn [run]. destruct (step s e) as [s1 a]. cbn [fst snd]. by destruct (run es s1).
Qed.

Lemma step_lastFrame s e :
  (snd (step s e) = [] /\ lastThreeJsFrame (fst (step s e)) = lastThreeJsFrame s) \/
  (exists t cbs,
     snd (step s e) = [(t, isScrolling s, cbs)] /\
     lastThreeJsFrame (fst (step s e)) = t /\
     cbs = threeJsCallbacks s /\
     (if isScrolling s then 33.33 else 16.67) <= t - lastThreeJsFrame s).
Proof.
  destruct e as [cb|cb|now|now|time]; cbn [step].
  - left. by split.
  - left. by split.
  - left. by split.
  - left. split; [reflexivity|]. unfold runTimers.
    destruct (scrollTimeout s); [|reflexivity]. by destruct (Qle_bool _ _).
  - unfold threeJsRaf.
    destruct (Qle_bool (if isScrolling s then 33.33 else 16.67)
                (time - lastThreeJsFrame s)) eqn:E; cbn [fst snd].
    + right. exists time, (threeJsCallbacks s). repeat split.
      by apply Qle_bool_iff.
    + left. by split.
Qed.

Lemma run_head es s t sc cbs :
  head (snd (run es s)) = Some (t, sc, cbs) ->
  (if sc then 33.33 else 16.67) <= t - lastThreeJsFrame s.
Proof.
  revert s. induction es as [|e es IH]; intros s; [discriminate|].
  rewrite lenis_run_cons. cbn [snd].
  destruct (step_lastFrame s e) as [[Hn Hl]|(t0 & cbs0 & Hd & Hl & _ & Hi)].
  - rewrite Hn. cbn [app]. intros H. apply IH in H. by rewrite Hl in H.
  - rewrite Hd. cbn [app head]. intros [= <- <- <-]. exact Hi.
Qed.

(** X20 (frames are paced).  The scheduler invokes the registered callbacks
    at most every 16.67 ms, and at most every 33.33 ms while the page
    scrolls: between a dispatch and the next one at least 16.67 ms pass, or
    33.33 ms if the page scrolls at the time of the second. *)
Theorem three_js_frames_are_paced
    (es : list Event) (s : state) (k : nat) (t1 t2 : Q) (sc1 sc2 : bool)
    (cbs1 cbs2 : list nat) :
  snd (run es s) !! k = Some (t1, sc1, cbs1) ->
  snd (run es s) !! S k = Some (t2, sc2, cbs2) ->
  (if sc2 then 33.33 else 16.67) <= t2 - t1.
Proof.
  revert s k. induction es as [|e es IH]; intros s k; [discriminate|].
  rewrite lenis_run_cons. cbn [snd].
  destruct (step_lastFrame s e) as [[Hn Hl]|(t0 & cbs0 & Hd & Hl & _ & Hi)].
  - rewrite Hn. cbn [app]. apply IH.
  - rewrite Hd. cbn [app]. destruct k as [|k].
    + cbn [lookup list_lookup]. intros [= <- <- <-] H2.
      assert (Hh : head (snd (run es (fst (step s e)))) = Some (t2, sc2, cbs2))
        by (by destruct (snd (run es (fst (step s e))))).
      apply run_head in Hh. by rewrite Hl in Hh.
    + cbn [lookup list_lookup]. apply IH.
Qed.

Lemma three_js_frames_are_paced_witness :
  16.67 <= 40 - 20.
Proof.
  apply (three_js_frames_are_paced [Add 1%nat; Raf 20; Raf 30; Raf 40] init 0
           20 40 false false [1%nat] [1%nat]); reflexivity.
Defined.

Lemma step_callbacks s e cb :
  adds cb e = false ->
  cb ∉ threeJsCallbacks s ->
  (cb ∉ threeJsCallbacks (fst (step s e))) /\
  Forall (fun d => cb ∉ snd d) (snd (step s e)).
Proof.
  intros Ha Hs. destruct e as [c|c|now|now|time]; cbn [step adds] in *.
  - split; [|constructor]. cbn [fst addThreeJsCallback threeJsCallbacks].
    apply bool_decide_eq_false in Ha.
    intros H. apply elem_of_app in H as [H|H]; [by apply Hs|].
    apply list_elem_of_singleton in H. by apply Ha.
  - split; [|constructor]. cbn [fst removeThreeJsCallback threeJsCallbacks].
    intros H. apply list_elem_of_filter in H as [_ H]. by apply Hs.
  - split; [exact Hs|constructor].
  - split; [|constructor]. unfold runTimers. destruct (scrollTimeout s); [|exact Hs].
    by destruct (Qle_bool _ _).
  - unfold threeJsRaf.
    destruct (Qle_bool (if isScrolling s then 33.33 else 16.67)
                (time - lastThreeJsFrame s)); cbn [fst snd threeJsCallbacks].
    + split; [exact Hs|]. constructor; [exact Hs|constructor].
    + split; [exact Hs|constructor].
Qed.

Lemma run_callbacks es s cb :
  existsb (adds cb) es = false ->
  cb ∉ threeJsCallbacks s ->
  (cb ∉ threeJsCallbacks (fst (run es s))) /\
  Forall (fun d => cb ∉ snd d) (snd (run es s)).
Proof.
  revert s. induction es as [|e es IH]; intros s Ha Hs.
  - split; [exact Hs|constructor].
  - rewrite lenis_run_cons. cbn [fst snd]. cbn [existsb] in Ha.
    apply orb_false_iff in Ha as [Ha1 Ha2].
    destruct (step_callbacks s e cb Ha1 Hs) as [Hs1 Hd1].
    destruct (IH _ Ha2 Hs1) as [Hs2 Hd2].
    split; [exact Hs2|]. apply Forall_app. by split.
Qed.

(** X21 (callbacks).  Every dispatch invokes exactly the callbacks that are
    registered at that time, in the order of their registration.
    [removeThreeJsCallback] removes every registration of the callback,
    however often it was added; from then on, until it is added again, the
    callback is never invoked. *)
Theorem removed_callback_is_never_invoked
    (es es' : list Event) (s : state) (callback : nat) :
  let s1 := removeThreeJsCallback callback (fst (run es s)) in
  (callback ∉ threeJsCallbacks s1) /\
  (forall time, snd (threeJsRaf time (fst (run es s))) = None
             \/ snd (threeJsRaf time (fst (run es s)))
                = Some (threeJsCallbacks (fst (run es s)))) /\
  (existsb (adds callback) es' = false ->
     Forall (fun d => callback ∉ snd d) (snd (run es' s1))).
Proof.
  cbv zeta. set (s0 := fst (run es s)).
  assert (Hn : callback ∉ threeJsCallbacks (removeThreeJsCallback callback s0)).
  { cbn [removeThreeJsCallback threeJsCallbacks]. intros H.
    apply list_elem_of_filter in H as [H _]. by apply H. }
  split; [exact Hn|]. split.
  - intros time. unfold threeJsRaf. destruct (Qle_bool _ _); cbn [snd]; auto.
  - intros Ha. by apply run_callbacks.
Qed.

End LenisFacts.

(** ** The pointer and the model *)

Section PointerFacts.
Import Pointer.
Local Open Scope R_scope.

Lemma handleMouseMove_ok rect clientX clientY mouse :
  0 < width rect -> 0 < height rect -> mouse_ok mouse ->
  mouse_ok (handleMouseMove rect clientX clientY mouse).
Proof.
  intros Hw Hh [Hx Hy]. unfold handleMouseMove, right, bottom, mouse_ok.
  destruct (Rle_dec (left rect) clientX) as [H1|H1]; [|cbn; lra].
  destruct (Rle_dec clientX (left rect + width rect)) as [H2|H2]; [|cbn; lra].
  destruct (Rle_dec (top rect) clientY) as [H3|H3]; [|cbn; lra].
  destruct (Rle_dec clientY (top rect + height rect)) as [H4|H4]; [|cbn; lra].
  cbn [x y].
  assert (Hiw : 0 < / width rect) by (by apply Rinv_0_lt_compat).
  assert (Hih : 0 < / height rect) by (by apply Rinv_0_lt_compat).
  assert (Hu : 0 <= (clientX - left rect) / width rect <= 1).
  { split.
    - unfold Rdiv. apply Rmult_le_pos; lra.
    - apply Rmult_le_reg_r with (width rect); [exact Hw|].
      unfold Rdiv. rewrite Rmult_assoc, Rinv_l by lra. lra. }
  assert (Hv : 0 <= (clientY - top rect) / height rect <= 1).
  { split.
    - unfold Rdiv. apply Rmult_le_pos; lra.
    - apply Rmult_le_reg_r with (height rect); [exact Hh|].
      unfold Rdiv. rewrite Rmult_assoc, Rinv_l by lra. lra. }
  lra.
Qed.

(** X22 (the pointer is normalised).  For a container with an area, the
    handler maps a pointer inside the container to the square [-1, 1] x
    [-1, 1], the left edge to x = -1, the right edge to x = 1, the top edge
    to y = 1 and the bottom edge to y = -1; a pointer outside the container
    pulls both coordinates towards 0 by 5 %.  So after any sequence of mouse
    events both coordinates are in [-1, 1]. *)
Theorem pointer_stays_normalised (es : list Event) (model : Model) :
  Forall event_ok es ->
  mouse_ok (fst (run es (mouse0, model))) /\
  (forall rect cy m, 0 < width rect -> 0 < height rect ->
     top rect <= cy <= bottom rect ->
     x (handleMouseMove rect (left rect) cy m) = -1 /\
     x (handleMouseMove rect (right rect) cy m) = 1) /\
  (forall rect cx m, 0 < width rect -> 0 < height rect ->
     left rect <= cx <= right rect ->
     y (handleMouseMove rect cx (top rect) m) = 1 /\
     y (handleMouseMove rect cx (bottom rect) m) = -1) /\
  (forall rect cx cy m,
     isMouseInContainer (handleMouseMove rect cx cy m) = false ->
     x (handleMouseMove rect cx cy m) = x m * 0.95 /\
     y (handleMouseMove rect cx cy m) = y m * 0.95).
Proof.
  intros Hes. split; [|split; [|split]].
  - assert (H : forall s, mouse_ok (fst s) -> mouse_ok (fst (run es s))).
    { induction Hes as [|e es He _ IH]; intros s Hs; [exact Hs|].
      cbn [run fold_left]. apply IH. destruct e as [rect cx cy|t dt]; cbn [step fst].
      - destruct He as [Hw Hh]. by apply handleMouseMove_ok.
      - exact Hs. }
    apply H. cbn. unfold mouse_ok. cbn. lra.
  - intros rect cy m Hw Hh [Ht Hb]. unfold handleMouseMove, right, bottom in *.
    split.
    + destruct (Rle_dec (left rect) (left rect)); [|lra].
      destruct (Rle_dec (left rect) (left rect + width rect)); [|lra].
      destruct (Rle_dec (top rect) cy); [|lra].
      destruct (Rle_dec cy (top rect + height rect)); [|lra].
      cbn [x]. unfold Rdiv. rewrite Rminus_diag. lra.
    + destruct (Rle_dec (left rect) (left rect + width rect)); [|lra].
      destruct (Rle_dec (left rect + width rect) (left rect + width rect)); [|lra].
      destruct (Rle_dec (top rect) cy); [|lra].
      destruct (Rle_dec cy (top rect + height rect)); [|lra].
      cbn [x]. replace (left rect + width rect - left rect) with (width rect) by ring.
      unfold Rdiv. rewrite Rinv_r by lra. lra.
  - intros rect cx m Hw Hh [Hl Hr]. unfold handleMouseMove, right, bottom in *.
    split.
    + destruct (Rle_dec (left rect) cx); [|lra].
      destruct (Rle_dec cx (left rect + width rect)); [|lra].
      destruct (Rle_dec (top rect) (top rect)); [|lra].
      destruct (Rle_dec (top rect) (top rect + height rect)); [|lra].
      cbn [y]. unfold Rdiv. rewrite Rminus_diag. lra.
    + destruct (Rle_dec (left rect) cx); [|lra].
      destruct (Rle_dec cx (left rect + width rect)); [|lra].
      destruct (Rle_dec (top rect) (top rect + height rect)); [|lra].
      destruct (Rle_dec (top rect + height rect) (top rect + height rect)); [|lra].
      cbn [y]. replace (top rect + height rect - top rect) with (height rect) by ring.
      unfold Rdiv. rewrite Rinv_r by lra. lra.
  - intros rect cx cy m. unfold handleMouseMove.
    repeat destruct (Rle_dec _ _); cbn; try discriminate; by split.
Qed.

Lemma pointer_stays_normalised_witness :
  mouse_ok (fst (run [MouseMove box 150 25; MouseMove box 300 25]
                   (mouse0, placed 0 0 3.51))).
Proof.
  apply (pointer_stays_normalised [MouseMove box 150 25; MouseMove box 300 25]
           (placed 0 0 3.51)).
  repeat constructor; cbn; lra.
Defined.

Lemma Rabs_le_bounds v b : Rabs v <= b -> - b <= v <= b.
Proof. unfold Rabs. destruct (Rcase_abs v); lra. Qed.

(** One step of the follow: the new value is a mix of the old one and the
    target. *)
Lemma follow_bound v target b :
  Rabs v <= b -> Rabs target <= b ->
  Rabs (v + (target - v) * 0.015) <= b.
Proof.
  intros Hv Ht.
  replace (v + (target - v) * 0.015) with (0.985 * v + 0.015 * target) by lra.
  apply Rabs_le. apply Rabs_le_bounds in Hv, Ht. lra.
Qed.

Lemma update_near_rest px ry s model mouse e dt :
  mouse_ok mouse -> near_rest px ry s model ->
  near_rest px ry s (updateModelInteraction ANIMATION_CONFIG model mouse e dt).
Proof.
  intros [Hx Hy] (Hpx & Hpy & Hpz & Hrx & Hry & Hrz & Hs).
  unfold near_rest, updateModelInteraction. cbn.
  pose proof (SIN_bound (e * 0.3)) as Hsin.
  split; [exact Hpx|]. split; [|split; [|split; [|split; [exact Hry|split; [|exact Hs]]]]].
  - replace (y mouse * 0.4 + sin (e * 0.3) * 0.05 - vy (position model))
      with ((y mouse * 0.4 + sin (e * 0.3) * 0.05) - vy (position model)) by lra.
    apply follow_bound; [exact Hpy|]. apply Rabs_le. lra.
  - apply follow_bound; [exact Hpz|]. apply Rabs_le. lra.
  - apply follow_bound; [exact Hrx|]. apply Rabs_le. lra.
  - apply follow_bound; [exact Hrz|]. apply Rabs_le. lra.
Qed.

Lemma run_near_rest px ry s es st :
  Forall event_ok es -> mouse_ok (fst st) -> near_rest px ry s (snd st) ->
  mouse_ok (fst (run es st)) /\ near_rest px ry s (snd (run es st)).
Proof.
  intros Hes. revert st. induction Hes as [|e es He _ IH]; intros st Hm Hn.
  - by split.
  - cbn [run fold_left]. apply IH; destruct e as [rect cx cy|t dt]; cbn [step fst snd].
    + destruct He. by apply handleMouseMove_ok.
    + exact Hm.
    + exact Hn.
    + by apply update_near_rest.
Qed.

(** X23 (the model stays near its rest pose).  Whatever the pointer does and
    however many frames run, the model follows without ever leaving a small
    box around the pose the loader gave it: its height stays within 0.45
    and its sideways offset within 0.4 of the rest position, its tilt
    within 0.03 rad about x and 0.02 rad about z; its position along x, its
    rotation about y and its scale are never touched. *)
Theorem model_stays_near_rest_pose (px ry s : R) (es : list Event) :
  Forall event_ok es ->
  near_rest px ry s (snd (run es (mouse0, placed px ry s))).
Proof.
  intros Hes. apply (run_near_rest px ry s es (mouse0, placed px ry s) Hes).
  - unfold mouse_ok. cbn. lra.
  - unfold near_rest, placed. cbn. rewrite Rabs_R0. repeat split; lra.
Qed.

Lemma model_stays_near_rest_pose_witness :
  near_rest 5 PI 5.625
    (snd (run [MouseMove box 150 25; Frame 0.016 0.016; Frame 0.032 0.016]
            (mouse0, placed 5 PI 5.625))).
Proof.
  apply (model_stays_near_rest_pose 5 PI 5.625
           [MouseMove box 150 25; Frame 0.016 0.016; Frame 0.032 0.016]).
  repeat constructor; cbn; lra.
Defined.

Lemma run_frames_snoc n et dts st :
  run (frames (S n) et dts) st = step (run (frames n et dts) st) (Frame (et n) (dts n)).
Proof.
  unfold frames, run. rewrite seq_S, List.map_app, fold_left_app. reflexivity.
Qed.

(** X24 (the model closes in on the pointer).  While the pointer rests, every
    frame shrinks what separates the sideways offset and the two tilts of
    the model from their targets by the same factor, 0.985, whatever the
    length of the frame: after [n] frames the distance is 0.985 ^ n times
    the initial one.  The model never overshoots, and how fast it follows
    depends on the frame rate, not on the time. *)
Theorem model_closes_in_on_pointer
    (n : nat) (mouse : Mouse) (model : Model) (elapsedTime deltaTime : nat -> R) :
  let after := snd (run (frames n elapsedTime deltaTime) (mouse, model)) in
  x mouse * 0.4 - vz (position after)
    = 0.985 ^ n * (x mouse * 0.4 - vz (position model)) /\
  y mouse * 0.03 - vx (rotation after)
    = 0.985 ^ n * (y mouse * 0.03 - vx (rotation model)) /\
  x mouse * 0.02 - vz (rotation after)
    = 0.985 ^ n * (x mouse * 0.02 - vz (rotation model)) /\
  fst (run (frames n elapsedTime deltaTime) (mouse, model)) = mouse.
Proof.
  cbv zeta. induction n as [|n IH].
  - cbn. repeat split; lra.
  - rewrite run_frames_snoc.
    destruct IH as (Hz & Hrx & Hrz & Hm).
    set (st := run (frames n elapsedTime deltaTime) (mouse, model)) in *.
    cbn [step fst snd]. rewrite Hm.
    unfold updateModelInteraction. cbn [position rotation vx vy vz
      ANIMATION_CONFIG mouseFollowRange mouseFollowSpeed mouseRotationScaleX
      mouseRotationScaleZ].
    rewrite <- !tech_pow_Rmult.
    repeat split; [rewrite Rmult_assoc, <- Hz|rewrite Rmult_assoc, <- Hrx
                  |rewrite Rmult_assoc, <- Hrz]; lra.
Qed.

End PointerFacts.

(** ** Micro-effect multiplexer: the loop and the component *)

Section IceButtonLoopFacts.
Import IceButton IceButtonLoop.
Local Open Scope Q_scope.

Ltac qlra := Lqa.lra.

(** What a frame draws for one instance. *)
Lemma advance_draw dt i :
  0 <= dt -> instance_ok i ->
  match snd (advance dt i) with
  | Blit p =>
      p = currentProgress (fst (fst (advance dt i))) /\ 0.001 < p /\ p <= 1
  | ClearCanvas =>
      currentProgress (fst (fst (advance dt i))) <= 0.001 /\
      isActive (fst (fst (advance dt i))) = false
  end.
Proof.
  intros Hdt Hi.
  destruct (advance_law dt i Hdt Hi) as (_ & (_ & _ & Hle) & _).
  revert Hle. unfold advance.
  repeat match goal with
         | |- context [Qlt_le_dec ?a ?b] => destruct (Qlt_le_dec a b)
         end; cbn [fst snd currentProgress isActive]; intros Hle;
    repeat split; assumption.
Qed.

(** Whether an instance keeps the loop going, as the frame computes it. *)
Lemma advance_active dt i :
  0 <= dt -> instance_ok i ->
  (targetProgress (fst (fst (advance dt i))) == 1 \/
   0.001 < currentProgress (fst (fst (advance dt i))) ->
   snd (fst (advance dt i)) = true) /\
  (at_rest i -> snd (fst (advance dt i)) = false).
Proof.
  intros Hdt Hi. pose proof Hi as (Ht & H0 & H1).
  destruct i as [t c a]. cbn [targetProgress currentProgress] in *.
  unfold advance, at_rest. cbn [targetProgress currentProgress isActive].
  destruct (Qlt_le_dec 0.001 (Qabs (t - c))) as [Hfar|Hnear].
  - split.
    + intros _. destruct (Qlt_le_dec 0 (t - c));
        repeat match goal with
               | |- context [Qlt_le_dec ?a ?b] => destruct (Qlt_le_dec a b)
               end; reflexivity.
    + intros [Ht0 Hc]. exfalso. apply (Qlt_not_le _ _ Hfar).
      apply Qabs_Qle_condition. split; qlra.
  - apply Qabs_Qle_condition in Hnear as [Hn1 Hn2].
    destruct (Qlt_le_dec 0.001 c) as [Hvis|Hinv].
    + split.
      * intros _. destruct (Qlt_le_dec 0.001 c); reflexivity.
      * intros [_ Hc]. exfalso. qlra.
    + split.
      * destruct (Qlt_le_dec 0.001 c); [exfalso; qlra|].
        cbn [fst snd targetProgress currentProgress].
        intros [Ht1|Hc]; exfalso; qlra.
      * intros _. destruct (Qlt_le_dec 0.001 c); reflexivity.
Qed.

Lemma animate_running d m :
  isAnimating m = true -> renderer m = true ->
  animate d m =
  ({| renderer := renderer m; textures := textures m;
      instances := (fun r => fst (fst r)) <$> (advance (frameDelta d) <$> instances m);
      pendingRegistrations := pendingRegistrations m;
      animationId :=
        if bool_decide (map_Exists (fun _ r => snd (fst r) = true)
                          (advance (frameDelta d) <$> instances m))
        then true else animationId m;
      isAnimating :=
        bool_decide (map_Exists (fun _ r => snd (fst r) = true)
                       (advance (frameDelta d) <$> instances m)) |},
   snd <$> (advance (frameDelta d) <$> instances m)).
Proof. intros Ha Hr. unfold animate. by rewrite Ha, Hr. Qed.

Lemma animate_idle d m :
  isAnimating m = false \/ renderer m = false -> animate d m = (m, ∅).
Proof.
  intros H. unfold animate.
  destruct H as [-> | ->]; [reflexivity|by rewrite orb_true_r].
Qed.

(** X25 (what a frame draws).  In every state the manager can reach, a
    frame renders an instance only with a progress above 0.001 and at most
    1, the progress the instance has after the frame; it clears the canvas
    of every other instance, whose progress is then at most 0.001 and which
    it marks inactive.  The shader never runs on a button that shows
    nothing. *)
Theorem frame_draws_only_what_shows
    (es : list Event) (d : Q) (id : string) (w : Draw) :
  Forall clock_ok es -> 0 <= d ->
  snd (animate d (run es newManager)) !! id = Some w ->
  exists i',
    instances (fst (animate d (run es newManager))) !! id = Some i' /\
    match w with
    | Blit p => p = currentProgress i' /\ 0.001 < p /\ p <= 1
    | ClearCanvas => currentProgress i' <= 0.001 /\ isActive i' = false
    end.
Proof.
  intros Hes Hd Hw. pose proof (manager_run_ok es Hes) as Hok.
  set (m := run es newManager) in *.
  destruct (isAnimating m) eqn:Ha; [|rewrite animate_idle in Hw by (by left);
                                      cbn in Hw; by rewrite lookup_empty in Hw].
  destruct (renderer m) eqn:Hr; [|rewrite animate_idle in Hw by (by right);
                                   cbn in Hw; by rewrite lookup_empty in Hw].
  rewrite (animate_running d m Ha Hr) in *. cbn [fst snd instances] in *.
  rewrite !lookup_fmap in *.
  destruct (instances m !! id) as [i|] eqn:E; [|discriminate].
  cbn in Hw |- *. injection Hw as <-.
  exists (fst (fst (advance (frameDelta d) i))). split; [reflexivity|].
  destruct (frameDelta_range d Hd) as [Hpos _].
  apply advance_draw; [by apply Qlt_le_weak|by apply (Hok id)].
Qed.

Lemma frame_draws_only_what_shows_witness :
  exists i',
    instances (fst (animate 0.016 (run [Register "cta"; Activate "cta" 0; Deactivate "cta"] newManager)))
      !! "cta" = Some i' /\
    currentProgress i' <= 0.001 /\ isActive i' = false.
Proof.
  apply (frame_draws_only_what_shows
           [Register "cta"; Activate "cta" 0; Deactivate "cta"] 0.016
           "cta" ClearCanvas).
  - repeat constructor; cbn; discriminate.
  - discriminate.
  - vm_compute. reflexivity.
Defined.

(** *** The loop runs exactly while something shows *)

Lemma animate_running_ok d m :
  0 <= d -> all_ok m ->
  isAnimating m = true -> renderer m = true ->
  renderer m = textures m -> pendingRegistrations m = [] ->
  loop_ok (fst (animate d m)).
Proof.
  intros Hd Hok Ha Hr Ht Hp. rewrite (animate_running d m Ha Hr). cbn [fst].
  destruct (frameDelta_range d Hd) as [Hpos _].
  assert (Hdt : 0 <= frameDelta d) by (by apply Qlt_le_weak).
  unfold loop_ok.
  cbn [renderer textures pendingRegistrations instances animationId isAnimating].
  split; [exact Ht|]. split; [exact Hp|]. split; [intros; exact Hr|].
  split; [by destruct (bool_decide _)|].
  intros id i'. rewrite !lookup_fmap.
  destruct (instances m !! id) as [i|] eqn:E; [|discriminate].
  cbn. intros [= <-] Hshow. apply bool_decide_eq_true.
  exists id, (advance (frameDelta d) i). split.
  - by rewrite lookup_fmap, E.
  - by apply (advance_active (frameDelta d) i Hdt (Hok id i E)).
Qed.

Lemma animate_loop_ok d m :
  0 <= d -> all_ok m -> loop_ok m -> loop_ok (fst (animate d m)).
Proof.
  intros Hd Hok Hl. pose proof Hl as (Ht & Hp & _ & Hid & _).
  destruct (isAnimating m) eqn:Ha; [|by rewrite animate_idle by (by left)].
  destruct (Hid eq_refl) as [_ Hr].
  by apply animate_running_ok.
Qed.

Lemma loop_ok_step m e : clock_ok e -> all_ok m -> loop_ok m -> loop_ok (step m e).
Proof.
  intros He Hok Hl. pose proof Hl as (Ht & Hp & Hren & Hid & Hshow).
  destruct e as [id|id|id d|id|d]; cbn [step clock_ok] in *.
  - (* register *)
    unfold register, initialize. rewrite Hp.
    destruct (renderer m) eqn:Hr.
    + rewrite <- Ht. unfold completeRegistration, withInstances, loop_ok.
      cbn [renderer textures pendingRegistrations instances animationId isAnimating].
      split; [congruence|]. split; [exact Hp|]. split; [intros; exact Hr|].
      split; [intros Ha; destruct (Hid Ha); by split|]. intros id' i'.
      destruct (decide (id = id')) as [->|Hne].
      * rewrite lookup_insert_eq. intros [= <-]. cbn. intros [H|H]; discriminate.
      * rewrite lookup_insert_ne by exact Hne. apply Hshow.
    + cbn [pendingRegistrations]. rewrite ?Hp. cbn [fold_left textures].
      unfold completeRegistration, withInstances, loop_ok.
      cbn [renderer textures pendingRegistrations instances animationId isAnimating].
      split; [reflexivity|]. split; [reflexivity|]. split; [reflexivity|].
      split; [intros Ha; destruct (Hid Ha) as [_ Hc]; congruence|].
      intros id' i'.
      destruct (decide (id = id')) as [->|Hne].
      * rewrite lookup_insert_eq. intros [= <-]. cbn. intros [H|H]; discriminate.
      * rewrite lookup_insert_ne by exact Hne. intros Hl'.
        specialize (Hren _ _ Hl'). congruence.
  - (* unregister *)
    unfold unregister. cbn [instances withInstances].
    destruct (bool_decide _) eqn:Eb.
    + apply bool_decide_eq_true in Eb.
      unfold stopAnimation, withInstances, loop_ok.
      cbn [renderer textures pendingRegistrations instances animationId isAnimating].
      split; [exact Ht|]. split; [exact Hp|].
      split; [intros id' i'; rewrite Eb, lookup_empty; discriminate|].
      split; [discriminate|].
      intros id' i'. rewrite Eb, lookup_empty. discriminate.
    + unfold withInstances, loop_ok.
      cbn [renderer textures pendingRegistrations instances animationId isAnimating].
      split; [exact Ht|]. split; [exact Hp|].
      split; [intros id' i' Hl'; apply lookup_delete_Some in Hl' as [_ Hl'];
              by apply (Hren id' i')|].
      split; [exact Hid|].
      intros id' i' Hl'. apply lookup_delete_Some in Hl' as [_ Hl']. by apply (Hshow id' i').
  - (* activate *)
    unfold activate. destruct (instances m !! id) as [i|] eqn:E; [|exact Hl].
    pose proof (Hren _ _ E) as Hr.
    assert (Hins : all_ok (withInstances
              (<[id := {| targetProgress := 1.0; currentProgress := currentProgress i;
                          isActive := true |}]> (instances m)) m)).
    { apply all_ok_insert; [exact Hok|].
      destruct (Hok id i E) as [_ Hc]. split; [right; reflexivity|exact Hc]. }
    unfold startAnimation. cbn [isAnimating withInstances].
    destruct (isAnimating m) eqn:Ha.
    + unfold loop_ok.
      cbn [renderer textures pendingRegistrations instances animationId isAnimating].
      split; [exact Ht|]. split; [exact Hp|]. split; [intros; exact Hr|].
      split; [intros _; by apply Hid|]. intros; exact Ha.
    + apply animate_running_ok; cbn [renderer textures pendingRegistrations isAnimating];
        try assumption; reflexivity.
  - (* deactivate *)
    unfold deactivate. destruct (instances m !! id) as [i|] eqn:E; [|exact Hl].
    unfold withInstances, loop_ok.
    cbn [renderer textures pendingRegistrations instances animationId isAnimating].
    split; [exact Ht|]. split; [exact Hp|].
    split; [intros; by apply (Hren id i)|].
    split; [exact Hid|]. intros id' i'.
    destruct (decide (id = id')) as [->|Hne].
    + rewrite lookup_insert_eq. intros [= <-]. cbn [targetProgress currentProgress].
      intros [H|H]; [discriminate|]. apply (Hshow id' i E). by right.
    + rewrite lookup_insert_ne by exact Hne. apply Hshow.
  - by apply animate_loop_ok.
Qed.

Lemma loop_ok_new : loop_ok newManager.
Proof.
  unfold loop_ok, newManager; cbn.
  repeat split; try discriminate; intros id i; rewrite lookup_empty; discriminate.
Qed.

Lemma loop_ok_run es : Forall clock_ok es -> loop_ok (run es newManager).
Proof.
  intros Hes. unfold run.
  assert (H : forall m, all_ok m -> loop_ok m ->
                        all_ok (fold_left step es m) /\ loop_ok (fold_left step es m)).
  { induction Hes as [|e es He _ IH]; intros m Hm Hl; [by split|].
    cbn [fold_left]. apply IH; [by apply manager_step_ok|by apply loop_ok_step]. }
  apply H; [|apply loop_ok_new].
  intros id i. unfold newManager. cbn [instances]. by rewrite lookup_empty.
Qed.

(** X26 (no lost wake-up).  In every state the manager can reach, as long
    as some button is hovered (its target is 1) or still shows ice (its
    progress is above 0.001), the loop is running and the next frame is
    requested: no sequence of registrations, hovers and frames leaves a
    button with ice that no frame will update. *)
Theorem loop_runs_while_ice_shows
    (es : list Event) (id : string) (i : IceButtonInstance) :
  Forall clock_ok es ->
  instances (run es newManager) !! id = Some i ->
  targetProgress i == 1 \/ 0.001 < currentProgress i ->
  isAnimating (run es newManager) = true /\
  animationId (run es newManager) = true.
Proof.
  intros Hes Hi Hshow.
  destruct (loop_ok_run es Hes) as (_ & _ & _ & Hid & Hs).
  pose proof (Hs id i Hi Hshow) as Ha. split; [exact Ha|]. by apply Hid.
Qed.

Lemma loop_runs_while_ice_shows_witness :
  isAnimating (run [Register "cta"; Activate "cta" 0; Frame 5; Deactivate "cta"] newManager)
    = true /\
  animationId (run [Register "cta"; Activate "cta" 0; Frame 5; Deactivate "cta"] newManager)
    = true.
Proof.
  apply (loop_runs_while_ice_shows
           [Register "cta"; Activate "cta" 0; Frame 5; Deactivate "cta"] "cta"
           {| targetProgress := 0.0;
              currentProgress := 0.016 * 0.12 + 0.1 * 0.12;
              isActive := true |}).
  - repeat constructor; cbn; discriminate.
  - vm_compute. reflexivity.
  - right. reflexivity.
Defined.

(** X27 (the idle loop stops).  In every state the manager can reach, if
    no button is hovered and none shows ice (every target is 0 and every
    progress at most 0.001), a frame ends the loop: it requests no further
    frame (the request id stays what it was), renders nothing and clears
    every canvas. *)
Theorem idle_loop_stops_at_the_next_frame (es : list Event) (d : Q) :
  Forall clock_ok es -> 0 <= d ->
  (forall id i, instances (run es newManager) !! id = Some i -> at_rest i) ->
  isAnimating (fst (animate d (run es newManager))) = false /\
  animationId (fst (animate d (run es newManager))) = animationId (run es newManager) /\
  forall id w, snd (animate d (run es newManager)) !! id = Some w -> w = ClearCanvas.
Proof.
  intros Hes Hd Hrest. pose proof (manager_run_ok es Hes) as Hok.
  destruct (loop_ok_run es Hes) as (_ & _ & _ & Hid & _).
  set (m := run es newManager) in *.
  destruct (frameDelta_range d Hd) as [Hpos _].
  assert (Hdt : 0 <= frameDelta d) by (by apply Qlt_le_weak).
  destruct (isAnimating m) eqn:Ha.
  2:{ rewrite animate_idle by (by left). cbn [fst snd]. split; [exact Ha|].
      split; [reflexivity|]. intros id w. rewrite lookup_empty. discriminate. }
  destruct (Hid eq_refl) as [_ Hr].
  assert (Hnone : bool_decide (map_Exists (fun _ r => snd (fst r) = true)
                    (advance (frameDelta d) <$> instances m)) = false).
  { apply bool_decide_eq_false. intros (id & r & Hl & Hact).
    rewrite lookup_fmap in Hl.
    destruct (instances m !! id) as [i|] eqn:E; [|discriminate].
    cbn in Hl. injection Hl as <-.
    destruct (advance_active (frameDelta d) i Hdt (Hok id i E)) as [_ Hoff].
    rewrite (Hoff (Hrest id i E)) in Hact. discriminate. }
  rewrite (animate_running d m Ha Hr). cbn [fst snd isAnimating animationId].
  rewrite Hnone. split; [reflexivity|]. split; [reflexivity|].
  - intros id w. rewrite !lookup_fmap.
    destruct (instances m !! id) as [i|] eqn:E; [|discriminate].
    cbn. intros [= <-].
    pose proof (advance_draw (frameDelta d) i Hdt (Hok id i E)) as Hdraw.
    destruct (advance_law (frameDelta d) i Hdt (Hok id i E))
      as (_ & _ & _ & _ & Hdown & _).
    destruct (Hrest id i E) as [Ht0 Hc].
    destruct (snd (advance (frameDelta d) i)) as [p|]; [|reflexivity].
    destruct Hdraw as (-> & Hgt & _). specialize (Hdown Ht0).
    cbv zeta in Hdown. exfalso. qlra.
Qed.

Lemma idle_loop_stops_at_the_next_frame_witness :
  isAnimating (fst (animate 0.016
     (run [Register "cta"; Activate "cta" 0; Deactivate "cta"; Frame 0.016] newManager)))
    = false.
Proof.
  apply (idle_loop_stops_at_the_next_frame
           [Register "cta"; Activate "cta" 0; Deactivate "cta"; Frame 0.016] 0.016).
  - repeat constructor; cbn; discriminate.
  - discriminate.
  - intros id i Hl. apply elem_of_map_to_list in Hl.
    remember (map_to_list _) as l eqn:El in Hl. vm_compute in El. subst l.
    apply list_elem_of_singleton in Hl. injection Hl as -> ->.
    split; cbn; [reflexivity|discriminate].
Defined.

(** *** How fast the ice can grow *)

Lemma tick_range e : clock_ok e -> 0 <= tick e /\ tick e <= 0.1 * (if runsFrame e then 1 else 0).
Proof.
  destruct e as [id|id|id d|id|d]; cbn [clock_ok tick runsFrame]; intros He;
    try (split; discriminate);
    destruct (frameDelta_range d He); split; qlra.
Qed.

Lemma clampedTime_snoc es e : clampedTime (es ++ [e]) == clampedTime es + tick e.
Proof.
  induction es as [|e' es IH]; cbn [app clampedTime]; [qlra|]. rewrite IH. qlra.
Qed.

Lemma clampedTime_nonneg es : Forall clock_ok es -> 0 <= clampedTime es.
Proof.
  induction 1 as [|e es He _ IH]; cbn [clampedTime]; [discriminate|].
  destruct (tick_range e He). qlra.
Qed.

Lemma frameCount_snoc es e :
  frameCount (es ++ [e]) = (frameCount es + (if runsFrame e then 1 else 0))%nat.
Proof.
  unfold frameCount. rewrite filter_app, length_app. f_equal.
  destruct e; reflexivity.
Qed.

Lemma clampedTime_frames es :
  Forall clock_ok es -> clampedTime es <= 0.1 * inject_Z (Z.of_nat (frameCount es)).
Proof.
  induction 1 as [|e es He _ IH]; [discriminate|].
  cbn [clampedTime]. destruct (tick_range e He) as [_ Hle].
  change (e :: es) with ([e] ++ es). unfold frameCount in *.
  rewrite filter_app, length_app, Nat2Z.inj_add, inject_Z_plus.
  assert (Hone : inject_Z (Z.of_nat (length (filter (fun e => runsFrame e = true) [e])))
                 == (if runsFrame e then 1 else 0)).
  { destruct e; reflexivity. }
  rewrite Hone. destruct (runsFrame e); qlra.
Qed.

(** A frame raises no progress by more than its clamped time allows. *)
Lemma animate_progress_bound d m B :
  0 <= d -> all_ok m ->
  (forall id i, instances m !! id = Some i -> currentProgress i <= linearSpeed * B) ->
  forall id i', instances (fst (animate d m)) !! id = Some i' ->
    currentProgress i' <= linearSpeed * (B + frameDelta d).
Proof.
  intros Hd Hok HB id i'. rewrite animate_lookup.
  destruct (instances m !! id) as [i|] eqn:E; [|discriminate].
  cbn. intros [= <-]. specialize (HB id i E).
  destruct (frameDelta_range d Hd) as [Hpos _].
  assert (Hdt : 0 <= frameDelta d) by (by apply Qlt_le_weak).
  unfold linearSpeed in *.
  destruct (negb (isAnimating m) || negb (renderer m)); [qlra|].
  destruct (advance_law (frameDelta d) i Hdt (Hok id i E)) as (_ & _ & Habs & _).
  cbv zeta in Habs. apply Qabs_Qle_condition in Habs as [_ Hup].
  unfold linearSpeed in Hup. qlra.
Qed.

Lemma step_progress_bound m e B :
  clock_ok e -> all_ok m -> 0 <= B ->
  (forall id i, instances m !! id = Some i -> currentProgress i <= linearSpeed * B) ->
  forall id i', instances (step m e) !! id = Some i' ->
    currentProgress i' <= linearSpeed * (B + tick e).
Proof.
  intros He Hok HB0 HB. unfold linearSpeed in *.
  destruct e as [id|id|id d|id|d]; cbn [step clock_ok tick] in *; intros id' i'.
  - unfold register.
    assert (Hsame : forall id0 i0, instances (initialize m) !! id0 = Some i0 ->
                      currentProgress i0 <= 0.12 * (B + 0)).
    { intros id0 i0. unfold initialize. destruct (renderer m).
      - intros Hl0. specialize (HB _ _ Hl0). qlra.
      - cbn [instances].
        generalize (pendingRegistrations m).
        intros ids. cbn [pendingRegistrations].
        assert (Hfold : forall ids m0,
          (forall id1 i1, instances m0 !! id1 = Some i1 -> currentProgress i1 <= 0.12 * (B + 0)) ->
          forall id1 i1,
            instances (fold_left (fun m id => completeRegistration id m) ids m0) !! id1 = Some i1 ->
            currentProgress i1 <= 0.12 * (B + 0)).
        { clear -HB0. intros ids'. induction ids' as [|a ids' IH]; intros m0 H0; [exact H0|].
          cbn [fold_left]. apply IH. intros id1 i1.
          unfold completeRegistration, withInstances. cbn [instances].
          destruct (decide (a = id1)) as [->|Hne].
          - rewrite lookup_insert_eq. intros [= <-]. cbn. qlra.
          - rewrite lookup_insert_ne by exact Hne. apply H0. }
        apply Hfold. cbn [instances]. intros id1 i1 Hl1.
        specialize (HB _ _ Hl1). qlra. }
    destruct (textures (initialize m)).
    + unfold completeRegistration, withInstances. cbn [instances].
      destruct (decide (id = id')) as [->|Hne].
      * rewrite lookup_insert_eq. intros [= <-]. cbn. qlra.
      * rewrite lookup_insert_ne by exact Hne. apply Hsame.
    + cbn [instances]. apply Hsame.
  - unfold unregister. cbn [instances withInstances].
    destruct (bool_decide _); cbn [instances stopAnimation withInstances];
      intros Hl'; apply lookup_delete_Some in Hl' as [_ Hl'];
      specialize (HB _ _ Hl'); qlra.
  - destruct (frameDelta_range d He) as [Hpos _].
    unfold activate. destruct (instances m !! id) as [i|] eqn:E;
      [|intros Hl'; specialize (HB _ _ Hl'); qlra].
    set (m1 := withInstances _ m).
    assert (Hok1 : all_ok m1).
    { apply all_ok_insert; [exact Hok|].
      destruct (Hok id i E) as [_ Hc]. split; [right; reflexivity|exact Hc]. }
    assert (HB1 : forall id0 i0, instances m1 !! id0 = Some i0 ->
                    currentProgress i0 <= 0.12 * B).
    { intros id0 i0. unfold m1, withInstances. cbn [instances].
      destruct (decide (id = id0)) as [->|Hne].
      - rewrite lookup_insert_eq. intros [= <-]. cbn. by apply (HB id0).
      - rewrite lookup_insert_ne by exact Hne. apply HB. }
    unfold startAnimation. destruct (isAnimating m1).
    + intros Hl'. specialize (HB1 _ _ Hl'). qlra.
    + apply (animate_progress_bound d _ B He); [|exact HB1].
      eapply all_ok_same; [|exact Hok1]. reflexivity.
  - unfold deactivate. destruct (instances m !! id) as [i|] eqn:E;
      [|intros Hl'; specialize (HB _ _ Hl'); qlra].
    unfold withInstances. cbn [instances].
    destruct (decide (id = id')) as [->|Hne].
    + rewrite lookup_insert_eq. intros [= <-]. cbn.
      specialize (HB _ _ E). qlra.
    + rewrite lookup_insert_ne by exact Hne. intros Hl'.
      specialize (HB _ _ Hl'). qlra.
  - by apply animate_progress_bound.
Qed.

(** X28 (the ice cannot grow faster than 0.12 per second of clamped frame
    time).  After any history, the progress of a button is at most 0.12
    times the clamped time of the frames that ran, and so at most 0.012
    times their number: whatever the clock reads, no button is covered in
    fewer than 84 frames. *)
Theorem progress_is_bounded_by_frame_time
    (es : list Event) (id : string) (i : IceButtonInstance) :
  Forall clock_ok es ->
  instances (run es newManager) !! id = Some i ->
  currentProgress i <= linearSpeed * clampedTime es /\
  currentProgress i <= 0.012 * inject_Z (Z.of_nat (frameCount es)) /\
  (currentProgress i == 1 -> (84 <= frameCount es)%nat).
Proof.
  intros Hes Hi.
  assert (H : currentProgress i <= linearSpeed * clampedTime es).
  { revert id i Hi. induction es as [|e es IH] using rev_ind; intros id i.
    - unfold run, newManager. cbn. rewrite lookup_empty. discriminate.
    - apply Forall_app in Hes as [Hes He]. apply Forall_inv in He.
      unfold run. rewrite fold_left_app. cbn [fold_left]. intros Hi.
      rewrite clampedTime_snoc.
      apply (step_progress_bound (run es newManager) e (clampedTime es) He
               (manager_run_ok es Hes) (clampedTime_nonneg es Hes) (IH Hes) id i Hi). }
  pose proof (clampedTime_frames es Hes) as Hf. unfold linearSpeed in H.
  split; [exact H|]. split; [qlra|].
  intros H1. apply Nat2Z.inj_le. apply Z.lt_pred_le. 
  assert (Hq : 83 < inject_Z (Z.of_nat (frameCount es))) by qlra.
  change (inject_Z 83 < inject_Z (Z.of_nat (frameCount es))) in Hq.
  by rewrite <- Zlt_Qlt in Hq.
Qed.

Lemma progress_is_bounded_by_frame_time_witness :
  (0.016 * 0.12 + 0.1 * 0.12 <= linearSpeed * clampedTime [Register "cta"; Activate "cta" 0; Frame 5])%Q.
Proof.
  apply (progress_is_bounded_by_frame_time [Register "cta"; Activate "cta" 0; Frame 5]
           "cta" {| targetProgress := 1.0;
                    currentProgress := 0.016 * 0.12 + 0.1 * 0.12;
                    isActive := true |}).
  - repeat constructor; cbn; discriminate.
  - vm_compute. reflexivity.
Defined.

(** *** The button component over the manager *)

Lemma activate_spec d m id i :
  0 <= d -> all_ok m -> loop_ok m ->
  instances m !! id = Some i ->
  exists i',
    instances (activate id d m) !! id = Some i' /\
    targetProgress i' == 1 /\
    isAnimating (activate id d m) = true /\
    currentProgress i <= currentProgress i' /\
    currentProgress i' <= currentProgress i + 0.012.
Proof.
  intros Hd Hok Hl Hi.
  pose proof (loop_ok_step m (Activate id d) Hd Hok Hl) as (_ & _ & _ & _ & Hshow).
  cbn [step] in Hshow.
  assert (H : exists i',
    instances (activate id d m) !! id = Some i' /\
    targetProgress i' == 1 /\
    currentProgress i <= currentProgress i' /\
    currentProgress i' <= currentProgress i + 0.012).
  { unfold activate. rewrite Hi. unfold startAnimation. cbn [isAnimating withInstances].
    set (j := {| targetProgress := 1.0; currentProgress := currentProgress i;
                 isActive := true |}).
    assert (Hj : instance_ok j).
    { destruct (Hok id i Hi) as [_ Hc]. split; [right; reflexivity|exact Hc]. }
    destruct (isAnimating m).
    - exists j. unfold withInstances. cbn [instances]. rewrite lookup_insert_eq.
      split; [reflexivity|]. split; [reflexivity|]. cbn. split; qlra.
    - rewrite animate_lookup. unfold withInstances.
      cbn [instances isAnimating renderer negb orb].
      rewrite lookup_insert_eq. cbn [fmap option_fmap option_map].
      eexists. split; [reflexivity|].
      destruct (renderer m); cbn [negb]; [|split; [reflexivity|cbn; split; qlra]].
      destruct (frameDelta_range d Hd) as [Hpos Hcap].
      assert (Hdt : 0 <= frameDelta d) by (by apply Qlt_le_weak).
      destruct (advance_law (frameDelta d) j Hdt Hj) as (Ht & _ & Habs & Hup & _).
      cbv zeta in *. rewrite Ht. split; [reflexivity|].
      apply Qabs_Qle_condition in Habs as [_ Hle]. unfold linearSpeed in Hle.
      specialize (Hup ltac:(reflexivity)). cbn [currentProgress j] in *.
      change (currentProgress j) with (currentProgress i) in *. split; qlra. }
  destruct H as (i' & Hl' & Ht & Hc). exists i'.
  split; [exact Hl'|]. split; [exact Ht|]. split; [|exact Hc].
  apply (Hshow id i' Hl'). by left.
Qed.

Lemma register_instances m id :
  loop_ok m -> instances (register id m) = <[id := newInstance]> (instances m).
Proof.
  intros (Ht & Hp & _). unfold register, initialize. rewrite Hp.
  destruct (renderer m); [rewrite <- Ht|]; reflexivity.
Qed.

Lemma animate_dom d m id :
  is_Some (instances (fst (animate d m)) !! id) <-> is_Some (instances m !! id).
Proof. rewrite animate_lookup. apply fmap_is_Some. Qed.

Lemma activate_dom d m id id' :
  is_Some (instances (activate id d m) !! id') <-> is_Some (instances m !! id').
Proof.
  unfold activate. destruct (instances m !! id) as [i|] eqn:E; [|reflexivity].
  unfold startAnimation. cbn [isAnimating withInstances].
  assert (Hins : forall j, is_Some (<[id := j]> (instances m) !! id')
                           <-> is_Some (instances m !! id')).
  { intros j. destruct (decide (id = id')) as [->|Hne].
    - rewrite lookup_insert_eq, E. split; intros _; eauto.
    - by rewrite lookup_insert_ne. }
  destruct (isAnimating m).
  - unfold withInstances. cbn [instances]. apply Hins.
  - rewrite animate_dom. unfold withInstances. cbn [instances]. apply Hins.
Qed.

Lemma deactivate_dom m id id' :
  is_Some (instances (deactivate id m) !! id') <-> is_Some (instances m !! id').
Proof.
  unfold deactivate. destruct (instances m !! id) as [i|] eqn:E; [|reflexivity].
  unfold withInstances. cbn [instances].
  destruct (decide (id = id')) as [->|Hne].
  - rewrite lookup_insert_eq, E. split; intros _; eauto.
  - by rewrite lookup_insert_ne.
Qed.

Lemma unregister_instances m id : instances (unregister id m) = delete id (instances m).
Proof. unfold unregister. by destruct (bool_decide _). Qed.

(** A frame, or a call of another button, neither adds nor removes the
    instance of this one. *)
Lemma step_elsewhere m e id :
  loop_ok m ->
  match e with
  | Register i | Unregister i | Activate i _ | Deactivate i => i <> id
  | Frame _ => True
  end ->
  is_Some (instances (step m e) !! id) <-> is_Some (instances m !! id).
Proof.
  intros Hl. destruct e as [i|i|i d|i|d]; cbn [step]; intros Hne.
  - rewrite register_instances by exact Hl. by rewrite lookup_insert_ne.
  - rewrite unregister_instances. by rewrite lookup_delete_ne.
  - apply activate_dom.
  - apply deactivate_dom.
  - apply animate_dom.
Qed.

Lemma buttonStep_inv id0 s e :
  button_event_ok id0 e ->
  id (fst s) = id0 /\ all_ok (snd s) /\ loop_ok (snd s) /\
  (isRegistered (fst s) = true <-> is_Some (instances (snd s) !! id0)) ->
  id (fst (buttonStep s e)) = id0 /\ all_ok (snd (buttonStep s e)) /\
  loop_ok (snd (buttonStep s e)) /\
  (isRegistered (fst (buttonStep s e)) = true
   <-> is_Some (instances (snd (buttonStep s e)) !! id0)).
Proof.
  destruct s as [b m]. cbn [fst snd]. intros He (Hid & Hok & Hl & Hreg).
  destruct e as [d| | |e]; cbn [buttonStep button_event_ok fst snd] in *.
  - unfold handleMouseEnter. destruct (isRegistered b) eqn:Er; cbn [negb fst snd id isRegistered].
    + rewrite Er. split; [exact Hid|].
      split; [apply (manager_step_ok m (Activate (id b) d) He Hok)|].
      split; [apply (loop_ok_step m (Activate (id b) d) He Hok Hl)|].
      rewrite activate_dom. exact Hreg.
    + pose proof (manager_step_ok m (Register (id b)) I Hok) as Hok1.
      pose proof (loop_ok_step m (Register (id b)) I Hok Hl) as Hl1.
      cbn [step] in Hok1, Hl1. split; [exact Hid|].
      split; [apply (manager_step_ok _ (Activate (id b) d) He Hok1)|].
      split; [apply (loop_ok_step _ (Activate (id b) d) He Hok1 Hl1)|].
      rewrite activate_dom, register_instances by exact Hl.
      rewrite Hid, lookup_insert_eq. split; intros _; eauto.
  - unfold handleMouseLeave. cbn [fst snd]. split; [exact Hid|].
    split; [apply (manager_step_ok m (Deactivate (id b)) I Hok)|].
    split; [apply (loop_ok_step m (Deactivate (id b)) I Hok Hl)|].
    rewrite deactivate_dom. exact Hreg.
  - unfold unmount. destruct (isRegistered b) eqn:Er; cbn [fst snd id isRegistered].
    + split; [exact Hid|].
      split; [apply (manager_step_ok m (Unregister (id b)) I Hok)|].
      split; [apply (loop_ok_step m (Unregister (id b)) I Hok Hl)|].
      rewrite unregister_instances, Hid, lookup_delete_eq.
      split; [discriminate|intros [x Hx]; discriminate].
    + split; [exact Hid|]. split; [exact Hok|]. split; [exact Hl|].
      rewrite ?Er. exact Hreg.
  - destruct He as [Hc Hne]. split; [exact Hid|].
    split; [by apply manager_step_ok|]. split; [by apply loop_ok_step|].
    rewrite step_elsewhere by assumption. exact Hreg.
Qed.

Lemma buttonRun_inv id0 h :
  Forall (button_event_ok id0) h ->
  let s := buttonRun h (mounted id0, newManager) in
  id (fst s) = id0 /\ all_ok (snd s) /\ loop_ok (snd s) /\
  (isRegistered (fst s) = true <-> is_Some (instances (snd s) !! id0)).
Proof.
  intros Hh. cbv zeta. unfold buttonRun.
  induction h as [|e h IH] using rev_ind.
  - cbn. split; [reflexivity|]. split; [|split; [apply loop_ok_new|]].
    + intros k i. unfold newManager; cbn. rewrite lookup_empty. discriminate.
    + rewrite lookup_empty. split; [discriminate|intros [x Hx]; discriminate].
  - apply Forall_app in Hh as [Hh He]. apply Forall_inv in He.
    rewrite fold_left_app. cbn [fold_left]. apply buttonStep_inv; [exact He|by apply IH].
Qed.

(** X29 (a hover always takes effect, and never restarts the ice).  Whatever
    happened to a button before (hovers, leaves, unmounting and mounting
    again, frames, other buttons using the manager), a pointer enter leaves
    it registered with target 1 and the loop running, and its progress is
    the one it had before the event, or that plus one frame of at most
    0.012: the lazy registration happens only while the button has no
    instance, so entering again never resets the ice to 0. *)
Theorem hover_takes_effect_without_restart
    (id0 : string) (h : list ButtonEvent) (d : Q) :
  Forall (button_event_ok id0) h -> 0 <= d ->
  let s := buttonRun h (mounted id0, newManager) in
  let s' := buttonStep s (MouseEnter d) in
  exists i',
    instances (snd s') !! id0 = Some i' /\
    isRegistered (fst s') = true /\
    targetProgress i' == 1 /\
    isAnimating (snd s') = true /\
    progressOf s <= currentProgress i' /\
    currentProgress i' <= progressOf s + 0.012.
Proof.
  intros Hh Hd. cbv zeta.
  destruct (buttonRun_inv id0 h Hh) as (Hid & Hok & Hl & Hreg).
  destruct (buttonRun h (mounted id0, newManager)) as [b m]. cbn [fst snd] in *.
  unfold progressOf. cbn [buttonStep fst snd]. unfold handleMouseEnter.
  destruct (isRegistered b) eqn:Er; cbn [negb fst snd id isRegistered].
  - destruct (proj1 Hreg eq_refl) as [i Hi]. rewrite Hid, Hi.
    destruct (activate_spec d m id0 i Hd Hok Hl Hi) as (i' & H1 & H2 & H3 & H4 & H5).
    exists i'. by rewrite Er.
  - assert (Hnone : instances m !! id0 = None).
    { destruct (instances m !! id0) as [i|]; [|reflexivity].
      assert (Hs : false = true) by (apply Hreg; eauto).
      discriminate. }
    rewrite Hid, Hnone.
    pose proof (manager_step_ok m (Register id0) I Hok) as Hok1.
    pose proof (loop_ok_step m (Register id0) I Hok Hl) as Hl1.
    cbn [step] in Hok1, Hl1.
    assert (Hi : instances (register id0 m) !! id0 = Some newInstance).
    { rewrite register_instances by exact Hl. apply lookup_insert_eq. }
    destruct (activate_spec d _ id0 _ Hd Hok1 Hl1 Hi) as (i' & H1 & H2 & H3 & H4 & H5).
    exists i'. cbn [currentProgress newInstance] in *. by repeat split.
Qed.

Lemma hover_takes_effect_without_restart_witness :
  exists i',
    instances (snd (buttonStep
        (buttonRun [MouseEnter 0; Elsewhere (Frame 0.016); MouseLeave]
           (mounted "cta", newManager)) (MouseEnter 0))) !! "cta" = Some i' /\
    currentProgress i' <= 0.016 * 0.12 + 0.016 * 0.12 + 0.012.
Proof.
  destruct (hover_takes_effect_without_restart "cta"
              [MouseEnter 0; Elsewhere (Frame 0.016); MouseLeave] 0)
    as (i' & H1 & _ & _ & _ & _ & H6).
  - repeat constructor; cbn; discriminate.
  - discriminate.
  - exists i'. split; [exact H1|]. exact H6.
Defined.

(** *** The textures of the manager *)

Lemma ice_states (calls : list (option TextureLoaders.Callback)) :
  let g := fold_left (fun s c => fst (TextureLoaders.loadSharedIceTextures c s))
             calls TextureLoaders.iceInit in
  (calls = [] /\ g = TextureLoaders.iceInit) \/
  (calls <> [] /\ exists t log, TextureLoaders.loadedWith t log g).
Proof.
  cbv zeta. induction calls as [|c calls IH] using rev_ind; [by left|].
  right. split; [by destruct calls|]. rewrite fold_left_app. cbn [fold_left].
  destruct IH as [[-> ->]|(_ & t & log & Hs)].
  - cbn [fold_left]. destruct (first_call_loads c) as (t & _ & Hs). eauto.
  - destruct (later_call_returns t log c _ Hs) as (_ & Hs'). eauto.
Qed.

(** X30 (the manager has its textures at once).  Whatever calls of
    [loadSharedIceTextures] came before (the 3D scene's, for instance),
    [loadTextures] of the button manager leaves [this.textures] set to
    the shared bundle when it returns, so that [register] never has to
    queue a registration; the five files have been requested once by then,
    and if any call came before, the bundle is the object those calls
    produced and [loadTextures] requests nothing. *)
Theorem manager_textures_are_set_at_once
    (calls : list (option TextureLoaders.Callback)) (onLoaded : TextureLoaders.Callback) :
  let g := fold_left (fun s c => fst (TextureLoaders.loadSharedIceTextures c s))
             calls TextureLoaders.iceInit in
  exists t,
    snd (loadTextures onLoaded g) = Some t /\
    TextureLoaders.getSharedIceTextures (fst (loadTextures onLoaded g)) = Some t /\
    TextureLoaders.loadCalls (fst (loadTextures onLoaded g)) = TextureLoaders.iceUrls /\
    (calls <> [] ->
     TextureLoaders.getSharedIceTextures g = Some t /\
     TextureLoaders.loadCalls g = TextureLoaders.iceUrls).
Proof.
  cbv zeta. destruct (ice_states calls) as [[-> Hg]|(Hne & t & log & Hs)].
  - cbn [fold_left].
    destruct (first_call_loads (Some onLoaded)) as (t & _ & Ht & _ & _ & Hc & Hi).
    exists t. unfold loadTextures.
    change (TextureLoaders.getSharedIceTextures TextureLoaders.iceInit) with (@None TextureLoaders.IceTextures).
    cbv iota. cbv zeta. cbn [fst snd].
    change (length (TextureLoaders.invoked TextureLoaders.iceInit)) with 0%nat.
    rewrite drop_0, Hi, filter_cons_True by reflexivity. rewrite filter_nil.
    unfold TextureLoaders.getSharedIceTextures.
    split; [reflexivity|]. split; [exact Ht|]. split; [exact Hc|].
    intros H. by destruct H.
  - cbv zeta in Hs. pose proof Hs as (Ht & _ & _ & Hc & _).
    exists t. unfold loadTextures, TextureLoaders.getSharedIceTextures. rewrite Ht.
    cbn [fst snd]. by repeat split.
Qed.

End IceButtonLoopFacts.
